(** * BxlObserver: the Linux sandbox access-mediation layer

    A shallow embedding of [Public/Src/Sandbox/Linux/bxl_observer.cpp]:
    the deduplication cache ([IsCacheHit]), the report channel ([Send],
    [SendReport]), in-place path resolution ([resolve_path]) and the
    [report_access] family, followed by the properties established about
    them.

    Conventions of the embedding.
    - A C string (a [char] buffer read up to its terminating NUL, or a
      [std::string]) is the list of its characters before the NUL.
    - Machine integers are [Z]; a conversion between [int] and [mode_t] is
      written out where the source performs one.
    - The observer singleton is the record [BxlObserver]; member functions
      are computations in the monad [M], which threads the observer and
      stops at a [_fatal] call or at a write past the end of a buffer.
    - Calls that leave the file (the policy engine, the report file, the
      mutex) are appended to the observer's [trace_]. *)

From Stdlib Require Import ZArith Ascii String DecimalString Lia.
From stdpp Require Import gmap strings list.

Local Open Scope Z_scope.
#[local] Set Warnings "-clear-no-such-hyp".

(** ** C strings *)

Abbreviation cstring := (list ascii).

Definition c_str (s : string) : cstring := list_ascii_of_string s.

Definition NUL : ascii := Ascii.zero.
Definition SLASH : ascii := "/"%char.
Definition DOT : ascii := "."%char.

(** [p[i]] for a NUL-terminated buffer whose contents are [p]. *)
Definition char_at (p : cstring) (i : nat) : ascii := nth i p NUL.

(** ** Platform constants (Linux, x86-64) *)

Definition PIPE_BUF : Z := 4096.
Definition PATH_MAX : nat := Z.to_nat 4096.
Definition AT_FDCWD : Z := -100.
Definition O_NOFOLLOW : Z := 131072.          (* 0400000 *)

Definition S_IFMT : Z := 61440.               (* 0170000 *)
Definition S_IFDIR : Z := 16384.              (* 0040000 *)
Definition S_IFREG : Z := 32768.              (* 0100000 *)
Definition S_IFLNK : Z := 40960.              (* 0120000 *)
Definition S_IFIFO : Z := 4096.               (* 0010000 *)

Definition S_ISDIR (mode : Z) : bool := Z.land mode S_IFMT =? S_IFDIR.
Definition S_ISREG (mode : Z) : bool := Z.land mode S_IFMT =? S_IFREG.
Definition S_ISLNK (mode : Z) : bool := Z.land mode S_IFMT =? S_IFLNK.

(** Integral conversions between [int] and [mode_t] (an [unsigned int]). *)
Definition to_mode_t (z : Z) : Z := z mod 2 ^ 32.
Definition to_int (z : Z) : Z := (z + 2 ^ 31) mod 2 ^ 32 - 2 ^ 31.

(** ** Event kinds

    [es_event_type_t] is declared in a header outside this file; the
    constructors are the kinds the file names, and [ES_EVENT_TYPE_OTHER]
    stands for every remaining enumerator. *)

Inductive es_event_type_t :=
| ES_EVENT_TYPE_NOTIFY_EXEC
| ES_EVENT_TYPE_NOTIFY_FORK
| ES_EVENT_TYPE_NOTIFY_EXIT
| ES_EVENT_TYPE_NOTIFY_TRUNCATE
| ES_EVENT_TYPE_NOTIFY_SETATTRLIST
| ES_EVENT_TYPE_NOTIFY_SETEXTATTR
| ES_EVENT_TYPE_NOTIFY_DELETEEXTATTR
| ES_EVENT_TYPE_NOTIFY_SETFLAGS
| ES_EVENT_TYPE_NOTIFY_SETOWNER
| ES_EVENT_TYPE_NOTIFY_SETMODE
| ES_EVENT_TYPE_NOTIFY_WRITE
| ES_EVENT_TYPE_NOTIFY_UTIMES
| ES_EVENT_TYPE_NOTIFY_SETTIME
| ES_EVENT_TYPE_NOTIFY_SETACL
| ES_EVENT_TYPE_NOTIFY_GETATTRLIST
| ES_EVENT_TYPE_NOTIFY_GETEXTATTR
| ES_EVENT_TYPE_NOTIFY_LISTEXTATTR
| ES_EVENT_TYPE_NOTIFY_ACCESS
| ES_EVENT_TYPE_NOTIFY_STAT
| ES_EVENT_TYPE_NOTIFY_READLINK
| ES_EVENT_TYPE_OTHER (n : N).

#[global] Instance es_event_type_eq_dec : EqDecision es_event_type_t.
Proof. solve_decision. Defined.

Definition es_event_type_code (e : es_event_type_t) : nat + N :=
  match e with
  | ES_EVENT_TYPE_NOTIFY_EXEC => inl 0%nat
  | ES_EVENT_TYPE_NOTIFY_FORK => inl 1%nat
  | ES_EVENT_TYPE_NOTIFY_EXIT => inl 2%nat
  | ES_EVENT_TYPE_NOTIFY_TRUNCATE => inl 3%nat
  | ES_EVENT_TYPE_NOTIFY_SETATTRLIST => inl 4%nat
  | ES_EVENT_TYPE_NOTIFY_SETEXTATTR => inl 5%nat
  | ES_EVENT_TYPE_NOTIFY_DELETEEXTATTR => inl 6%nat
  | ES_EVENT_TYPE_NOTIFY_SETFLAGS => inl 7%nat
  | ES_EVENT_TYPE_NOTIFY_SETOWNER => inl 8%nat
  | ES_EVENT_TYPE_NOTIFY_SETMODE => inl 9%nat
  | ES_EVENT_TYPE_NOTIFY_WRITE => inl 10%nat
  | ES_EVENT_TYPE_NOTIFY_UTIMES => inl 11%nat
  | ES_EVENT_TYPE_NOTIFY_SETTIME => inl 12%nat
  | ES_EVENT_TYPE_NOTIFY_SETACL => inl 13%nat
  | ES_EVENT_TYPE_NOTIFY_GETATTRLIST => inl 14%nat
  | ES_EVENT_TYPE_NOTIFY_GETEXTATTR => inl 15%nat
  | ES_EVENT_TYPE_NOTIFY_LISTEXTATTR => inl 16%nat
  | ES_EVENT_TYPE_NOTIFY_ACCESS => inl 17%nat
  | ES_EVENT_TYPE_NOTIFY_STAT => inl 18%nat
  | ES_EVENT_TYPE_NOTIFY_READLINK => inl 19%nat
  | ES_EVENT_TYPE_OTHER n => inr n
  end.

Definition es_event_type_of_code (c : nat + N) : es_event_type_t :=
  match c with
  | inl 0%nat => ES_EVENT_TYPE_NOTIFY_EXEC
  | inl 1%nat => ES_EVENT_TYPE_NOTIFY_FORK
  | inl 2%nat => ES_EVENT_TYPE_NOTIFY_EXIT
  | inl 3%nat => ES_EVENT_TYPE_NOTIFY_TRUNCATE
  | inl 4%nat => ES_EVENT_TYPE_NOTIFY_SETATTRLIST
  | inl 5%nat => ES_EVENT_TYPE_NOTIFY_SETEXTATTR
  | inl 6%nat => ES_EVENT_TYPE_NOTIFY_DELETEEXTATTR
  | inl 7%nat => ES_EVENT_TYPE_NOTIFY_SETFLAGS
  | inl 8%nat => ES_EVENT_TYPE_NOTIFY_SETOWNER
  | inl 9%nat => ES_EVENT_TYPE_NOTIFY_SETMODE
  | inl 10%nat => ES_EVENT_TYPE_NOTIFY_WRITE
  | inl 11%nat => ES_EVENT_TYPE_NOTIFY_UTIMES
  | inl 12%nat => ES_EVENT_TYPE_NOTIFY_SETTIME
  | inl 13%nat => ES_EVENT_TYPE_NOTIFY_SETACL
  | inl 14%nat => ES_EVENT_TYPE_NOTIFY_GETATTRLIST
  | inl 15%nat => ES_EVENT_TYPE_NOTIFY_GETEXTATTR
  | inl 16%nat => ES_EVENT_TYPE_NOTIFY_LISTEXTATTR
  | inl 17%nat => ES_EVENT_TYPE_NOTIFY_ACCESS
  | inl 18%nat => ES_EVENT_TYPE_NOTIFY_STAT
  | inl _ => ES_EVENT_TYPE_NOTIFY_READLINK
  | inr n => ES_EVENT_TYPE_OTHER n
  end.

#[global] Instance es_event_type_countable : Countable es_event_type_t.
Proof.
  apply (inj_countable' es_event_type_code es_event_type_of_code).
  intros e. destruct e; reflexivity.
Defined.

(** ** Enumerations and records of the sandbox headers

    The enumerations below are declared in headers outside this file.
    Each has the enumerators this file names and one constructor for the
    rest; the integer an enumerator prints as comes from the environment
    ([Env]). *)

Inductive FileOperation :=
| kOpProcessTreeCompleted
| kOpFirstAllowWriteCheckInProcess
| kOpOther (n : Z).

Inductive FileAccessStatus :=
| FileAccessStatus_Allowed
| FileAccessStatus_Denied
| FileAccessStatus_Other (n : Z).

Inductive RequestedAccess :=
| RequestedAccess_Write
| RequestedAccess_Other (n : Z).

Inductive ReportLevel :=
| ReportLevel_Report
| ReportLevel_Other (n : Z).

Inductive ResultAction :=
| ResultAction_Allow
| ResultAction_Deny.

(** [AccessCheckResult]: the verdict of an access check.  [sNotChecked] is
    [AccessCheckResult::Invalid()], the distinguished value for a check
    that did not take place. *)
Inductive AccessCheckResult :=
| AccessCheckResult_Invalid
| AccessCheckResult_make (access : RequestedAccess) (action : ResultAction)
    (level : ReportLevel).

Definition sNotChecked : AccessCheckResult := AccessCheckResult_Invalid.

(** [struct AccessReport]; its [stats] member, zero-initialised and never
    read in this file, is left out. *)
Record AccessReport := {
  operation : FileOperation;
  report_pid : Z;
  rootPid : Z;
  requestedAccess : Z;
  status : FileAccessStatus;
  reportExplicitly : Z;
  error : Z;
  pipId : Z;
  path : cstring;
  isDirectory : Z
}.

(** [IOEvent], with the arguments of the constructor call in
    [report_access] as fields. *)
Record IOEvent := {
  event_pid : Z;
  event_cpid : Z;
  event_ppid : Z;
  event_type : es_event_type_t;
  event_src_path : cstring;
  event_dst_path : cstring;
  event_executable : cstring;
  event_mode : Z;
  event_modified : bool
}.

(** ** The environment of the observed process

    What the operating system and the collaborators outside this file
    answer.  A symbolic link is an entry of [symlinks]: [real_readlink]
    succeeds on exactly the paths in its domain. *)
Record Env := {
  symlinks : gmap cstring cstring;
  path_mode : cstring → Z;              (* get_mode of a path: 0 when stat fails *)
  fd_mode : Z → Z;                      (* get_mode of a descriptor: 0 when fstat fails *)
  cwd : option cstring;                 (* getcwd *)
  progname : cstring;                   (* __progname *)
  env_pid : Z;                          (* getpid() *)
  env_ppid : Z;                         (* getppid() *)
  pip_process_id : Z;                   (* pip_->GetProcessId() *)
  pip_id : Z;                           (* pip_->GetPipId() *)
  is_enabled : bool;                    (* IsEnabled() *)
  HandleEvent : IOEvent → AccessCheckResult;   (* IOHandler::HandleEvent *)
  real_open_found : bool;               (* real_open != NULL *)
  reports_path : cstring;               (* GetReportsPath() *)
  open_result : Z;                      (* real_open on the reports path *)
  write_result : Z → Z → Z;             (* real_write(fd, _, bufsiz) *)
  MAX_FD : Z;
  sizeof_report_path : nat;             (* sizeof(report.path) *)
  FileOperation_int : FileOperation → Z;
  FileAccessStatus_int : FileAccessStatus → Z;
  RequestedAccess_int : RequestedAccess → Z;
  ReportLevel_int : ReportLevel → Z
}.

(** ** The observer and its monad *)

(** Calls on objects outside the observer's plain data, in program order. *)
Inductive Effect :=
| MutexTryLock (acquired : bool)                (* cacheMtx_.try_lock_for *)
| MutexUnlock                                   (* mtx->unlock() *)
| CacheFind (key : es_event_type_t)             (* cache_.find(key) *)
| CacheInsert (key : es_event_type_t) (p : cstring)      (* cache_.insert *)
| CacheSetInsert (key : es_event_type_t) (p : cstring)   (* it->second.insert *)
| PolicyHandleEvent (event : IOEvent)           (* handler.HandleEvent *)
| ChannelOpen (p : cstring) (fd : Z)            (* real_open *)
| ChannelWrite (fd : Z) (bytes : list ascii) (written : Z)   (* real_write *)
| ChannelClose (fd : Z).                        (* real_close *)

Record BxlObserver := {
  disposed_ : bool;
  cacheMtx_ : bool;       (* true: held by another owner for the whole timeout *)
  cache_ : gmap es_event_type_t (gset cstring);
  fdTable_ : gmap Z cstring;                    (* absent entry: empty string *)
  progFullPath_ : cstring;
  trace_ : list Effect
}.

(** The [_fatal] call sites of the file. *)
Inductive FatalError :=
| Fatal_open_not_found
| Fatal_buffer_greater_than_PIPE_BUF
| Fatal_could_not_open_reports
| Fatal_wrote_only
| Fatal_message_truncated
| Fatal_could_not_get_cwd
| Fatal_could_not_get_path_for_fd.

Inductive Outcome (A : Type) :=
| Returned (a : A) (o : BxlObserver)
| Fatal (e : FatalError) (o : BxlObserver)      (* the process was terminated *)
| Overrun (o : BxlObserver).                    (* access outside a buffer *)
Arguments Returned {A} a o.
Arguments Fatal {A} e o.
Arguments Overrun {A} o.

Definition M (A : Type) : Type := BxlObserver → Outcome A.

#[global] Instance M_ret : MRet M := λ A a o, Returned a o.
#[global] Instance M_bind : MBind M := λ A B f m o,
  match m o with
  | Returned a o' => f a o'
  | Fatal e o' => Fatal e o'
  | Overrun o' => Overrun o'
  end.

Definition gets {A} (f : BxlObserver → A) : M A := λ o, Returned (f o) o.
Definition modify (f : BxlObserver → BxlObserver) : M unit := λ o, Returned tt (f o).
Definition _fatal {A} (e : FatalError) : M A := λ o, Fatal e o.
Definition overrun {A} : M A := λ o, Overrun o.

Definition set_trace (t : list Effect) (o : BxlObserver) : BxlObserver :=
  {| disposed_ := disposed_ o; cacheMtx_ := cacheMtx_ o; cache_ := cache_ o;
     fdTable_ := fdTable_ o; progFullPath_ := progFullPath_ o; trace_ := t |}.
Definition set_cache (c : gmap es_event_type_t (gset cstring)) (o : BxlObserver) : BxlObserver :=
  {| disposed_ := disposed_ o; cacheMtx_ := cacheMtx_ o; cache_ := c;
     fdTable_ := fdTable_ o; progFullPath_ := progFullPath_ o; trace_ := trace_ o |}.
Definition set_fdTable (t : gmap Z cstring) (o : BxlObserver) : BxlObserver :=
  {| disposed_ := disposed_ o; cacheMtx_ := cacheMtx_ o; cache_ := cache_ o;
     fdTable_ := t; progFullPath_ := progFullPath_ o; trace_ := trace_ o |}.

Definition emit (e : Effect) : M unit := modify (λ o, set_trace (trace_ o ++ [e]) o).

(** ** AccessCache: [BxlObserver::IsCacheHit] *)

(** The [switch] that coalesces similar events.  The first group ends in
    [break]; the second group assigns [ES_EVENT_TYPE_NOTIFY_STAT] and, having
    no [break], runs on into the [default] label, which assigns [event]. *)
Definition coalesce (event : es_event_type_t) : es_event_type_t :=
  match event with
  | ES_EVENT_TYPE_NOTIFY_TRUNCATE
  | ES_EVENT_TYPE_NOTIFY_SETATTRLIST
  | ES_EVENT_TYPE_NOTIFY_SETEXTATTR
  | ES_EVENT_TYPE_NOTIFY_DELETEEXTATTR
  | ES_EVENT_TYPE_NOTIFY_SETFLAGS
  | ES_EVENT_TYPE_NOTIFY_SETOWNER
  | ES_EVENT_TYPE_NOTIFY_SETMODE
  | ES_EVENT_TYPE_NOTIFY_WRITE
  | ES_EVENT_TYPE_NOTIFY_UTIMES
  | ES_EVENT_TYPE_NOTIFY_SETTIME
  | ES_EVENT_TYPE_NOTIFY_SETACL =>
      ES_EVENT_TYPE_NOTIFY_WRITE
  | ES_EVENT_TYPE_NOTIFY_GETATTRLIST
  | ES_EVENT_TYPE_NOTIFY_GETEXTATTR
  | ES_EVENT_TYPE_NOTIFY_LISTEXTATTR
  | ES_EVENT_TYPE_NOTIFY_ACCESS
  | ES_EVENT_TYPE_NOTIFY_STAT =>
      let key := ES_EVENT_TYPE_NOTIFY_STAT in
      let key := event in                       (* default: *)
      key
  | _ => event
  end.

(** [cacheMtx_.try_lock_for(1ms)]: fails when the mutex stays held. *)
Definition try_lock_for : M bool :=
  held ← gets cacheMtx_;
  emit (MutexTryLock (negb held));;
  mret (negb held).

Definition unlock : M unit := emit MutexUnlock.

Definition cache_find (key : es_event_type_t) : M (option (gset cstring)) :=
  emit (CacheFind key);;
  gets (λ o, cache_ o !! key).

Definition cache_insert (key : es_event_type_t) (set : gset cstring) (p : cstring) : M unit :=
  emit (CacheInsert key p);;
  modify (λ o, set_cache (<[key := set]> (cache_ o)) o).

(** [it->second.insert(path).second]: true when the path was new. *)
Definition cache_set_insert (key : es_event_type_t) (set : gset cstring) (p : cstring) : M bool :=
  emit (CacheSetInsert key p);;
  modify (λ o, set_cache (<[key := {[p]} ∪ set]> (cache_ o)) o);;
  mret (bool_decide (p ∉ set)).

Definition IsCacheHit (event : es_event_type_t) (p secondPath : cstring) : M bool :=
  disposed ← gets disposed_;
  if disposed
     || bool_decide (0 < length secondPath)%nat
     || bool_decide (event = ES_EVENT_TYPE_NOTIFY_FORK)
     || bool_decide (event = ES_EVENT_TYPE_NOTIFY_EXEC)
     || bool_decide (event = ES_EVENT_TYPE_NOTIFY_EXIT)
  then mret false
  else
    let key := coalesce event in
    acquired ← try_lock_for;
    if negb acquired then mret false
    else
      it ← cache_find key;
      match it with
      | None =>
          cache_insert key {[p]} p;;
          unlock;;
          mret false
      | Some set =>
          second ← cache_set_insert key set p;
          unlock;;
          mret (negb second)
      end.

(** ** FileDescriptorTable *)

(** [fdTable_[fd]] *)
Definition fdTable_entry (o : BxlObserver) (fd : Z) : cstring :=
  default [] (fdTable_ o !! fd).

Definition reset_fd_table_entry (env : Env) (fd : Z) : M unit :=
  if bool_decide (0 ≤ fd) && bool_decide (fd < MAX_FD env)
  then modify (λ o, set_fdTable (<[fd := []]> (fdTable_ o)) o)
  else mret tt.

(** ** ReportChannel: [BxlObserver::Send] and [BxlObserver::SendReport] *)

(** [%d] *)
Definition dec (z : Z) : cstring := c_str (NilZero.string_of_int (Z.to_int z)).

Definition PIPE : cstring := ["|"%char].
Definition NEWLINE : cstring := ["010"%char].

(** The text [snprintf] is asked to produce for
    ["%s|%d|%d|%d|%d|%d|%d|%s|%d\n"]. *)
Definition format_report (env : Env) (report : AccessReport) : cstring :=
  progname env ++ PIPE ++ dec (env_pid env) ++ PIPE ++
  dec (requestedAccess report) ++ PIPE ++
  dec (FileAccessStatus_int env (status report)) ++ PIPE ++
  dec (reportExplicitly report) ++ PIPE ++ dec (error report) ++ PIPE ++
  dec (FileOperation_int env (operation report)) ++ PIPE ++
  path report ++ PIPE ++ dec (isDirectory report) ++ NEWLINE.

(** Overwrite the bytes of array [a] from index [i] on with [data]. *)
Definition write_at (a : list ascii) (i : nat) (data : list ascii) : list ascii :=
  take i a ++ data ++ drop (i + length data) a.

(** [snprintf(&buffer[at], size, ...)] producing [text]: at most [size - 1]
    characters and a NUL are stored; the length of the whole text is
    returned. *)
Definition snprintf (a : list ascii) (at_ : nat) (size : Z) (text : cstring)
  : list ascii * Z :=
  (write_at a at_ (take (Z.to_nat (size - 1)) text ++ [NUL]), Z.of_nat (length text)).

(** The four bytes of a [uint] in memory (little-endian). *)
Definition uint_bytes (n : Z) : list ascii :=
  map (λ k, ascii_of_N (Z.to_N ((n / 256 ^ k) mod 256))) [0; 1; 2; 3].

(** Conversion of an [ssize_t] for a comparison with a [size_t]. *)
Definition to_size_t (z : Z) : Z := z mod 2 ^ 64.

Definition Send (env : Env) (buf : list ascii) (bufsiz : Z) : M bool :=
  if negb (real_open_found env) then _fatal Fatal_open_not_found
  else if bool_decide (PIPE_BUF < bufsiz) then _fatal Fatal_buffer_greater_than_PIPE_BUF
  else
    let reportsPath := reports_path env in
    let logFd := open_result env in
    emit (ChannelOpen reportsPath logFd);;
    if bool_decide (logFd = -1) then _fatal Fatal_could_not_open_reports
    else
      let numWritten := write_result env logFd bufsiz in
      emit (ChannelWrite logFd (take (Z.to_nat bufsiz) buf) numWritten);;
      if bool_decide (to_size_t numWritten < bufsiz) then _fatal Fatal_wrote_only
      else
        reset_fd_table_entry env logFd;;
        emit (ChannelClose logFd);;
        mret true.

#[global] Instance FileOperation_eq_dec : EqDecision FileOperation.
Proof. solve_decision. Defined.

Definition SendReport (env : Env) (report : AccessReport) : M bool :=
  if bool_decide (operation report = kOpProcessTreeCompleted) then mret true
  else
    let PrefixLength := 4 in
    let buffer := replicate (Z.to_nat PIPE_BUF) NUL in
    let maxMessageLength := PIPE_BUF - PrefixLength in
    let '(buffer, numWritten) :=
      snprintf buffer (Z.to_nat PrefixLength) maxMessageLength (format_report env report) in
    if bool_decide (numWritten = maxMessageLength) then _fatal Fatal_message_truncated
    else
      let buffer := write_at buffer 0 (uint_bytes numWritten) in
      Send env buffer (numWritten + PrefixLength).

(** ** PathResolver: [shift_left], [find_prev_slash], [BxlObserver::resolve_path] *)

(** [real_readlink(path, buf, bufsiz)]: the bytes placed in [buf], [None]
    for the result [-1]. *)
Definition real_readlink (env : Env) (p : cstring) (bufsiz : nat) : option cstring :=
  take bufsiz <$> symlinks env !! p.

(** [shift_left(str, n)] with [str] at index [i], on the memory [a] of the
    buffer: [do { *(str - n) = *str; } while ( *str++ );], run for at most
    [fuel] characters. *)
Fixpoint shift_left_loop (a : list ascii) (i n fuel : nat) : list ascii :=
  match fuel with
  | O => a
  | S fuel =>
      let c := char_at a i in
      let a := <[(i - n)%nat := c]> a in
      if bool_decide (c = NUL) then a else shift_left_loop a (S i) n fuel
  end.

(** What the loop does to the string the buffer holds: the characters
    before index [i - n] are followed by those from [i] on (see
    [shift_left_loop_c_string]). *)
Definition shift_left (buf : cstring) (i n : nat) : cstring :=
  take (i - n) buf ++ drop i buf.

(** [find_prev_slash(pStr)] with [pStr] at index [i]: step left, then test.
    [None] when the scan leaves the buffer at its start. *)
Fixpoint find_prev_slash (buf : cstring) (i : nat) : option nat :=
  match i with
  | O => None
  | S j => if bool_decide (char_at buf j = SLASH) then Some j else find_prev_slash buf j
  end.

(** The local state of one call of [resolve_path]: the buffer, the scan
    pointer (as an index), the set of visited links, and the paths handed to
    [report_access] so far, oldest first. *)
Record Resolution := {
  fullpath : cstring;
  pFullpath : nat;
  visited : gset cstring;
  reported : list cstring
}.

Inductive Step :=
| Continue (r : Resolution)             (* next iteration *)
| Break (r : Resolution)                (* the loop is left *)
| OutOfBounds (r : Resolution).         (* access outside a buffer *)

Definition at_ (r : Resolution) (buf : cstring) (p : nat) : Resolution :=
  {| fullpath := buf; pFullpath := p; visited := visited r; reported := reported r |}.

(** First part of the loop body: handle ["/../"], ["/./"] and ["//"].
    [None] when control reaches the [readlink] part. *)
Definition collapse (r : Resolution) : option Step :=
  let buf := fullpath r in
  let p := pFullpath r in
  if bool_decide (char_at buf p = SLASH) then
    match find_prev_slash buf p with
    | None => Some (OutOfBounds r)
    | Some pPrevSlash =>
        let parentDirLen := (p - pPrevSlash - 1)%nat in
        if bool_decide (parentDirLen = 0%nat) then
          Some (Continue (at_ r (shift_left buf (p + 1) 1) p))
        else if bool_decide (parentDirLen = 1%nat) && bool_decide (char_at buf (p - 1) = DOT) then
          Some (Continue (at_ r (shift_left buf (p + 1) 2) (p - 1)))
        else if bool_decide (parentDirLen = 2%nat) && bool_decide (char_at buf (p - 1) = DOT)
                && bool_decide (char_at buf (p - 2) = DOT) then
          match (if bool_decide (0 < pPrevSlash)%nat
                 then find_prev_slash buf pPrevSlash else Some pPrevSlash) with
          | None => Some (OutOfBounds r)
          | Some pPrevSlash =>
              let shiftLen := (p - pPrevSlash)%nat in
              Some (Continue (at_ r (shift_left buf (p + 1) shiftLen) (pPrevSlash + 1)))
          end
        else None
    end
  else None.

(** Second part of the loop body: [readlink] on the path up to the scan
    pointer, and substitution of the target. *)
Definition follow_link (env : Env) (followFinalSymlink : bool) (r : Resolution) : Step :=
  let buf := fullpath r in
  let p := pFullpath r in
  let ch := char_at buf p in
  let nReadlinkBuf :=
    if bool_decide (ch = SLASH) || (bool_decide (ch = NUL) && followFinalSymlink)
    then real_readlink env (take p buf) PATH_MAX
    else None in
  match nReadlinkBuf with
  | None =>
      if bool_decide (ch = NUL) then Break r else Continue (at_ r buf (p + 1))
  | Some target =>
      let n := length target in
      (* readlinkBuf[nReadlinkBuf] = NUL *)
      if bool_decide (PATH_MAX ≤ n)%nat then OutOfBounds r
      else
        (* the buffer now ends at the scan pointer *)
        let current := take p buf in
        if bool_decide (current ∈ visited r) then
          Break {| fullpath := current; pFullpath := p;
                   visited := visited r; reported := reported r |}
        else
          let r := {| fullpath := buf; pFullpath := p;
                      visited := {[current]} ∪ visited r;
                      reported := reported r ++ [current] |} in
          (* readlinkBuf[nReadlinkBuf-1] *)
          if bool_decide (n = 0)%nat then OutOfBounds r
          else
            let rest :=
              if bool_decide (char_at target (n - 1) = SLASH) && bool_decide (ch = SLASH)
              then drop (p + 1) buf else drop p buf in
            (* strcpy(readlinkBuf + nReadlinkBuf, ...) *)
            if bool_decide (PATH_MAX < n + length rest + 1)%nat then OutOfBounds r
            else
              let readlinkBuf := target ++ rest in
              if bool_decide (char_at readlinkBuf 0 = SLASH) then
                Continue (at_ r readlinkBuf 1)
              else
                match find_prev_slash buf p with
                | None => OutOfBounds r
                | Some q =>
                    (* strcpy(++pFullpath, readlinkBuf) *)
                    if bool_decide (PATH_MAX < (q + 1) + length readlinkBuf + 1)%nat
                    then OutOfBounds r
                    else Continue (at_ r (take (q + 1) buf ++ readlinkBuf) (q + 1))
                end
  end.

(** One iteration of [while (true)]. *)
Definition resolve_step (env : Env) (followFinalSymlink : bool) (r : Resolution) : Step :=
  match collapse r with
  | Some s => s
  | None => follow_link env followFinalSymlink r
  end.

(** The loop, run for at most [fuel] iterations. *)
Fixpoint resolve_loop (env : Env) (followFinalSymlink : bool) (fuel : nat) (r : Resolution)
  : option Step :=
  match fuel with
  | O => None
  | S fuel =>
      match resolve_step env followFinalSymlink r with
      | Continue r' => resolve_loop env followFinalSymlink fuel r'
      | s => Some s
      end
  end.

(** A number of iterations that is enough for every call (see
    [resolve_loop_enough]). *)
Definition resolve_fuel (env : Env) (buf : cstring) : nat :=
  2 * length buf + size (symlinks env) * (2 * PATH_MAX + 1) + 1.

(** The walk of [resolve_path] over a non-null buffer: the final local
    state, under [Break] when the function returns. *)
Definition resolve_walk (env : Env) (buf : cstring) (followFinalSymlink : bool) : Step :=
  let r := {| fullpath := buf; pFullpath := 1; visited := ∅; reported := [] |} in
  if negb (bool_decide (char_at buf 0 = SLASH)) then Break r
  else default (OutOfBounds r) (resolve_loop env followFinalSymlink (resolve_fuel env buf) r).

Definition final (s : Step) : Resolution :=
  match s with Continue r | Break r | OutOfBounds r => r end.

(** ** AccessMediator: the [report_access] family

    The three overloads of [report_access] are [report_access] (path
    strings), [report_access_event] (an [IOEvent]) and
    [report_access_pathname] (a [const char *] path with [mode] and
    [flags]).  The [syscallName] argument only reaches [LOG_DEBUG]. *)

Definition report_access_event (env : Env) (syscallName : cstring) (event : IOEvent)
    (checkCache : bool) : M AccessCheckResult :=
  let eventType := event_type event in
  hit ← (if checkCache
         then IsCacheHit eventType (event_src_path event) (event_dst_path event)
         else mret false) : M bool;
  if hit : bool then mret sNotChecked
  else
    let result := sNotChecked in
    if is_enabled env then
      emit (PolicyHandleEvent event);;
      mret (HandleEvent env event)
    else mret result.

Definition report_access (env : Env) (syscallName : cstring) (eventType : es_event_type_t)
    (reportPath secondPath : cstring) (mode : Z) : M AccessCheckResult :=
  hit ← IsCacheHit eventType reportPath secondPath;
  if hit : bool then mret sNotChecked
  else
    let mode := if bool_decide (mode = 0) then path_mode env reportPath else mode in
    execPath ← gets (λ o, if bool_decide (eventType = ES_EVENT_TYPE_NOTIFY_EXEC)
                          then reportPath else progFullPath_ o);
    let event := {| event_pid := env_pid env; event_cpid := 0; event_ppid := env_ppid env;
                    event_type := eventType; event_src_path := reportPath;
                    event_dst_path := secondPath; event_executable := execPath;
                    event_mode := mode; event_modified := false |} in
    report_access_event env syscallName event false.

(** [BxlObserver::resolve_path]: the walk, its calls of
    [report_access("_readlink", ES_EVENT_TYPE_NOTIFY_READLINK, ...)] in
    order, and the buffer it leaves. *)
Definition resolve_path (env : Env) (buf : cstring) (followFinalSymlink : bool) : M cstring :=
  let s := resolve_walk env buf followFinalSymlink in
  mapM (λ p, report_access env (c_str "_readlink") ES_EVENT_TYPE_NOTIFY_READLINK p [] 0)
       (reported (final s));;
  match s with
  | OutOfBounds _ => overrun
  | _ => mret (fullpath (final s))
  end.

(** [read_path_for_fd]: [readlink] on ["/proc/self/fd/<fd>"]. *)
Definition read_path_for_fd (env : Env) (fd : Z) (bufsiz : nat) : option cstring :=
  real_readlink env (c_str "/proc/self/fd/" ++ dec fd) bufsiz.

(** The [std::string] made from the zero-initialised [path] array after
    [read_path_for_fd]. *)
Definition read_path (env : Env) (fd : Z) : M cstring :=
  match read_path_for_fd env fd PATH_MAX with
  | None => mret []
  | Some t => if bool_decide (PATH_MAX ≤ length t)%nat then overrun else mret t
  end.

Definition fd_to_path (env : Env) (fd : Z) : M cstring :=
  if bool_decide (fd < 0) || bool_decide (MAX_FD env ≤ fd) then read_path env fd
  else
    entry ← gets (λ o, fdTable_entry o fd);
    if bool_decide (0 < length entry)%nat then mret entry
    else
      p ← read_path env fd;
      modify (λ o, set_fdTable (<[fd := p]> (fdTable_ o)) o);;
      mret p.

(** [getcwd(buf, size)] *)
Definition getcwd (env : Env) (size : nat) : option cstring :=
  match cwd env with
  | Some d => if bool_decide (length d < size)%nat then Some d else None
  | None => None
  end.

(** [strcpy] into a [char[PATH_MAX]] array. *)
Definition strcpy_PATH_MAX (at_ : nat) (s : cstring) : M unit :=
  if bool_decide (PATH_MAX < at_ + length s + 1)%nat then overrun else mret tt.

(** [BxlObserver::normalize_path_at]; a null [pathname] is [None]. *)
Definition normalize_path_at (env : Env) (dirfd : Z) (pathname : option cstring) (oflags : Z)
  : M cstring :=
  match pathname with
  | None => fd_to_path env dirfd
  | Some pathname =>
      buf ←
        (if negb (bool_decide (char_at pathname 0 = SLASH)) then
           dir ←
             (if bool_decide (dirfd = AT_FDCWD) then
                match getcwd env PATH_MAX with
                | None => _fatal Fatal_could_not_get_cwd
                | Some d => mret d
                end
              else
                dirPath ← fd_to_path env dirfd;
                strcpy_PATH_MAX 0 dirPath;;
                mret dirPath) : M cstring;
           let len := length dir in
           if bool_decide (len ≤ 0)%nat then _fatal Fatal_could_not_get_path_for_fd
           else
             strcpy_PATH_MAX (len + 1) pathname;;
             mret (dir ++ [SLASH] ++ pathname)
         else
           strcpy_PATH_MAX 0 pathname;;
           mret pathname) : M cstring;
      let followFinalSymlink := bool_decide (Z.land oflags O_NOFOLLOW = 0) in
      resolve_path env buf followFinalSymlink
  end.

(** Modelled from the spec: [normalize_path] is defined in the class
    header, outside this file.  It is the relative-path entry point with
    the current working directory as reference: [normalize_path_at] with
    the [AT_FDCWD] sentinel for the reference descriptor. *)
Definition normalize_path (env : Env) (pathname : cstring) (oflags : Z) : M cstring :=
  normalize_path_at env AT_FDCWD (Some pathname) oflags.

Definition report_access_pathname (env : Env) (syscallName : cstring)
    (eventType : es_event_type_t) (pathname : cstring) (mode : Z) (flags : Z)
  : M AccessCheckResult :=
  p ← normalize_path env pathname flags;
  report_access env syscallName eventType p [] mode.

Definition is_non_file (mode : Z) : bool :=
  negb (bool_decide (mode = 0)) && negb (S_ISDIR mode) && negb (S_ISREG mode)
  && negb (S_ISLNK mode).

Definition report_access_fd (env : Env) (syscallName : cstring) (eventType : es_event_type_t)
    (fd : Z) : M AccessCheckResult :=
  let mode := fd_mode env fd in
  if is_non_file mode then mret sNotChecked
  else
    p ← fd_to_path env fd;
    report_access env syscallName eventType p [] mode.

(** [BxlObserver::report_access_at].  The last call of the function passes
    [(fullpath, flags, mode)] to the overload whose parameters are
    [(pathname, mode, flags)]: [flags] is converted to [mode_t] for the
    [mode] parameter and [mode] to [int] for the [flags] parameter. *)
Definition report_access_at (env : Env) (syscallName : cstring) (eventType : es_event_type_t)
    (dirfd : Z) (pathname : cstring) (flags : Z) : M AccessCheckResult :=
  if bool_decide (char_at pathname 0 = SLASH) then
    report_access_pathname env syscallName eventType pathname 0 flags
  else
    let finish (dir : cstring) (mode : Z) : M AccessCheckResult :=
      let len := length dir in
      if bool_decide (len ≤ 0)%nat then _fatal Fatal_could_not_get_path_for_fd
      else
        (* snprintf(&fullpath[len], PATH_MAX - len, "/%s", pathname) *)
        let buf := dir ++ take (PATH_MAX - len - 1) ([SLASH] ++ pathname) in
        report_access_pathname env syscallName eventType buf (to_mode_t flags) (to_int mode) in
    if bool_decide (dirfd = AT_FDCWD) then
      match getcwd env PATH_MAX with
      | None => mret sNotChecked
      | Some d => finish d 0
      end
    else
      let mode := fd_mode env dirfd in
      if is_non_file mode then mret sNotChecked
      else
        dirPath ← fd_to_path env dirfd;
        strcpy_PATH_MAX 0 dirPath;;
        finish dirPath mode.

(** [strlcpy(dst, src, size)]: at most [size - 1] characters are copied. *)
Definition strlcpy (src : cstring) (size : nat) : cstring := take (size - 1) src.

Definition report_firstAllowWriteCheck (env : Env) (fullPath : cstring) : M AccessCheckResult :=
  let mode := path_mode env fullPath in
  let fileExists := negb (bool_decide (mode = 0)) && negb (S_ISDIR mode) in
  let report :=
    {| operation := kOpFirstAllowWriteCheckInProcess;
       report_pid := env_pid env;
       rootPid := pip_process_id env;
       requestedAccess := RequestedAccess_int env RequestedAccess_Write;
       status := if fileExists then FileAccessStatus_Denied else FileAccessStatus_Allowed;
       reportExplicitly := ReportLevel_int env ReportLevel_Report;
       error := 0;
       pipId := pip_id env;
       path := strlcpy fullPath (sizeof_report_path env);
       isDirectory := if S_ISDIR mode then 1 else 0 |} in
  SendReport env report;;
  mret (AccessCheckResult_make RequestedAccess_Write
          (if fileExists then ResultAction_Deny else ResultAction_Allow)
          ReportLevel_Report).

(** ** Vocabulary of the statements *)

(** The pair [(key, p)] is in the cache. *)
Definition recorded (o : BxlObserver) (key : es_event_type_t) (p : cstring) : Prop :=
  p ∈ default ∅ (cache_ o !! key).

#[global] Instance recorded_dec o key p : Decision (recorded o key p).
Proof. unfold recorded. apply _. Defined.

(** Kinds [IsCacheHit] never caches. *)
Definition never_cached (event : es_event_type_t) : Prop :=
  event = ES_EVENT_TYPE_NOTIFY_FORK ∨ event = ES_EVENT_TYPE_NOTIFY_EXEC
  ∨ event = ES_EVENT_TYPE_NOTIFY_EXIT.

(** The observer after a computation, whatever its outcome. *)
Definition observer_of {A} (x : Outcome A) : BxlObserver :=
  match x with Returned _ o | Fatal _ o | Overrun o => o end.

(** A sequence of [IsCacheHit] calls, answers dropped. *)
Definition IsCacheHit_calls (calls : list (es_event_type_t * cstring * cstring))
    (o : BxlObserver) : BxlObserver :=
  foldl (λ o '(event, p, secondPath), observer_of (IsCacheHit event p secondPath o)) o calls.

(** A freshly constructed observer. *)
Definition fresh_observer : BxlObserver :=
  {| disposed_ := false; cacheMtx_ := false; cache_ := ∅; fdTable_ := ∅;
     progFullPath_ := c_str "/usr/bin/tool"; trace_ := [] |}.

Definition disposed_observer : BxlObserver :=
  {| disposed_ := true; cacheMtx_ := false; cache_ := ∅; fdTable_ := ∅;
     progFullPath_ := c_str "/usr/bin/tool"; trace_ := [] |}.

(** An environment for the examples: the given symbolic links and modes,
    working directory ["/d"], a report file that opens as descriptor 3, and
    a [write] that returns [written bufsiz]. *)
Definition sample_env (links : list (string * string)) (path_mode : cstring → Z)
    (fd_mode : Z → Z) (written : Z → Z) : Env :=
  {| symlinks := list_to_map (map (λ l, (c_str l.1, c_str l.2)) links);
     path_mode := path_mode;
     fd_mode := fd_mode;
     cwd := Some (c_str "/d");
     progname := c_str "tool";
     env_pid := 42;
     env_ppid := 1;
     pip_process_id := 42;
     pip_id := 7;
     is_enabled := true;
     HandleEvent := λ _, AccessCheckResult_make RequestedAccess_Write ResultAction_Allow
                           ReportLevel_Report;
     real_open_found := true;
     reports_path := c_str "/tmp/bxl.fifo";
     open_result := 3;
     write_result := λ _ bufsiz, written bufsiz;
     MAX_FD := 1024;
     sizeof_report_path := PATH_MAX;
     FileOperation_int := λ op, match op with
                                | kOpProcessTreeCompleted => 1
                                | kOpFirstAllowWriteCheckInProcess => 2
                                | kOpOther n => n
                                end;
     FileAccessStatus_int := λ st, match st with
                                   | FileAccessStatus_Allowed => 1
                                   | FileAccessStatus_Denied => 2
                                   | FileAccessStatus_Other n => n
                                   end;
     RequestedAccess_int := λ a, match a with
                                 | RequestedAccess_Write => 2
                                 | RequestedAccess_Other n => n
                                 end;
     ReportLevel_int := λ l, match l with
                             | ReportLevel_Report => 1
                             | ReportLevel_Other n => n
                             end |}.

(** A report of the given operation on the given path. *)
Definition sample_report (op : FileOperation) (p : cstring) : AccessReport :=
  {| operation := op; report_pid := 42; rootPid := 42; requestedAccess := 2;
     status := FileAccessStatus_Allowed; reportExplicitly := 1; error := 0;
     pipId := 7; path := p; isDirectory := 0 |}.

(** The message [SendReport] hands to the channel when nothing is cut:
    length prefix, then the whole text. *)
Definition whole_message (env : Env) (report : AccessReport) : list ascii :=
  uint_bytes (Z.of_nat (length (format_report env report))) ++ format_report env report.

(** The local state [resolve_path] starts from. *)
Definition resolve_start (buf : cstring) : Resolution :=
  {| fullpath := buf; pFullpath := 1; visited := ∅; reported := [] |}.

(** Links of the environment not yet visited, and the bound on the
    remaining iterations of the loop built from it. *)
Definition unvisited (env : Env) (r : Resolution) : nat :=
  size (dom (symlinks env) ∖ visited r).

Definition potential (env : Env) (r : Resolution) : nat :=
  2 * length (fullpath r) - pFullpath r + unvisited env r * (2 * PATH_MAX + 1).

Definition is_continue (s : Step) : bool :=
  match s with Continue _ => true | _ => false end.

(** A file system whose only link is ["/x"], pointing to itself. *)
Definition self_link_env : Env :=
  sample_env [("/x", "/x")%string]
    (λ p, if bool_decide (p = c_str "/x") then S_IFLNK else 0) (λ _, 0) (λ n, n).

(** The event [report_access] builds for the [readlink] of ["/x"] in
    [self_link_env] on [fresh_observer]. *)
Definition readlink_x_event : IOEvent :=
  {| event_pid := 42; event_cpid := 0; event_ppid := 1;
     event_type := ES_EVENT_TYPE_NOTIFY_READLINK;
     event_src_path := c_str "/x"; event_dst_path := [];
     event_executable := c_str "/usr/bin/tool";
     event_mode := S_IFLNK; event_modified := false |}.

(** [pat] occurs in [l] as a run of consecutive characters. *)
Fixpoint has_infix (pat l : cstring) : bool :=
  bool_decide (pat `prefix_of` l)
  || match l with
     | [] => false
     | _ :: l' => has_infix pat l'
     end.

Definition absolute (l : cstring) : Prop := char_at l 0 = SLASH.

(** No empty segment and no [.] or [..] segment is followed by a slash:
    the path has no ["//"], ["/./"] or ["/../"]. *)
Definition collapsed (l : cstring) : Prop :=
  has_infix (c_str "//") l = false
  ∧ has_infix (c_str "/./") l = false
  ∧ has_infix (c_str "/../") l = false.

(** The canonical form of the specification: absolute and free of [//],
    of [.] segments and of [..] segments, the last segment included. *)
Definition canonical (l : cstring) : Prop :=
  absolute l ∧ collapsed l
  ∧ ¬ (c_str "/.") `suffix_of` l ∧ ¬ (c_str "/..") `suffix_of` l.

#[global] Instance absolute_dec l : Decision (absolute l).
Proof. unfold absolute. apply _. Defined.
#[global] Instance collapsed_dec l : Decision (collapsed l).
Proof. unfold collapsed. apply _. Defined.
#[global] Instance canonical_dec l : Decision (canonical l).
Proof. unfold canonical. apply _. Defined.

(** A file system without symbolic links. *)
Definition plain_env : Env := sample_env [] (λ _, 0) (λ _, 0) (λ n, n).

(** What the loop keeps true on a file system without links: the buffer is
    an absolute C string, the scan pointer is inside it, the part before
    the pointer is collapsed, and nothing was visited or reported. *)
Definition scanned (r : Resolution) : Prop :=
  absolute (fullpath r) ∧ (NUL ∉ fullpath r)
  ∧ (1 ≤ pFullpath r ≤ length (fullpath r))%nat
  ∧ collapsed (take (pFullpath r) (fullpath r))
  ∧ visited r = ∅ ∧ reported r = [].

(** What [collapse] finds before a slash under the scan pointer. *)
Inductive Before (buf : cstring) (p : nat) : Prop :=
| before_slash : (1 ≤ p)%nat → char_at buf (p - 1) = SLASH → Before buf p
| before_dot : (2 ≤ p)%nat → char_at buf (p - 2) = SLASH → char_at buf (p - 1) = DOT →
    Before buf p
| before_dot_dot : (3 ≤ p)%nat → char_at buf (p - 3) = SLASH → char_at buf (p - 2) = DOT →
    char_at buf (p - 1) = DOT → Before buf p.

(** Effects on the report channel. *)
Definition is_channel (e : Effect) : Prop :=
  match e with
  | ChannelOpen _ _ | ChannelWrite _ _ _ | ChannelClose _ => True
  | _ => False
  end.

(** The source paths of the events handed to the policy engine, oldest
    first. *)
Definition policy_paths (t : list Effect) : list cstring :=
  omap (λ e, match e with
             | PolicyHandleEvent ev => Some (event_src_path ev)
             | _ => None
             end) t.

(** The report [report_firstAllowWriteCheck] builds for a path, given
    the status it decided on. *)
Definition firstAllowWriteCheck_report (env : Env) (fullPath : cstring)
    (st : FileAccessStatus) : AccessReport :=
  {| operation := kOpFirstAllowWriteCheckInProcess;
     report_pid := env_pid env;
     rootPid := pip_process_id env;
     requestedAccess := RequestedAccess_int env RequestedAccess_Write;
     status := st;
     reportExplicitly := ReportLevel_int env ReportLevel_Report;
     error := 0;
     pipId := pip_id env;
     path := strlcpy fullPath (sizeof_report_path env);
     isDirectory := if S_ISDIR (path_mode env fullPath) then 1 else 0 |}.

(** A file system where ["/out"] is an existing directory, ["/d/f"] an
    existing regular file and ["/d/l"] a link to ["t"]; descriptor 5 is a
    pipe and no other descriptor is open ([fstat] and [readlink] on
    ["/proc/self/fd/<fd>"] fail). *)
Definition mixed_env : Env :=
  sample_env [("/d/l", "t")]%string
    (λ p, if bool_decide (p = c_str "/out") then S_IFDIR + 493
          else if bool_decide (p = c_str "/d/f") then S_IFREG + 420
          else if bool_decide (p = c_str "/d/l") then S_IFLNK + 511
          else 0)
    (λ fd, if bool_decide (fd = 5) then S_IFIFO + 384 else 0)
    (λ n, n).

(** The array after the characters from index [i] up to [j] (excluded)
    have been copied [n] places to the left. *)
Definition shifted (a : list ascii) (i n j : nat) : list ascii :=
  take (i - n) a ++ drop i (take j a) ++ drop (j - n) a.

(** ** Further members of the observer

    The rest of the file: [reset_fd_table], [report_exec] and
    [EnumerateDirectory], and the vocabulary of the statements about
    them. *)

(** [BxlObserver::reset_fd_table]: the [for] loop over the indices
    [0 .. MAX_FD - 1], each entry set to [empty_str_]. *)
Definition reset_fd_table (env : Env) : M unit :=
  modify (λ o, set_fdTable
                 (foldl (λ t i, <[i := []]> t) (fdTable_ o) (seqZ 0 (MAX_FD env))) o).

(** [BxlObserver::report_exec].  [IsMonitoringChildProcesses()], defined
    in the class header, is the argument [monitoring].  Both calls leave
    their last arguments to the default arguments of the header, which are
    arguments here: [mode0] for the [mode] of the overload with path
    strings, [mode] and [flags] for the overload with a [const char *]
    path. *)
Definition report_exec (env : Env) (monitoring : bool) (mode0 mode flags : Z)
    (syscallName procName file : cstring) : M unit :=
  if monitoring then
    report_access env syscallName ES_EVENT_TYPE_NOTIFY_EXEC procName [] mode0;;
    report_access_pathname env syscallName ES_EVENT_TYPE_NOTIFY_EXEC file mode flags;;
    mret tt
  else mret tt.

(** *** [BxlObserver::EnumerateDirectory] *)

(** One [struct dirent]: [d_name], and whether [d_type == DT_DIR]. *)
Record dirent := { d_name : cstring; is_DT_DIR : bool }.

(** What [real_opendir] and the [readdir] calls on its result answer for
    a path: [None] when [opendir] returns [NULL], else the entries in
    [readdir] order. *)
Abbreviation Listing := (cstring → option (list dirent)).

(** The local state of the function: the stack of directories to
    enumerate (top first) and the output vector. *)
Record Enumeration := {
  directoriesToEnumerate : list cstring;
  filesAndDirectories : list cstring
}.

(** The body of [while ((ent = readdir(dir)) != NULL)] for one entry. *)
Definition enumerate_entry (recursive : bool) (currentDirectory : cstring)
    (e : Enumeration) (ent : dirent) : Enumeration :=
  let fileOrDirectory := d_name ent in
  if bool_decide (fileOrDirectory = c_str ".") || bool_decide (fileOrDirectory = c_str "..")
  then e
  else
    let fullPath := currentDirectory ++ c_str "/" ++ fileOrDirectory in
    {| directoriesToEnumerate :=
         if is_DT_DIR ent && recursive then fullPath :: directoriesToEnumerate e
         else directoriesToEnumerate e;
       filesAndDirectories := filesAndDirectories e ++ [fullPath] |}.

(** The outer [while (!directoriesToEnumerate.empty())], for at most [fuel]
    directories; the answer is the returned [bool] and the vector. *)
Fixpoint enumerate_loop (ls : Listing) (recursive : bool) (fuel : nat) (e : Enumeration)
  : option (bool * list cstring) :=
  match fuel with
  | O => None
  | S fuel =>
      match directoriesToEnumerate e with
      | [] => Some (true, filesAndDirectories e)
      | currentDirectory :: stack =>
          match ls currentDirectory with
          | Some entries =>
              enumerate_loop ls recursive fuel
                (foldl (enumerate_entry recursive currentDirectory)
                   {| directoriesToEnumerate := stack;
                      filesAndDirectories := filesAndDirectories e |} entries)
          | None => Some (false, filesAndDirectories e)
          end
      end
  end.

Definition EnumerateDirectory (ls : Listing) (rootDirectory : cstring) (recursive : bool)
    (fuel : nat) : option (bool * list cstring) :=
  enumerate_loop ls recursive fuel
    {| directoriesToEnumerate := [rootDirectory]; filesAndDirectories := [rootDirectory] |}.

(** ** Vocabulary of the further statements *)

(** The kinds of the first [case] group of [IsCacheHit]. *)
Definition write_class : list es_event_type_t :=
  [ES_EVENT_TYPE_NOTIFY_TRUNCATE; ES_EVENT_TYPE_NOTIFY_SETATTRLIST;
   ES_EVENT_TYPE_NOTIFY_SETEXTATTR; ES_EVENT_TYPE_NOTIFY_DELETEEXTATTR;
   ES_EVENT_TYPE_NOTIFY_SETFLAGS; ES_EVENT_TYPE_NOTIFY_SETOWNER;
   ES_EVENT_TYPE_NOTIFY_SETMODE; ES_EVENT_TYPE_NOTIFY_WRITE;
   ES_EVENT_TYPE_NOTIFY_UTIMES; ES_EVENT_TYPE_NOTIFY_SETTIME;
   ES_EVENT_TYPE_NOTIFY_SETACL].

(** The procfs path [read_path_for_fd] reads for a descriptor. *)
Definition proc_fd_path (fd : Z) : cstring := c_str "/proc/self/fd/" ++ dec fd.

(** The number a reader takes from little-endian bytes. *)
Definition uint_of_bytes (l : list ascii) : Z :=
  foldr (λ c acc, Z.of_N (N_of_ascii c) + 256 * acc) 0 l.

(** The event [report_access] builds. *)
Definition access_event (env : Env) (o : BxlObserver) (eventType : es_event_type_t)
    (reportPath secondPath : cstring) (mode : Z) : IOEvent :=
  {| event_pid := env_pid env; event_cpid := 0; event_ppid := env_ppid env;
     event_type := eventType; event_src_path := reportPath;
     event_dst_path := secondPath;
     event_executable := if bool_decide (eventType = ES_EVENT_TYPE_NOTIFY_EXEC)
                         then reportPath else progFullPath_ o;
     event_mode := if bool_decide (mode = 0) then path_mode env reportPath else mode;
     event_modified := false |}.

(** The listing has no infinite descent below [p]: [opendir] fails on
    [p], or every directory entry of [p] that the function would push is
    again such a path. *)
Inductive well_founded_below (ls : Listing) (p : cstring) : Prop :=
| wf_no_dir : ls p = None → well_founded_below ls p
| wf_dir entries :
    ls p = Some entries →
    (∀ ent, ent ∈ entries → is_DT_DIR ent = true →
            d_name ent ≠ c_str "." → d_name ent ≠ c_str ".." →
            well_founded_below ls (p ++ c_str "/" ++ d_name ent)) →
    well_founded_below ls p.

(** A directory tree for the examples: ["/r"] holds the file ["a"] and the
    directory ["d"], which holds the file ["b"]; [opendir] fails
    elsewhere. *)
Definition sample_listing : Listing := λ p,
  if bool_decide (p = c_str "/r") then
    Some [ {| d_name := c_str "."; is_DT_DIR := true |};
           {| d_name := c_str ".."; is_DT_DIR := true |};
           {| d_name := c_str "a"; is_DT_DIR := false |};
           {| d_name := c_str "d"; is_DT_DIR := true |} ]
  else if bool_decide (p = c_str "/r/d") then
    Some [ {| d_name := c_str "."; is_DT_DIR := true |};
           {| d_name := c_str ".."; is_DT_DIR := true |};
           {| d_name := c_str "b"; is_DT_DIR := false |} ]
  else None.


(** [env] with mediation switched on or off, and with another answer of
    [getcwd]. *)
Definition set_is_enabled (b : bool) (env : Env) : Env :=
  {| symlinks := symlinks env; path_mode := path_mode env; fd_mode := fd_mode env;
     cwd := cwd env; progname := progname env; env_pid := env_pid env;
     env_ppid := env_ppid env; pip_process_id := pip_process_id env;
     pip_id := pip_id env; is_enabled := b; HandleEvent := HandleEvent env;
     real_open_found := real_open_found env; reports_path := reports_path env;
     open_result := open_result env; write_result := write_result env;
     MAX_FD := MAX_FD env; sizeof_report_path := sizeof_report_path env;
     FileOperation_int := FileOperation_int env;
     FileAccessStatus_int := FileAccessStatus_int env;
     RequestedAccess_int := RequestedAccess_int env;
     ReportLevel_int := ReportLevel_int env |}.

Definition set_cwd (c : option cstring) (env : Env) : Env :=
  {| symlinks := symlinks env; path_mode := path_mode env; fd_mode := fd_mode env;
     cwd := c; progname := progname env; env_pid := env_pid env;
     env_ppid := env_ppid env; pip_process_id := pip_process_id env;
     pip_id := pip_id env; is_enabled := is_enabled env; HandleEvent := HandleEvent env;
     real_open_found := real_open_found env; reports_path := reports_path env;
     open_result := open_result env; write_result := write_result env;
     MAX_FD := MAX_FD env; sizeof_report_path := sizeof_report_path env;
     FileOperation_int := FileOperation_int env;
     FileAccessStatus_int := FileAccessStatus_int env;
     RequestedAccess_int := RequestedAccess_int env;
     ReportLevel_int := ReportLevel_int env |}.

(** The buffer of a walk holds an absolute path and the scan pointer is
    inside it, past the first slash. *)
Definition anchored (r : Resolution) : Prop :=
  absolute (fullpath r) ∧ (1 ≤ pFullpath r ≤ length (fullpath r))%nat.

(** The path up to the scan pointer is a link whose target is empty or
    does not fit: buffer and target together exceed [PATH_MAX] bytes. *)
Definition overruns (env : Env) (r : Resolution) : Prop :=
  ∃ target, real_readlink env (take (pFullpath r) (fullpath r)) PATH_MAX = Some target
            ∧ (target = [] ∨ (PATH_MAX < length (fullpath r) + length target + 1)%nat).

(** The full paths [EnumerateDirectory] lists for the entries of the
    directory [currentDirectory], in [readdir] order, and those it pushes
    on the stack. *)
Definition listed_children (currentDirectory : cstring) (entries : list dirent)
  : list cstring :=
  map (λ ent, currentDirectory ++ c_str "/" ++ d_name ent)
    (filter (λ ent, d_name ent ≠ c_str "." ∧ d_name ent ≠ c_str "..") entries).

Definition pushed_children (recursive : bool) (currentDirectory : cstring)
    (entries : list dirent) : list cstring :=
  if recursive
  then listed_children currentDirectory (filter (λ ent, is_DT_DIR ent = true) entries)
  else [].

(** [q] is the root, or the path of an entry other than [.] and [..] of a
    directory that is in [out] and was opened; of the root itself when the
    enumeration is not recursive. *)
Definition entry_of (ls : Listing) (rootDirectory : cstring) (recursive : bool)
    (out : list cstring) (q : cstring) : Prop :=
  q = rootDirectory
  ∨ ∃ dir entries ent,
      dir ∈ out ∧ ls dir = Some entries ∧ ent ∈ entries
      ∧ d_name ent ≠ c_str "." ∧ d_name ent ≠ c_str ".."
      ∧ q = dir ++ c_str "/" ++ d_name ent
      ∧ (recursive = false → dir = rootDirectory).

(** *** The canonical form of the specification, segment by segment

    The second definition of the rewriting, after the words of the
    specification and not after the code: the path is cut at its slashes,
    the segments are taken from left to right against a stack of kept
    segments, and the kept segments are written out again. *)

(** The segments of a path without its first slash: the runs of
    characters between slashes, [cur] being the segment that is read. *)
Fixpoint segments_from (cur l : cstring) : list cstring :=
  match l with
  | [] => [cur]
  | c :: l' =>
      if bool_decide (c = SLASH) then cur :: segments_from [] l'
      else segments_from (cur ++ [c]) l'
  end.

(** One segment that a slash follows: an empty segment and [.] are
    dropped, [..] removes the segment kept last (none at the root), every
    other segment is kept. *)
Definition keep_segment (kept : list cstring) (s : cstring) : list cstring :=
  if bool_decide (s = []) || bool_decide (s = c_str ".") then kept
  else if bool_decide (s = c_str "..") then removelast kept
  else kept ++ [s].

(** The kept segments written out behind the root, a slash after each. *)
Definition rooted (kept : list cstring) : cstring :=
  [SLASH] ++ concat (map (λ s, s ++ [SLASH]) kept).

(** The form of the path whose segments so far are [kept], whose current
    segment starts with [cur] and whose unread part is [rest]: the segments
    that a slash follows go through [keep_segment], the last segment is
    written as it is. *)
Definition lexical_rest (kept : list cstring) (cur rest : cstring) : cstring :=
  rooted (foldl keep_segment kept (removelast (segments_from cur rest)))
  ++ default [] (last (segments_from cur rest)).

Definition lexical_form (path : cstring) : cstring := lexical_rest [] [] (drop 1 path).

(** The text after the last slash of a path. *)
Definition last_segment (path : cstring) : cstring :=
  default [] (last (segments_from [] (drop 1 path))).

(** How a state of the walk over [buf0] stands to the segment view: the
    buffer is the kept segments, the current segment and the unread part
    [rest] of [buf0], the scan pointer is at the start of [rest], and the
    form of the specification is the same for every continuation. *)
Definition tracked (buf0 : cstring) (r : Resolution) : Prop :=
  ∃ pre kept cur rest,
    buf0 = pre ++ rest
    ∧ fullpath r = rooted kept ++ cur ++ rest
    ∧ pFullpath r = length (rooted kept ++ cur)
    ∧ (SLASH ∉ cur) ∧ Forall (λ s, SLASH ∉ s) kept
    ∧ (∀ tail, lexical_rest kept cur tail = lexical_form (pre ++ tail))
    ∧ visited r = ∅ ∧ reported r = [].

(** A path of [PATH_MAX - 1] characters, ["/x/aaa...a"], on a file system
    where ["/x"] is a link to the longer ["/yy"]. *)
Definition long_path : cstring := c_str "/x/" ++ replicate 4092 "a"%char.

Definition long_link_env : Env :=
  sample_env [("/x", "/yy")%string] (λ _, 0) (λ _, 0) (λ n, n).

(** A sequence of [report_access] calls, results dropped. *)
Definition report_access_calls (env : Env)
    (calls : list (cstring * es_event_type_t * cstring * cstring * Z))
    (o : BxlObserver) : BxlObserver :=
  foldl (λ o '(syscallName, eventType, reportPath, secondPath, mode),
           observer_of (report_access env syscallName eventType reportPath secondPath mode o))
    o calls.

(** * Properties *)

Ltac unfold_M :=
  unfold mbind, mret, M_bind, M_ret, gets, modify, emit, _fatal, overrun in *.

(** ** AccessCache *)

Lemma IsCacheHit_returns event p secondPath o :
  ∃ b o', IsCacheHit event p secondPath o = Returned b o'
          ∧ disposed_ o' = disposed_ o ∧ cacheMtx_ o' = cacheMtx_ o
          ∧ (∀ k q, recorded o k q → recorded o' k q).
Proof.
  unfold IsCacheHit, try_lock_for, cache_find, cache_insert, cache_set_insert, unlock.
  unfold_M. simpl.
  destruct (_ || _); [by eauto 10|].
  destruct (cacheMtx_ o) eqn:Hm; simpl; [by eauto 10|].
  destruct (cache_ o !! coalesce event) as [set|] eqn:Hk; simpl.
  - do 2 eexists. split; [reflexivity|]. simpl. repeat split; try done.
    intros k q. unfold recorded. simpl.
    destruct (decide (k = coalesce event)) as [->|Hne].
    + rewrite lookup_insert_eq, Hk. simpl. set_solver.
    + by rewrite lookup_insert_ne.
  - do 2 eexists. split; [reflexivity|]. simpl. repeat split; try done.
    intros k q. unfold recorded. simpl.
    destruct (decide (k = coalesce event)) as [->|Hne].
    + rewrite lookup_insert_eq, Hk. simpl. set_solver.
    + by rewrite lookup_insert_ne.
Qed.

Lemma IsCacheHit_calls_preserve calls o :
  disposed_ (IsCacheHit_calls calls o) = disposed_ o
  ∧ cacheMtx_ (IsCacheHit_calls calls o) = cacheMtx_ o
  ∧ (∀ k q, recorded o k q → recorded (IsCacheHit_calls calls o) k q).
Proof.
  revert o. induction calls as [|[[event p] secondPath] calls IH]; intros o; [done|].
  unfold IsCacheHit_calls in *. simpl.
  destruct (IsCacheHit_returns event p secondPath o) as (b & o' & -> & Hd & Hm & Hr).
  simpl. destruct (IH o') as (Hd' & Hm' & Hr').
  rewrite Hd', Hm', Hd, Hm. auto.
Qed.

Lemma coalesce_never_cached event event' :
  coalesce event' = coalesce event → never_cached event' → never_cached event.
Proof.
  unfold never_cached.
  intros Heq [-> | [-> | ->]]; simpl in Heq; destruct event; simpl in Heq;
    try discriminate; auto.
Qed.

Lemma IsCacheHit_lookup event p o :
  disposed_ o = false → cacheMtx_ o = false → ¬ never_cached event →
  ∃ o', IsCacheHit event p [] o
        = Returned (bool_decide (recorded o (coalesce event) p)) o'
        ∧ recorded o' (coalesce event) p
        ∧ (∀ k q, recorded o' k q ↔ recorded o k q ∨ (k = coalesce event ∧ q = p)).
Proof.
  intros Hd Hm Hnc.
  unfold IsCacheHit.
  assert (Hev : disposed_ o || bool_decide (0 < length (@nil ascii))%nat
                || bool_decide (event = ES_EVENT_TYPE_NOTIFY_FORK)
                || bool_decide (event = ES_EVENT_TYPE_NOTIFY_EXEC)
                || bool_decide (event = ES_EVENT_TYPE_NOTIFY_EXIT) = false).
  { rewrite Hd. unfold never_cached in Hnc. simpl length.
    repeat case_bool_decide; simpl; try tauto; lia. }
  unfold try_lock_for, cache_find, cache_insert, cache_set_insert, unlock.
  unfold_M. rewrite Hev, Hm. simpl.
  remember (bool_decide (recorded o (coalesce event) p)) as b eqn:Hb.
  assert (Hb' : b = true ↔ recorded o (coalesce event) p).
  { subst b. apply bool_decide_eq_true. }
  clear Hb. unfold recorded in Hb'.
  destruct (cache_ o !! coalesce event) as [set|] eqn:Hk; simpl in *.
  - eexists. split.
    { f_equal. destruct b.
      - rewrite bool_decide_eq_false_2; [done|]. intros Hn. by apply Hn, Hb'.
      - rewrite bool_decide_eq_true_2; [done|]. intros Hin. by apply Hb' in Hin. }
    clear Hb'. unfold recorded. simpl. split.
    + rewrite lookup_insert_eq. simpl. set_solver.
    + intros k q. destruct (decide (k = coalesce event)) as [->|Hne].
      * rewrite lookup_insert_eq, Hk. simpl. set_solver.
      * rewrite lookup_insert_ne by done. naive_solver.
  - eexists. split.
    { f_equal. destruct b; [|done]. exfalso.
      apply (not_elem_of_empty (C:=gset cstring) p), Hb'. done. }
    clear Hb'. unfold recorded. simpl. split.
    + rewrite lookup_insert_eq. simpl. set_solver.
    + intros k q. destruct (decide (k = coalesce event)) as [->|Hne].
      * rewrite lookup_insert_eq, Hk. simpl. set_solver.
      * rewrite lookup_insert_ne by done. naive_solver.
Qed.

(** C1 (evaluation of the code at the failing input).  The claim says that
    the metadata and attribute reads are looked up under the one key
    [ES_EVENT_TYPE_NOTIFY_STAT].  In the code the read-class case group has
    no [break], so the key of each read-class kind is the kind itself, and a
    get-attributes event followed by a stat event on the same path is not
    recognised as a duplicate: both calls answer [false]. *)
Theorem IsCacheHit_read_class_not_shared :
  Forall (λ event, coalesce event = event)
    [ES_EVENT_TYPE_NOTIFY_GETATTRLIST; ES_EVENT_TYPE_NOTIFY_GETEXTATTR;
     ES_EVENT_TYPE_NOTIFY_LISTEXTATTR; ES_EVENT_TYPE_NOTIFY_ACCESS;
     ES_EVENT_TYPE_NOTIFY_STAT]
  ∧ ∃ o1 o2,
      IsCacheHit ES_EVENT_TYPE_NOTIFY_GETATTRLIST (c_str "/p") [] fresh_observer
        = Returned false o1
      ∧ IsCacheHit ES_EVENT_TYPE_NOTIFY_STAT (c_str "/p") [] o1 = Returned false o2
      ∧ bool_decide (recorded o1 ES_EVENT_TYPE_NOTIFY_STAT (c_str "/p")) = false.
Proof.
  split.
  - repeat constructor.
  - do 2 eexists. split; [|split].
    + vm_compute. reflexivity.
    + vm_compute. reflexivity.
    + vm_compute. reflexivity.
Qed.

(** C5.  [IsCacheHit] answers [false] and leaves the cache as it was when
    the observer is disposed, the second path is not empty, the kind is
    fork, exec or exit, or the mutex is not acquired within the timeout.  In
    all but the last case the observer is untouched and nothing is added to
    the trace; with the mutex held, the failed [try_lock_for] is the only
    call made.  Once disposed neither the cache nor its mutex is reached. *)
Theorem IsCacheHit_bypass (event : es_event_type_t) (p secondPath : cstring)
    (o : BxlObserver) :
  disposed_ o = true ∨ secondPath ≠ [] ∨ never_cached event ∨ cacheMtx_ o = true →
  ∃ o', IsCacheHit event p secondPath o = Returned false o'
        ∧ cache_ o' = cache_ o
        ∧ (o' = o ∨ o' = set_trace (trace_ o ++ [MutexTryLock false]) o)
        ∧ (disposed_ o = true ∨ secondPath ≠ [] ∨ never_cached event → o' = o).
Proof.
  intros H. unfold IsCacheHit.
  destruct (disposed_ o || bool_decide (0 < length secondPath)%nat
            || bool_decide (event = ES_EVENT_TYPE_NOTIFY_FORK)
            || bool_decide (event = ES_EVENT_TYPE_NOTIFY_EXEC)
            || bool_decide (event = ES_EVENT_TYPE_NOTIFY_EXIT)) eqn:Hc.
  - unfold_M. rewrite Hc. eauto 10.
  - assert (Hno : ¬ (disposed_ o = true ∨ secondPath ≠ [] ∨ never_cached event)).
    { unfold never_cached. repeat (apply orb_false_iff in Hc as [Hc ?]).
      repeat case_bool_decide; try discriminate.
      destruct secondPath; [|simpl in *; lia].
      rewrite Hc. intros [?|[?|[?|[?|?]]]]; congruence. }
    destruct H as [H|[H|[H|Hm]]]; try tauto.
    unfold try_lock_for. unfold_M. rewrite Hc, Hm. simpl.
    eexists. split; [reflexivity|]. simpl. split; [done|]. split; [by right | tauto].
Qed.

Lemma IsCacheHit_bypass_witness :
  ∃ o', IsCacheHit ES_EVENT_TYPE_NOTIFY_STAT (c_str "/p") [] disposed_observer
          = Returned false o'
        ∧ cache_ o' = cache_ disposed_observer
        ∧ (o' = disposed_observer
           ∨ o' = set_trace (trace_ disposed_observer ++ [MutexTryLock false]) disposed_observer)
        ∧ (disposed_ disposed_observer = true ∨ @nil ascii ≠ []
           ∨ never_cached ES_EVENT_TYPE_NOTIFY_STAT → o' = disposed_observer).
Proof.
  apply (IsCacheHit_bypass ES_EVENT_TYPE_NOTIFY_STAT (c_str "/p") [] disposed_observer).
  left. reflexivity.
Defined.

(** C6.  On an observer that is not disposed and whose mutex is free, a
    call for a kind that is cached answers whether the pair of the
    coalesced key and the path is already in the cache, and adds it (nothing
    else is added).  So the first call for a pair answers [false], and after
    it every call for the same key and path answers [true], whatever
    [IsCacheHit] calls came in between. *)
Theorem IsCacheHit_duplicate (event event' : es_event_type_t) (p : cstring)
    (o : BxlObserver) (calls : list (es_event_type_t * cstring * cstring)) :
  disposed_ o = false → cacheMtx_ o = false → ¬ never_cached event →
  coalesce event' = coalesce event →
  ∃ o1, IsCacheHit event p [] o
          = Returned (bool_decide (recorded o (coalesce event) p)) o1
        ∧ (∀ k q, recorded o1 k q ↔ recorded o k q ∨ (k = coalesce event ∧ q = p))
        ∧ ∃ o2, IsCacheHit event' p [] (IsCacheHit_calls calls o1) = Returned true o2.
Proof.
  intros Hd Hm Hnc Hkey.
  destruct (IsCacheHit_lookup event p o Hd Hm Hnc) as (o1 & Hcall & Hrec & Hiff).
  destruct (IsCacheHit_returns event p [] o) as (b & o1' & Hcall' & Hd1 & Hm1 & _).
  rewrite Hcall in Hcall'. injection Hcall' as _ <-.
  exists o1. split; [done|]. split; [done|].
  destruct (IsCacheHit_calls_preserve calls o1) as (Hd2 & Hm2 & Hr2).
  assert (Hnc' : ¬ never_cached event').
  { intros Hn. by apply Hnc, (coalesce_never_cached event event'). }
  destruct (IsCacheHit_lookup event' p (IsCacheHit_calls calls o1)) as (o2 & Hcall2 & _);
    [congruence | congruence | done |].
  exists o2. rewrite Hcall2. f_equal. apply bool_decide_eq_true_2.
  rewrite Hkey. by apply Hr2.
Qed.

Lemma IsCacheHit_duplicate_witness :
  ∃ o1, IsCacheHit ES_EVENT_TYPE_NOTIFY_STAT (c_str "/p") [] fresh_observer
          = Returned (bool_decide (recorded fresh_observer
                        (coalesce ES_EVENT_TYPE_NOTIFY_STAT) (c_str "/p"))) o1
        ∧ (∀ k q, recorded o1 k q
                  ↔ recorded fresh_observer k q
                    ∨ (k = coalesce ES_EVENT_TYPE_NOTIFY_STAT ∧ q = c_str "/p"))
        ∧ ∃ o2, IsCacheHit ES_EVENT_TYPE_NOTIFY_STAT (c_str "/p") []
                  (IsCacheHit_calls [] o1) = Returned true o2.
Proof.
  apply (IsCacheHit_duplicate ES_EVENT_TYPE_NOTIFY_STAT ES_EVENT_TYPE_NOTIFY_STAT
           (c_str "/p") fresh_observer []); try reflexivity.
  unfold never_cached. intros [H|[H|H]]; discriminate H.
Defined.

(** ** ReportChannel *)

Lemma length_uint_bytes n : length (uint_bytes n) = 4%nat.
Proof. reflexivity. Qed.

(** The first bytes of the buffer [SendReport] passes to [Send], when the
    text fits: the prefix and the whole text. *)
Lemma SendReport_buffer (a : list ascii) (text : cstring) (size : Z) :
  (4 ≤ length a)%nat → Z.of_nat (length text) ≤ size - 1 →
  take (Z.to_nat (Z.of_nat (length text) + 4))
       (write_at (snprintf a 4 size text).1 0 (uint_bytes (Z.of_nat (length text))))
  = uint_bytes (Z.of_nat (length text)) ++ text.
Proof.
  intros Ha Hfit. unfold snprintf, write_at. cbn [fst].
  rewrite take_0, app_nil_l, Nat.add_0_l, length_uint_bytes.
  rewrite (take_ge text) by lia.
  rewrite drop_app_length' by (rewrite length_take; lia).
  replace (Z.to_nat (Z.of_nat (length text) + 4))
    with (length (uint_bytes (Z.of_nat (length text)) ++ text))
    by (rewrite length_app, length_uint_bytes; lia).
  rewrite <- (app_assoc text), (app_assoc (uint_bytes _)).
  by rewrite take_app_length.
Qed.

Lemma SendReport_unfold env report o :
  operation report ≠ kOpProcessTreeCompleted →
  let text := format_report env report in
  let L := Z.of_nat (length text) in
  SendReport env report o =
    if bool_decide (L = PIPE_BUF - 4) then Fatal Fatal_message_truncated o
    else Send env (write_at (snprintf (replicate (Z.to_nat PIPE_BUF) NUL) 4
                               (PIPE_BUF - 4) text).1 0 (uint_bytes L))
              (L + 4) o.
Proof.
  intros Hop text L. unfold SendReport.
  rewrite bool_decide_eq_false_2 by done.
  unfold snprintf. cbn [fst]. fold text. fold L.
  change (Z.to_nat 4) with 4%nat.
  destruct (bool_decide (L = PIPE_BUF - 4)); reflexivity.
Qed.

(** The trace [Send] leaves, case by case. *)
Lemma Send_trace env buf bufsiz o :
  let opened := ChannelOpen (reports_path env) (open_result env) in
  let wrote := ChannelWrite (open_result env) (take (Z.to_nat bufsiz) buf)
                 (write_result env (open_result env) bufsiz) in
  let o' := observer_of (Send env buf bufsiz o) in
  trace_ o' = trace_ o
  ∨ trace_ o' = trace_ o ++ [opened]
  ∨ (bufsiz ≤ PIPE_BUF ∧ trace_ o' = trace_ o ++ [opened; wrote])
  ∨ (bufsiz ≤ PIPE_BUF
     ∧ trace_ o' = trace_ o ++ [opened; wrote; ChannelClose (open_result env)]).
Proof.
  unfold Send, reset_fd_table_entry. unfold_M.
  destruct (real_open_found env); simpl; [|by left].
  case_bool_decide as Hbig; simpl; [by left|].
  case_bool_decide as Hfd; simpl; [by right; left|].
  case_bool_decide as Hshort; simpl.
  - right; right; left. split; [lia|]. by rewrite <- app_assoc.
  - right; right; right. split; [lia|].
    destruct (_ && _); simpl; by rewrite <- !app_assoc.
Qed.

(** When the text fits and the channel takes all bytes, the message goes
    out whole in one write. *)
Lemma SendReport_sent env report o :
  let L := Z.of_nat (length (format_report env report)) in
  operation report ≠ kOpProcessTreeCompleted →
  real_open_found env = true → L < PIPE_BUF - 4 → open_result env ≠ -1 →
  write_result env (open_result env) (L + 4) = L + 4 →
  ∃ o', SendReport env report o = Returned true o'
        ∧ trace_ o' = trace_ o ++
            [ChannelOpen (reports_path env) (open_result env);
             ChannelWrite (open_result env) (whole_message env report) (L + 4);
             ChannelClose (open_result env)].
Proof.
  intros L Hop Hopen Hfit Hfd Hw. subst L.
  rewrite SendReport_unfold by done.
  rewrite bool_decide_eq_false_2 by lia.
  unfold Send, reset_fd_table_entry. unfold_M. rewrite Hopen. simpl.
  rewrite bool_decide_eq_false_2 by lia.
  rewrite bool_decide_eq_false_2 by done.
  rewrite Hw.
  rewrite bool_decide_eq_false_2.
  2:{ unfold to_size_t, PIPE_BUF in *. rewrite Z.mod_small; lia. }
  unfold whole_message.
  rewrite <- (SendReport_buffer (replicate (Z.to_nat PIPE_BUF) NUL)
                (format_report env report) (PIPE_BUF - 4)).
  2:{ rewrite length_replicate. unfold PIPE_BUF. lia. }
  2:{ lia. }
  destruct (_ && _); simpl; eexists; (split; [reflexivity|]); simpl;
    by rewrite <- !app_assoc.
Qed.

(** C4, as amended.  For every report that [SendReport] serializes, that
    is, every report whose operation is not [kOpProcessTreeCompleted]:
    (1) when the text does not fit the buffer behind the length prefix (and
    every text longer than [PIPE_BUF] is such a text) the call ends in
    [_fatal] before anything reaches the channel, and [Send] itself ends in
    [_fatal] for every size above [PIPE_BUF].  (2) Whatever the report and
    the outcome, the bytes [SendReport] passes to a channel write are the
    length prefix and the whole text: a cut message is never written.
    (3,4) A write that completes with fewer bytes than requested ends in
    the [_fatal] of [Send]; there is no second write.  (5) When the text
    fits and the channel takes all bytes, the call returns [true] after
    exactly one write. *)
Theorem SendReport_atomic_or_fatal :
  (∀ env report o,
     operation report ≠ kOpProcessTreeCompleted →
     PIPE_BUF - 4 ≤ Z.of_nat (length (format_report env report)) →
     ∃ e, SendReport env report o = Fatal e o)
  ∧ (∀ env buf bufsiz o,
       PIPE_BUF < bufsiz → ∃ e, Send env buf bufsiz o = Fatal e o)
  ∧ (∀ env report o fd bytes n,
       ChannelWrite fd bytes n ∈ trace_ (observer_of (SendReport env report o)) →
       ChannelWrite fd bytes n ∈ trace_ o ∨ bytes = whole_message env report)
  ∧ (∀ env buf bufsiz o,
       real_open_found env = true → bufsiz ≤ PIPE_BUF → open_result env ≠ -1 →
       0 ≤ write_result env (open_result env) bufsiz < bufsiz →
       ∃ o', Send env buf bufsiz o = Fatal Fatal_wrote_only o'
             ∧ trace_ o' = trace_ o ++
                 [ChannelOpen (reports_path env) (open_result env);
                  ChannelWrite (open_result env) (take (Z.to_nat bufsiz) buf)
                    (write_result env (open_result env) bufsiz)])
  ∧ (∀ env report o,
       let L := Z.of_nat (length (format_report env report)) in
       operation report ≠ kOpProcessTreeCompleted →
       real_open_found env = true → L < PIPE_BUF - 4 → open_result env ≠ -1 →
       0 ≤ write_result env (open_result env) (L + 4) < L + 4 →
       ∃ o', SendReport env report o = Fatal Fatal_wrote_only o')
  ∧ (∀ env report o,
       let L := Z.of_nat (length (format_report env report)) in
       operation report ≠ kOpProcessTreeCompleted →
       real_open_found env = true → L < PIPE_BUF - 4 → open_result env ≠ -1 →
       write_result env (open_result env) (L + 4) = L + 4 →
       ∃ o', SendReport env report o = Returned true o'
             ∧ trace_ o' = trace_ o ++
                 [ChannelOpen (reports_path env) (open_result env);
                  ChannelWrite (open_result env) (whole_message env report) (L + 4);
                  ChannelClose (open_result env)]).
Proof.
  assert (Hshort : ∀ env buf bufsiz o,
       real_open_found env = true → bufsiz ≤ PIPE_BUF → open_result env ≠ -1 →
       0 ≤ write_result env (open_result env) bufsiz < bufsiz →
       ∃ o', Send env buf bufsiz o = Fatal Fatal_wrote_only o'
             ∧ trace_ o' = trace_ o ++
                 [ChannelOpen (reports_path env) (open_result env);
                  ChannelWrite (open_result env) (take (Z.to_nat bufsiz) buf)
                    (write_result env (open_result env) bufsiz)]).
  { intros env buf bufsiz o Hopen Hsz Hfd Hw.
    unfold Send. unfold_M. rewrite Hopen. simpl.
    rewrite bool_decide_eq_false_2 by lia.
    rewrite bool_decide_eq_false_2 by done.
    rewrite bool_decide_eq_true_2.
    - eexists. split; [reflexivity|]. simpl. by rewrite <- app_assoc.
    - unfold to_size_t, PIPE_BUF in *. rewrite Z.mod_small; lia. }
  assert (Hbig : ∀ env buf bufsiz o,
       PIPE_BUF < bufsiz → ∃ e, Send env buf bufsiz o = Fatal e o).
  { intros env buf bufsiz o Hsz.
    unfold Send. destruct (real_open_found env); simpl; [|by eauto].
    rewrite bool_decide_eq_true_2 by lia. by eauto. }
  split; [|split; [exact Hbig|split; [|split; [exact Hshort|split]]]].
  - intros env report o Hop Hlen.
    rewrite SendReport_unfold by done.
    case_bool_decide; [by eauto|].
    apply Hbig. lia.
  - intros env report o fd bytes n Hin.
    destruct (decide (operation report = kOpProcessTreeCompleted)) as [Hop|Hop].
    { unfold SendReport in Hin. rewrite bool_decide_eq_true_2 in Hin by done.
      by left. }
    rewrite SendReport_unfold in Hin by done.
    case_bool_decide as Hcut; [by left|].
    match type of Hin with context [Send env ?b ?z o] =>
      pose proof (Send_trace env b z o) as Ht; cbv zeta in Ht;
      set (buf := b) in *; set (o' := observer_of (Send env b z o)) in * end.
    destruct Ht as [Ht|[Ht|[[Hsz Ht]|[Hsz Ht]]]]; rewrite Ht in Hin;
      clear Ht; [by left| | |].
    + apply elem_of_app in Hin as [Hin|Hin]; [by left|].
      apply list_elem_of_singleton in Hin. discriminate Hin.
    + apply elem_of_app in Hin as [Hin|Hin]; [by left|]. right.
      apply elem_of_cons in Hin as [Hin|Hin]; [discriminate Hin|].
      apply list_elem_of_singleton in Hin. injection Hin as _ -> _.
      subst buf. unfold whole_message. apply SendReport_buffer.
      * rewrite length_replicate. unfold PIPE_BUF. lia.
      * lia.
    + apply elem_of_app in Hin as [Hin|Hin]; [by left|]. right.
      apply elem_of_cons in Hin as [Hin|Hin]; [discriminate Hin|].
      apply elem_of_cons in Hin as [Hin|Hin].
      2:{ apply list_elem_of_singleton in Hin. discriminate Hin. }
      injection Hin as _ -> _.
      subst buf. unfold whole_message. apply SendReport_buffer.
      * rewrite length_replicate. unfold PIPE_BUF. lia.
      * lia.
  - intros env report o L Hop Hopen Hfit Hfd Hw. subst L.
    rewrite SendReport_unfold by done.
    rewrite bool_decide_eq_false_2 by lia.
    destruct (Hshort env (write_at (snprintf (replicate (Z.to_nat PIPE_BUF) NUL) 4
                (PIPE_BUF - 4) (format_report env report)).1 0
                (uint_bytes (Z.of_nat (length (format_report env report)))))
                (Z.of_nat (length (format_report env report)) + 4) o)
      as (o' & -> & _); try done; [lia | by eauto].
  - intros env report o L Hop Hopen Hfit Hfd Hw. by apply SendReport_sent.
Qed.

Lemma SendReport_atomic_or_fatal_witness :
  (∃ e, SendReport (sample_env [] (λ _, 0) (λ _, 0) (λ n, n))
          (sample_report (kOpOther 9) (replicate 4090 "a"%char)) fresh_observer
        = Fatal e fresh_observer)
  ∧ (∃ o', SendReport (sample_env [] (λ _, 0) (λ _, 0) (λ n, n - 1))
             (sample_report (kOpOther 9) (c_str "/p")) fresh_observer
           = Fatal Fatal_wrote_only o').
Proof.
  destruct SendReport_atomic_or_fatal as (Hbig & _ & _ & _ & Hshort & _). split.
  - apply Hbig; [discriminate|]. apply Z.leb_le. vm_compute. reflexivity.
  - apply Hshort; try discriminate; try reflexivity.
    split; [apply Z.leb_le | apply Z.ltb_lt]; vm_compute; reflexivity.
Defined.

(** C4 as stated fails for a report of operation
    [kOpProcessTreeCompleted]: its text would be longer than [PIPE_BUF], yet
    [SendReport] returns [true] (nothing is written). *)
Lemma SendReport_completed_oversize_returns :
  PIPE_BUF < Z.of_nat (length (format_report plain_env
                (sample_report kOpProcessTreeCompleted (replicate 4090 "a"%char))))
  ∧ SendReport plain_env
      (sample_report kOpProcessTreeCompleted (replicate 4090 "a"%char)) fresh_observer
    = Returned true fresh_observer.
Proof. split; [apply Z.ltb_lt|]; vm_compute; reflexivity. Qed.

(** C10.  A report whose operation is [kOpProcessTreeCompleted] makes
    [SendReport] return [true] at once: the observer, its trace included, is
    as before, so nothing was formatted for the channel, and no open, write
    or close took place. *)
Theorem SendReport_process_tree_completed (env : Env) (report : AccessReport)
    (o : BxlObserver) :
  operation report = kOpProcessTreeCompleted →
  SendReport env report o = Returned true o.
Proof.
  intros Hop. unfold SendReport. by rewrite bool_decide_eq_true_2.
Qed.

Lemma SendReport_process_tree_completed_witness :
  SendReport (sample_env [] (λ _, 0) (λ _, 0) (λ n, n))
    (sample_report kOpProcessTreeCompleted (c_str "/p")) fresh_observer
  = Returned true fresh_observer.
Proof.
  apply (SendReport_process_tree_completed
           (sample_env [] (λ _, 0) (λ _, 0) (λ n, n))
           (sample_report kOpProcessTreeCompleted (c_str "/p")) fresh_observer).
  reflexivity.
Defined.

(** ** PathResolver *)

Lemma char_at_lt (buf : cstring) (i : nat) :
  char_at buf i ≠ NUL → (i < length buf)%nat.
Proof.
  intros H. destruct (decide (i < length buf)%nat) as [|Hge]; [done|].
  exfalso. apply H. unfold char_at. apply nth_overflow. lia.
Qed.

Lemma char_at_take (buf : cstring) (n i : nat) :
  (i < n)%nat → char_at (take n buf) i = char_at buf i.
Proof.
  intros H. unfold char_at. rewrite !nth_lookup, lookup_take_lt by done. done.
Qed.

Lemma char_at_app_l (l1 l2 : cstring) (i : nat) :
  (i < length l1)%nat → char_at (l1 ++ l2) i = char_at l1 i.
Proof. intros H. unfold char_at. by apply app_nth1. Qed.

Lemma take_S_char_at (buf : cstring) (n : nat) :
  (n < length buf)%nat → take (S n) buf = take n buf ++ [char_at buf n].
Proof.
  intros H. apply take_S_r. unfold char_at.
  apply lookup_lt_is_Some in H as [x Hx]. rewrite Hx. f_equal.
  symmetry. by apply nth_lookup_Some.
Qed.

Lemma SLASH_not_NUL : SLASH ≠ NUL.
Proof. discriminate. Qed.

Lemma find_prev_slash_spec (buf : cstring) (i j : nat) :
  find_prev_slash buf i = Some j →
  (j < i)%nat ∧ char_at buf j = SLASH
  ∧ ∀ k, (j < k < i)%nat → char_at buf k ≠ SLASH.
Proof.
  induction i as [|i IH]; simpl; [discriminate|].
  case_bool_decide as Hc.
  - intros [= <-]. repeat split; [lia | done | intros k Hk; lia].
  - intros Hf. destruct (IH Hf) as (Hlt & Hj & Hbetween).
    repeat split; [lia | done |].
    intros k Hk. destruct (decide (k = i)) as [->|]; [done|]. apply Hbetween. lia.
Qed.

Lemma find_prev_slash_is_Some (buf : cstring) (i : nat) :
  char_at buf 0 = SLASH → (0 < i)%nat → is_Some (find_prev_slash buf i).
Proof.
  intros H0. induction i as [|i IH]; [lia|]. intros _. simpl.
  case_bool_decide; [by eexists|].
  apply IH. destruct i; [done | lia].
Qed.

Lemma length_shift_left (buf : cstring) (i n : nat) :
  (n ≤ i ≤ length buf)%nat → length (shift_left buf i n) = (length buf - n)%nat.
Proof.
  intros H. unfold shift_left. rewrite length_app, length_take, length_drop. lia.
Qed.

(** *** The loop of [shift_left] *)

Lemma char_at_shifted a i n j :
  (1 ≤ n ≤ i)%nat → (i ≤ j < length a)%nat →
  char_at (shifted a i n j) j = char_at a j.
Proof.
  intros Hn Hj. unfold shifted, char_at. rewrite !nth_lookup.
  rewrite lookup_app_r; rewrite length_take_le by lia; [|lia].
  rewrite lookup_app_r; rewrite length_drop, length_take_le by lia; [|lia].
  rewrite lookup_drop. do 2 f_equal. lia.
Qed.

Lemma shifted_step a i n j :
  (1 ≤ n ≤ i)%nat → (i ≤ j < length a)%nat →
  <[(j - n)%nat := char_at a j]> (shifted a i n j) = shifted a i n (S j).
Proof.
  intros Hn Hj. unfold shifted.
  replace (j - n)%nat with (length (take (i - n) a) + (length (drop i (take j a)) + 0))%nat
    at 1 by (rewrite length_drop, !length_take_le by lia; lia).
  rewrite !insert_app_r.
  rewrite (take_S_char_at a j) by lia.
  rewrite drop_app_le by (rewrite length_take_le by lia; lia).
  rewrite <- !app_assoc. do 2 f_equal. simpl.
  destruct (drop (j - n) a) as [|x t] eqn:Hd.
  { apply (f_equal length) in Hd. rewrite length_drop in Hd. simpl in Hd. lia. }
  simpl. f_equal.
  replace (S j - n)%nat with ((j - n) + 1)%nat by lia.
  by rewrite <- drop_drop, Hd.
Qed.

Lemma shift_left_loop_shifted a i n e fuel j :
  (1 ≤ n ≤ i)%nat → (e < length a)%nat → char_at a e = NUL →
  (∀ k, (i ≤ k < e)%nat → char_at a k ≠ NUL) →
  (i ≤ j ≤ e)%nat → (e - j < fuel)%nat →
  shift_left_loop (shifted a i n j) j n fuel = shifted a i n (S e).
Proof.
  intros Hn He Hnul Hstr. revert j.
  induction fuel as [|fuel IH]; intros j Hj Hfuel; [lia|]. simpl.
  rewrite char_at_shifted, shifted_step by lia.
  case_bool_decide as Hc.
  - destruct (decide (j = e)) as [->|]; [done|]. exfalso. apply (Hstr j); [lia|done].
  - destruct (decide (j = e)) as [->|]; [done|]. apply IH; lia.
Qed.

(** The loop on an array that holds the C string [buf] yields an array that
    holds [shift_left buf i n]. *)
Lemma shift_left_loop_c_string (buf rest : cstring) (i n : nat) :
  NUL ∉ buf → (1 ≤ n ≤ i)%nat → (i ≤ length buf)%nat →
  ∃ rest', shift_left_loop (buf ++ NUL :: rest) i n (length (buf ++ NUL :: rest))
           = shift_left buf i n ++ NUL :: rest'
           ∧ length (shift_left buf i n ++ NUL :: rest') = length (buf ++ NUL :: rest).
Proof.
  intros Hnul Hn Hi. set (a := buf ++ NUL :: rest).
  assert (Hlen : length a = S (length buf + length rest)).
  { subst a. rewrite length_app. simpl. lia. }
  assert (Hstart : shifted a i n i = a).
  { unfold shifted. rewrite drop_ge by (rewrite length_take; lia).
    by rewrite app_nil_l, take_drop. }
  pose proof (shift_left_loop_shifted a i n (length buf) (length a) i) as Hloop.
  rewrite Hstart in Hloop. rewrite Hloop; try lia.
  - exists (drop (S (length buf) - n) a). unfold shifted, shift_left.
    assert (Ht : take (S (length buf)) a = buf ++ [NUL]).
    { subst a. replace (buf ++ NUL :: rest) with ((buf ++ [NUL]) ++ rest)
        by (by rewrite <- app_assoc).
      apply take_app_length'. rewrite length_app. simpl. lia. }
    rewrite Ht. replace (take (i - n) a) with (take (i - n) buf)
      by (subst a; by rewrite take_app_le by lia).
    rewrite drop_app_le by lia. rewrite <- !app_assoc. split; [done|].
    rewrite !length_app, length_take, !length_drop. simpl. rewrite length_drop. lia.
  - subst a. unfold char_at. rewrite app_nth2 by lia. by rewrite Nat.sub_diag.
  - intros k Hk Hc. apply Hnul. rewrite <- Hc. subst a. unfold char_at.
    rewrite app_nth1 by lia. apply list_elem_of_In, nth_In. lia.
Qed.

(** *** Termination *)

(** Every iteration that goes on to a next one lowers [potential], as long
    as the scan pointer is inside the string. *)
Lemma resolve_step_decreases env follow r r' :
  (pFullpath r ≤ length (fullpath r))%nat →
  resolve_step env follow r = Continue r' →
  (pFullpath r' ≤ length (fullpath r'))%nat ∧ (potential env r' < potential env r)%nat.
Proof.
  intros Hp. unfold resolve_step, potential, unvisited.
  destruct (collapse r) as [s|] eqn:Hc.
  - (* a dot segment or an empty segment is removed *)
    intros ->. unfold collapse in Hc.
    case_bool_decide as Hch; [|discriminate].
    assert (Hlt : (pFullpath r < length (fullpath r))%nat).
    { apply char_at_lt. rewrite Hch. apply SLASH_not_NUL. }
    destruct (find_prev_slash (fullpath r) (pFullpath r)) as [prev|] eqn:Hprev;
      [|discriminate].
    apply find_prev_slash_spec in Hprev as (Hprev & _ & _).
    case_bool_decide as H0.
    { injection Hc as <-. simpl. rewrite length_shift_left by lia. lia. }
    destruct (_ && _) eqn:H1 in Hc.
    { injection Hc as <-. simpl. rewrite length_shift_left by lia.
      apply andb_true_iff in H1 as [H1 _]. apply bool_decide_eq_true in H1. lia. }
    destruct (_ && _) eqn:H2 in Hc; [|discriminate].
    destruct (if bool_decide (0 < prev)%nat then _ else _) as [prev'|] eqn:Hprev';
      [|discriminate].
    injection Hc as <-. simpl.
    assert (prev' ≤ prev)%nat.
    { case_bool_decide; [|by injection Hprev' as <-].
      apply find_prev_slash_spec in Hprev'. lia. }
    rewrite length_shift_left by lia. lia.
  - (* the pointer advances, or a link is substituted *)
    unfold follow_link.
    destruct (if _ || _ then _ else _) as [target|] eqn:Hlink.
    + assert (Hdom : take (pFullpath r) (fullpath r) ∈ dom (symlinks env)).
      { destruct (_ || _); [|discriminate]. unfold real_readlink in Hlink.
        apply elem_of_dom. destruct (symlinks env !! _); [by eexists|discriminate]. }
      clear Hlink.
      case_bool_decide; [by intros [=]|].
      case_bool_decide as Hvis; [by intros [=]|].
      case_bool_decide; [by intros [=]|].
      case_bool_decide as Hfit; [by intros [=]|].
      set (K := (2 * PATH_MAX + 1)%nat).
      set (cur := take (pFullpath r) (fullpath r)) in *.
      assert (Hsz : (size (dom (symlinks env) ∖ ({[cur]} ∪ visited r)) * K + K
                     ≤ size (dom (symlinks env) ∖ visited r) * K)%nat).
      { assert (size (dom (symlinks env) ∖ ({[cur]} ∪ visited r))
                < size (dom (symlinks env) ∖ visited r))%nat; [|nia].
        apply subset_size. set_solver. }
      match goal with |- context [target ++ ?rest] => set (tail := rest) in * end.
      case_bool_decide as Habs.
      * intros [= <-]. simpl. rewrite length_app.
        assert (0 < length (target ++ tail))%nat as Hne.
        { apply char_at_lt. rewrite Habs. apply SLASH_not_NUL. }
        rewrite length_app in Hne. subst K. lia.
      * destruct (find_prev_slash (fullpath r) (pFullpath r)) as [q|] eqn:Hq;
          [|by intros [=]].
        apply find_prev_slash_spec in Hq as (Hq & _ & _).
        case_bool_decide; [by intros [=]|].
        intros [= <-]. simpl. rewrite !length_app, length_take in *. subst K. lia.
    + clear Hlink. case_bool_decide as Hnul; [by intros [=]|].
      intros [= <-]. simpl. apply char_at_lt in Hnul. lia.
Qed.

(** The loop ends within any number of iterations above [potential]. *)
Lemma resolve_loop_enough env follow fuel r :
  (pFullpath r ≤ length (fullpath r))%nat → (potential env r < fuel)%nat →
  ∃ s, resolve_loop env follow fuel r = Some s ∧ is_continue s = false.
Proof.
  revert r. induction fuel as [|fuel IH]; intros r Hp Hfuel; [lia|]. simpl.
  destruct (resolve_step env follow r) as [r'| |] eqn:Hstep; [|by eauto..].
  destruct (resolve_step_decreases env follow r r' Hp Hstep) as [Hp' Hlt].
  apply IH; [done | lia].
Qed.

(** More fuel does not change an answer. *)
Lemma resolve_loop_more env follow fuel extra r s :
  resolve_loop env follow fuel r = Some s →
  resolve_loop env follow (fuel + extra) r = Some s.
Proof.
  revert r. induction fuel as [|fuel IH]; intros r; simpl; [discriminate|].
  destruct (resolve_step env follow r); auto.
Qed.

Lemma resolve_start_potential env buf :
  char_at buf 0 = SLASH →
  (pFullpath (resolve_start buf) ≤ length (fullpath (resolve_start buf)))%nat
  ∧ (potential env (resolve_start buf) < resolve_fuel env buf)%nat.
Proof.
  intros Habs.
  assert (0 < length buf)%nat.
  { apply char_at_lt. rewrite Habs. apply SLASH_not_NUL. }
  unfold potential, unvisited, resolve_fuel, resolve_start. simpl.
  rewrite difference_empty_L, size_dom. lia.
Qed.

(** A property kept by every iteration holds at the end of the loop. *)
Lemma resolve_loop_invariant (P : Resolution → Prop) env follow :
  (∀ r, P r → P (final (resolve_step env follow r))) →
  ∀ fuel r s, P r → resolve_loop env follow fuel r = Some s → P (final s).
Proof.
  intros Hstep. induction fuel as [|fuel IH]; intros r s HP; simpl; [discriminate|].
  pose proof (Hstep r HP) as HP'.
  destruct (resolve_step env follow r) as [r'| |]; simpl in HP'.
  - by apply IH.
  - by intros [= <-].
  - by intros [= <-].
Qed.

(** [collapse] touches neither the visited set nor the reports. *)
Lemma collapse_keeps r s :
  collapse r = Some s →
  visited (final s) = visited r ∧ reported (final s) = reported r.
Proof.
  unfold collapse. intros H.
  repeat (first [ case_bool_decide | case_match ]; simplify_eq; simpl; try done).
Qed.

(** The reported paths are visited links, each reported once. *)
Lemma resolve_step_reported env follow r :
  NoDup (reported r) ∧ (∀ q, q ∈ reported r → q ∈ visited r) →
  NoDup (reported (final (resolve_step env follow r)))
  ∧ (∀ q, q ∈ reported (final (resolve_step env follow r)) →
          q ∈ visited (final (resolve_step env follow r))).
Proof.
  intros [Hnd Hsub]. unfold resolve_step.
  destruct (collapse r) as [s|] eqn:Hc.
  { apply collapse_keeps in Hc as [-> ->]. done. }
  clear Hc. unfold follow_link.
  destruct (if _ || _ then _ else _) as [target|]; [|by case_bool_decide].
  assert (Hfresh : take (pFullpath r) (fullpath r) ∉ visited r →
    NoDup (reported r ++ [take (pFullpath r) (fullpath r)])
    ∧ ∀ q, q ∈ reported r ++ [take (pFullpath r) (fullpath r)] →
           q ∈ {[take (pFullpath r) (fullpath r)]} ∪ visited r).
  { intros Hvis. split.
    - apply NoDup_app. split; [done|]. split; [|apply NoDup_singleton].
      intros q Hq ->%list_elem_of_singleton. by apply Hvis, Hsub.
    - intros q [Hq | ->%list_elem_of_singleton]%elem_of_app; set_solver. }
  repeat (first [ case_bool_decide | case_match ]; simpl; try done; try by apply Hfresh).
Qed.

Lemma resolve_walk_loop env buf follow :
  char_at buf 0 = SLASH →
  resolve_loop env follow (resolve_fuel env buf) (resolve_start buf)
  = Some (resolve_walk env buf follow)
  ∧ is_continue (resolve_walk env buf follow) = false.
Proof.
  intros Habs. unfold resolve_walk. rewrite bool_decide_eq_true_2 by done. simpl.
  destruct (resolve_start_potential env buf Habs) as [Hp Hfuel].
  destruct (resolve_loop_enough env follow _ _ Hp Hfuel) as (s & Hs & Hc).
  fold (resolve_start buf). by rewrite Hs.
Qed.

Lemma resolve_walk_reported env buf follow :
  NoDup (reported (final (resolve_walk env buf follow)))
  ∧ (∀ q, q ∈ reported (final (resolve_walk env buf follow)) →
          q ∈ visited (final (resolve_walk env buf follow))).
Proof.
  destruct (decide (char_at buf 0 = SLASH)) as [Habs|Hrel].
  - destruct (resolve_walk_loop env buf follow Habs) as [Hloop _].
    refine (resolve_loop_invariant
              (λ r, NoDup (reported r) ∧ ∀ q, q ∈ reported r → q ∈ visited r)
              env follow (resolve_step_reported env follow) _ (resolve_start buf) _ _ Hloop).
    simpl. split; [constructor | set_solver].
  - unfold resolve_walk. rewrite bool_decide_eq_false_2 by done. simpl.
    split; [constructor | set_solver].
Qed.

(** *** Resolution on a file system without links *)

Lemma has_infix_spec (pat l : cstring) :
  has_infix pat l = true ↔ ∃ l1 l2, l = l1 ++ pat ++ l2.
Proof.
  induction l as [|a l IH]; simpl.
  - rewrite orb_false_r, bool_decide_eq_true. split.
    + intros [k Hk]. exists [], k. done.
    + intros (l1 & l2 & H). symmetry in H.
      apply app_eq_nil in H as [-> [-> ->]%app_eq_nil]. done.
  - rewrite orb_true_iff, bool_decide_eq_true, IH. split.
    + intros [[k Hk] | (l1 & l2 & ->)].
      * exists [], k. done.
      * exists (a :: l1), l2. done.
    + intros (l1 & l2 & H). destruct l1 as [|b l1]; simpl in H.
      * left. exists l2. done.
      * right. injection H as -> ->. eauto.
Qed.

Lemma has_infix_app_l (pat l1 l2 : cstring) :
  has_infix pat (l1 ++ l2) = false → has_infix pat l1 = false.
Proof.
  intros H. apply not_true_is_false. intros (k1 & k2 & ->)%has_infix_spec.
  apply not_true_iff_false in H. apply H, has_infix_spec.
  exists k1, (k2 ++ l2). by rewrite <- !app_assoc.
Qed.

Lemma has_infix_snoc (pat l : cstring) (c : ascii) :
  has_infix pat l = false → ¬ pat `suffix_of` (l ++ [c]) →
  has_infix pat (l ++ [c]) = false.
Proof.
  intros Hl Hsuf. apply not_true_is_false. intros (k1 & k2 & H)%has_infix_spec.
  destruct k2 as [|d k2 _] using rev_ind.
  - apply Hsuf. exists k1. by rewrite app_nil_r in H.
  - rewrite !app_assoc in H. apply app_inj_tail in H as [-> _].
    apply not_true_iff_false in Hl. apply Hl, has_infix_spec.
    exists k1, k2. by rewrite <- app_assoc.
Qed.

Lemma collapsed_app_l (l1 l2 : cstring) : collapsed (l1 ++ l2) → collapsed l1.
Proof. intros (H1 & H2 & H3). repeat split; by eapply has_infix_app_l. Qed.

Lemma collapsed_take (n : nat) (l : cstring) : collapsed l → collapsed (take n l).
Proof. intros H. apply (collapsed_app_l _ (drop n l)). by rewrite take_drop. Qed.

Lemma suffix_char_at (pat l : cstring) (i : nat) :
  pat `suffix_of` l → (i < length pat)%nat →
  char_at l (length l - length pat + i) = char_at pat i.
Proof.
  intros [k ->] Hi. rewrite length_app. unfold char_at.
  replace (length k + length pat - length pat + i)%nat with (length k + i)%nat by lia.
  by rewrite app_nth2_plus.
Qed.

Lemma char_at_NUL (buf : cstring) (i : nat) :
  NUL ∉ buf → char_at buf i = NUL → (length buf ≤ i)%nat.
Proof.
  intros Hn Hc. destruct (decide (i < length buf)%nat) as [Hlt|]; [|lia].
  exfalso. apply Hn. rewrite <- Hc. unfold char_at.
  apply list_elem_of_In, nth_In. done.
Qed.

(** Position-wise reading of a suffix. *)
Lemma suffix_by_chars (pat l : cstring) :
  (length pat ≤ length l)%nat →
  (∀ i, (i < length pat)%nat →
        char_at l (length l - length pat + i) = char_at pat i) →
  pat `suffix_of` l.
Proof.
  intros Hlen Hch. exists (take (length l - length pat) l).
  rewrite <- (take_drop (length l - length pat) l) at 1. f_equal.
  apply list_eq. intros i. rewrite lookup_drop.
  destruct (decide (i < length pat)%nat) as [Hi|Hi].
  - specialize (Hch i Hi). unfold char_at in Hch. rewrite !nth_lookup in Hch.
    destruct (lookup_lt_is_Some_2 pat i Hi) as [x Hx].
    destruct (lookup_lt_is_Some_2 l (length l - length pat + i)) as [y Hy]; [lia|].
    rewrite Hx, Hy in *. simpl in Hch. congruence.
  - rewrite !lookup_ge_None_2; [done | lia | lia].
Qed.

(** The characters of the scanned part, with the slash under the pointer. *)
Lemma char_at_scanned (buf : cstring) (p i : nat) :
  (p ≤ length buf)%nat → (i < p)%nat →
  char_at (take p buf ++ [SLASH]) i = char_at buf i.
Proof.
  intros Hp Hi. rewrite char_at_app_l by (rewrite length_take; lia).
  by apply char_at_take.
Qed.

Lemma length_scanned (buf : cstring) (p : nat) :
  (p ≤ length buf)%nat → length (take p buf ++ [SLASH]) = S p.
Proof. intros Hp. rewrite length_app, length_take. simpl. lia. Qed.

Lemma char_at_scanned_last (buf : cstring) (p : nat) :
  (p ≤ length buf)%nat → char_at (take p buf ++ [SLASH]) p = SLASH.
Proof.
  intros Hp. unfold char_at.
  rewrite app_nth2; rewrite length_take_le by done; [|lia]. by rewrite Nat.sub_diag.
Qed.

Ltac scanned_char H :=
  first [ rewrite char_at_scanned by lia; etrans; [|exact H]; f_equal; lia
        | etrans; [|by apply (char_at_scanned_last _ _ H)]; f_equal; lia ].

Lemma Before_suffix (buf : cstring) (p : nat) :
  (p ≤ length buf)%nat → Before buf p →
  (c_str "//") `suffix_of` (take p buf ++ [SLASH])
  ∨ (c_str "/./") `suffix_of` (take p buf ++ [SLASH])
  ∨ (c_str "/../") `suffix_of` (take p buf ++ [SLASH]).
Proof.
  intros Hp [H1 Ha | H2 Ha Hb | H3 Ha Hb Hc].
  - left. apply suffix_by_chars; rewrite length_scanned by done; simpl; [lia|].
    intros [|[|i]] Hi; try lia; [scanned_char Ha | scanned_char Hp].
  - right; left. apply suffix_by_chars; rewrite length_scanned by done; simpl; [lia|].
    intros [|[|[|i]]] Hi; try lia; [scanned_char Ha | scanned_char Hb | scanned_char Hp].
  - right; right. apply suffix_by_chars; rewrite length_scanned by done; simpl; [lia|].
    intros [|[|[|[|i]]]] Hi; try lia;
      [scanned_char Ha | scanned_char Hb | scanned_char Hc | scanned_char Hp].
Qed.

(** Conversely, each of the three patterns at the end of the scanned part
    shows in the characters before the pointer. *)
Lemma suffix_Before (buf : cstring) (p : nat) :
  (p ≤ length buf)%nat →
  (c_str "//") `suffix_of` (take p buf ++ [SLASH])
  ∨ (c_str "/./") `suffix_of` (take p buf ++ [SLASH])
  ∨ (c_str "/../") `suffix_of` (take p buf ++ [SLASH]) →
  Before buf p.
Proof.
  intros Hp H.
  destruct (decide ((c_str "//") `suffix_of` (take p buf ++ [SLASH]))) as [H1|N1].
  { pose proof (suffix_length _ _ H1) as Hl. rewrite length_scanned in Hl by done.
    simpl in Hl. apply before_slash; [lia|].
    pose proof (suffix_char_at _ _ 0 H1 ltac:(simpl; lia)) as Hc.
    rewrite length_scanned in Hc by done. simpl length in Hc.
    rewrite char_at_scanned in Hc by lia. etrans; [|exact Hc]. f_equal. lia. }
  destruct (decide ((c_str "/./") `suffix_of` (take p buf ++ [SLASH]))) as [H2|N2].
  { pose proof (suffix_length _ _ H2) as Hl. rewrite length_scanned in Hl by done.
    simpl in Hl. apply before_dot; [lia| |].
    - pose proof (suffix_char_at _ _ 0 H2 ltac:(simpl; lia)) as Hc.
      rewrite length_scanned in Hc by done. simpl length in Hc.
      rewrite char_at_scanned in Hc by lia. etrans; [|exact Hc]. f_equal. lia.
    - pose proof (suffix_char_at _ _ 1 H2 ltac:(simpl; lia)) as Hc.
      rewrite length_scanned in Hc by done. simpl length in Hc.
      rewrite char_at_scanned in Hc by lia. etrans; [|exact Hc]. f_equal. lia. }
  assert (H3 : (c_str "/../") `suffix_of` (take p buf ++ [SLASH])) by tauto.
  pose proof (suffix_length _ _ H3) as Hl. rewrite length_scanned in Hl by done.
  simpl in Hl. apply before_dot_dot; [lia| | |].
  - pose proof (suffix_char_at _ _ 0 H3 ltac:(simpl; lia)) as Hc.
    rewrite length_scanned in Hc by done. simpl length in Hc.
    rewrite char_at_scanned in Hc by lia. etrans; [|exact Hc]. f_equal. lia.
  - pose proof (suffix_char_at _ _ 1 H3 ltac:(simpl; lia)) as Hc.
    rewrite length_scanned in Hc by done. simpl length in Hc.
    rewrite char_at_scanned in Hc by lia. etrans; [|exact Hc]. f_equal. lia.
  - pose proof (suffix_char_at _ _ 2 H3 ltac:(simpl; lia)) as Hc.
    rewrite length_scanned in Hc by done. simpl length in Hc.
    rewrite char_at_scanned in Hc by lia. etrans; [|exact Hc]. f_equal. lia.
Qed.

Lemma shift_left_keep (buf : cstring) (p k : nat) :
  (k ≤ p)%nat → shift_left buf (p + 1) (p + 1 - k) = take k buf ++ drop (p + 1) buf.
Proof. intros H. unfold shift_left. f_equal. f_equal. lia. Qed.

(** Removing the characters between index [k] and the slash under the
    pointer, and putting the pointer at [k], keeps [scanned]. *)
Lemma scanned_shift (r : Resolution) (k : nat) :
  scanned r → (pFullpath r < length (fullpath r))%nat → (1 ≤ k ≤ pFullpath r)%nat →
  scanned (at_ r (shift_left (fullpath r) (pFullpath r + 1) (pFullpath r + 1 - k)) k).
Proof.
  intros (Habs & Hnul & Hp & Hcol & Hv & Hr) Hlt Hk.
  rewrite shift_left_keep by lia. unfold scanned, at_. simpl.
  split; [|split; [|split; [|split; [|done]]]].
  - unfold absolute in *. rewrite char_at_app_l by (rewrite length_take; lia).
    rewrite char_at_take by lia. done.
  - intros [Hin|Hin]%elem_of_app; apply Hnul.
    + by apply (subseteq_take k).
    + by apply (subseteq_drop (pFullpath r + 1)).
  - rewrite length_app, length_take. lia.
  - rewrite take_app_length' by (rewrite length_take; lia).
    replace (take k (fullpath r)) with (take k (take (pFullpath r) (fullpath r))).
    + by apply collapsed_take.
    + rewrite take_take. f_equal. lia.
Qed.

(** The decision [collapse] takes at a slash: it removes a segment exactly
    when the slash ends an empty, a [.] or a [..] segment. *)
Lemma collapse_cases (r : Resolution) :
  absolute (fullpath r) → (1 ≤ pFullpath r)%nat →
  char_at (fullpath r) (pFullpath r) = SLASH →
  match collapse r with
  | None => ¬ Before (fullpath r) (pFullpath r)
  | Some s =>
      Before (fullpath r) (pFullpath r)
      ∧ ∃ k, (1 ≤ k ≤ pFullpath r)%nat
             ∧ s = Continue (at_ r (shift_left (fullpath r) (pFullpath r + 1)
                                      (pFullpath r + 1 - k)) k)
  end.
Proof.
  intros Habs Hp Hch. unfold collapse. rewrite bool_decide_eq_true_2 by done.
  destruct (find_prev_slash_is_Some (fullpath r) (pFullpath r) Habs) as [prev Hprev]; [lia|].
  rewrite Hprev. apply find_prev_slash_spec in Hprev as (Hlt & Hs & Hbetween).
  set (buf := fullpath r) in *. set (p := pFullpath r) in *.
  assert (Hdot : DOT ≠ SLASH) by discriminate.
  case_bool_decide as H0.
  { assert (prev = p - 1)%nat as -> by lia. split; [by apply before_slash|].
    exists p. split; [lia|]. do 3 f_equal. lia. }
  destruct (bool_decide (p - prev - 1 = 1)%nat && bool_decide (char_at buf (p - 1) = DOT))
    eqn:H1.
  { apply andb_true_iff in H1 as [H1 H1']. apply bool_decide_eq_true in H1, H1'.
    assert (prev = p - 2)%nat as -> by lia. split; [apply before_dot; [lia|done..]|].
    exists (p - 1)%nat. split; [lia|]. do 3 f_equal. lia. }
  destruct (bool_decide (p - prev - 1 = 2)%nat && bool_decide (char_at buf (p - 1) = DOT)
            && bool_decide (char_at buf (p - 2) = DOT)) eqn:H2.
  { apply andb_true_iff in H2 as [[H2 H2']%andb_true_iff H2''].
    apply bool_decide_eq_true in H2, H2', H2''.
    assert (prev = p - 3)%nat as -> by lia.
    assert (Hprev' : ∃ prev', (if bool_decide (0 < p - 3)%nat
                               then find_prev_slash buf (p - 3) else Some (p - 3)%nat)
                              = Some prev' ∧ (prev' ≤ p - 3)%nat).
    { destruct (decide (0 < p - 3)%nat) as [Hpos|Hpos].
      - rewrite bool_decide_eq_true_2 by done.
        destruct (find_prev_slash_is_Some buf (p - 3) Habs) as [q Hq]; [done|].
        exists q. split; [done|]. apply find_prev_slash_spec in Hq. lia.
      - rewrite bool_decide_eq_false_2 by done. exists (p - 3)%nat. split; [done|lia]. }
    destruct Hprev' as (prev' & -> & Hle).
    split; [apply before_dot_dot; [lia|done..]|].
    exists (prev' + 1)%nat. split; [lia|]. do 3 f_equal. lia. }
  (* no removal: none of the three shapes is present *)
  intros [Hp1 Ha | Hp2 Ha Hb | Hp3 Ha Hb Hc].
  - destruct (decide (prev = p - 1)%nat) as [->|]; [lia|].
    apply (Hbetween (p - 1)%nat); [lia | done].
  - assert (prev = p - 2)%nat as ->.
    { destruct (decide (prev < p - 2)%nat); [exfalso; apply (Hbetween (p - 2)%nat); [lia|done]|].
      destruct (decide (prev = p - 1)%nat) as [->|]; [congruence | lia]. }
    apply andb_false_iff in H1 as [H1|H1]; apply bool_decide_eq_false in H1;
      [lia | done].
  - assert (prev = p - 3)%nat as ->.
    { destruct (decide (prev < p - 3)%nat); [exfalso; apply (Hbetween (p - 3)%nat); [lia|done]|].
      destruct (decide (prev = p - 1)%nat) as [->|]; [congruence|].
      destruct (decide (prev = p - 2)%nat) as [->|]; [congruence | lia]. }
    apply andb_false_iff in H2 as [[H2|H2]%andb_false_iff|H2];
      apply bool_decide_eq_false in H2; [lia | done | done].
Qed.

Lemma suffix_has_infix (pat l : cstring) : pat `suffix_of` l → has_infix pat l = true.
Proof. intros [k ->]. apply has_infix_spec. exists k, []. by rewrite app_nil_r. Qed.

Lemma Before_not_collapsed (buf : cstring) (p : nat) :
  (p < length buf)%nat → char_at buf p = SLASH → Before buf p → ¬ collapsed buf.
Proof.
  intros Hp Hch Hb Hcol. apply (collapsed_take (S p)) in Hcol.
  rewrite take_S_char_at, Hch in Hcol by done.
  destruct Hcol as (H1 & H2 & H3).
  destruct (Before_suffix buf p ltac:(lia) Hb) as [H|[H|H]];
    apply suffix_has_infix in H; congruence.
Qed.

Lemma collapsed_snoc_slash (buf : cstring) (p : nat) :
  (p ≤ length buf)%nat → collapsed (take p buf) → ¬ Before buf p →
  collapsed (take p buf ++ [SLASH]).
Proof.
  intros Hp (H1 & H2 & H3) Hnb.
  repeat split; apply has_infix_snoc; try done;
    intros Hsuf; apply Hnb, suffix_Before; auto.
Qed.

Lemma collapsed_snoc_other (l : cstring) (c : ascii) :
  c ≠ SLASH → collapsed l → collapsed (l ++ [c]).
Proof.
  intros Hc (H1 & H2 & H3).
  repeat split; apply has_infix_snoc; try done; intros Hsuf.
  - change (c_str "//") with ([SLASH] ++ [SLASH]) in Hsuf.
    by apply suffix_snoc_inv_1 in Hsuf.
  - change (c_str "/./") with ([SLASH; DOT] ++ [SLASH]) in Hsuf.
    by apply suffix_snoc_inv_1 in Hsuf.
  - change (c_str "/../") with ([SLASH; DOT; DOT] ++ [SLASH]) in Hsuf.
    by apply suffix_snoc_inv_1 in Hsuf.
Qed.

(** [follow_link] where [readlink] fails on the path up to the pointer. *)
Lemma follow_link_not_a_link env follow r :
  symlinks env !! take (pFullpath r) (fullpath r) = None →
  follow_link env follow r
  = if bool_decide (char_at (fullpath r) (pFullpath r) = NUL) then Break r
    else Continue (at_ r (fullpath r) (pFullpath r + 1)).
Proof.
  intros Hno. unfold follow_link, real_readlink. rewrite Hno. simpl.
  by destruct (_ || _).
Qed.

(** A collapsed absolute path none of whose prefixes is a link is walked
    through without a change, whatever other links the file system has. *)
Lemma resolve_loop_unchanged env follow (buf : cstring) fuel r s :
  absolute buf → NUL ∉ buf → collapsed buf →
  (∀ k, symlinks env !! take k buf = None) →
  fullpath r = buf → visited r = ∅ → reported r = [] →
  (1 ≤ pFullpath r ≤ length buf)%nat →
  resolve_loop env follow fuel r = Some s →
  s = Break {| fullpath := buf; pFullpath := length buf; visited := ∅; reported := [] |}.
Proof.
  intros Habs Hnul Hcol Hno. revert r.
  induction fuel as [|fuel IH]; intros r Hbuf Hv Hr Hp; simpl; [discriminate|].
  assert (Hnone : collapse r = None).
  { destruct (decide (char_at (fullpath r) (pFullpath r) = SLASH)) as [Hch|Hch].
    - pose proof (collapse_cases r) as Hcases. rewrite Hbuf in *.
      specialize (Hcases Habs ltac:(lia) Hch).
      destruct (collapse r); [|done]. destruct Hcases as [Hb _]. exfalso.
      apply (Before_not_collapsed buf (pFullpath r)); try done.
      apply char_at_lt. rewrite Hch. apply SLASH_not_NUL.
    - unfold collapse. by rewrite bool_decide_eq_false_2. }
  unfold resolve_step. rewrite Hnone, follow_link_not_a_link by (rewrite Hbuf; apply Hno).
  rewrite Hbuf. case_bool_decide as Hend.
  - intros [= <-]. f_equal. apply char_at_NUL in Hend; [|done].
    destruct r; simpl in *. subst. f_equal. lia.
  - apply char_at_lt in Hend. apply IH; simpl; try done. lia.
Qed.

Section PlainFileSystem.
Context (env : Env) (follow : bool).
Hypothesis no_links : symlinks env = ∅.

Lemma follow_link_plain r :
  follow_link env follow r
  = if bool_decide (char_at (fullpath r) (pFullpath r) = NUL) then Break r
    else Continue (at_ r (fullpath r) (pFullpath r + 1)).
Proof. apply follow_link_not_a_link. by rewrite no_links, lookup_empty. Qed.

(** One iteration: the buffer shrinks at a removable segment, and only
    there; otherwise the pointer advances, or the loop is left at the
    end of the string. *)
Lemma resolve_step_scanned r :
  scanned r →
  match resolve_step env follow r with
  | Continue r' => scanned r' ∧ (fullpath r' = fullpath r ∨ ¬ collapsed (fullpath r))
  | Break r' => r' = r ∧ pFullpath r = length (fullpath r)
  | OutOfBounds _ => False
  end.
Proof.
  intros Hsc. pose proof Hsc as (Habs & Hnul & Hp & Hcol & Hv & Hr).
  unfold resolve_step.
  destruct (decide (char_at (fullpath r) (pFullpath r) = SLASH)) as [Hch|Hch].
  - assert (Hlt : (pFullpath r < length (fullpath r))%nat).
    { apply char_at_lt. rewrite Hch. apply SLASH_not_NUL. }
    pose proof (collapse_cases r Habs ltac:(lia) Hch) as Hcases.
    destruct (collapse r) as [s|].
    + destruct Hcases as (Hb & k & Hk & ->). split.
      * by apply scanned_shift.
      * right. by apply (Before_not_collapsed _ (pFullpath r)).
    + rewrite follow_link_plain.
      rewrite bool_decide_eq_false_2 by (rewrite Hch; apply SLASH_not_NUL).
      split; [|by left]. unfold scanned, at_. simpl.
      repeat split; try done; try lia.
      all: rewrite Nat.add_1_r, take_S_char_at, Hch by done.
      all: by apply collapsed_snoc_slash; [lia | done | done].
  - assert (Hnone : collapse r = None).
    { unfold collapse. by rewrite bool_decide_eq_false_2. }
    rewrite Hnone, follow_link_plain.
    case_bool_decide as Hend.
    + split; [done|]. apply char_at_NUL in Hend; [lia | done].
    + apply char_at_lt in Hend. split; [|by left]. unfold scanned, at_. simpl.
      repeat split; try done; try lia.
      all: rewrite Nat.add_1_r, take_S_char_at by done.
      all: by apply collapsed_snoc_other.
Qed.

(** The loop: it is left by [break] with the pointer at the end of a
    collapsed string, and a buffer that was collapsed from the start is
    unchanged. *)
Lemma resolve_loop_scanned (buf0 : cstring) fuel r s :
  scanned r → (collapsed buf0 → fullpath r = buf0) →
  resolve_loop env follow fuel r = Some s →
  ∃ r', s = Break r' ∧ scanned r' ∧ pFullpath r' = length (fullpath r')
        ∧ collapsed (fullpath r') ∧ (collapsed buf0 → fullpath r' = buf0).
Proof.
  revert r s. induction fuel as [|fuel IH]; intros r s Hsc Hsame; simpl;
    [discriminate|].
  pose proof (resolve_step_scanned r Hsc) as Hstep.
  destruct (resolve_step env follow r) as [r'|r'|r']; [| |done].
  - destruct Hstep as [Hsc' Hbuf]. apply IH; [done|].
    intros Hc0. destruct Hbuf as [->|Hn]; [by apply Hsame|].
    exfalso. apply Hn. by rewrite Hsame.
  - destruct Hstep as [-> Hend]. intros [= <-]. exists r.
    split; [done|]. split; [done|]. split; [done|]. split; [|done].
    destruct Hsc as (_ & _ & _ & Hcol & _). by rewrite Hend, firstn_all in Hcol.
Qed.
End PlainFileSystem.

Lemma scanned_start (buf : cstring) :
  absolute buf → NUL ∉ buf → scanned (resolve_start buf).
Proof.
  intros Habs Hnul. unfold scanned, resolve_start. simpl.
  destruct buf as [|c buf]; [discriminate Habs|].
  unfold absolute, char_at in Habs. simpl in Habs. subst c.
  repeat split; try done; simpl; lia.
Qed.

Lemma resolve_path_plain env buf follow r o :
  resolve_walk env buf follow = Break r → reported r = [] →
  resolve_path env buf follow o = Returned (fullpath r) o.
Proof. intros Hw Hr. unfold resolve_path. rewrite Hw. simpl. by rewrite Hr. Qed.

Lemma segments_from_nonempty cur l : segments_from cur l ≠ [].
Proof.
  revert cur. induction l as [|c l IH]; intros cur; simpl; [done|].
  case_bool_decide; [done | apply IH].
Qed.

Lemma lexical_rest_nil kept cur : lexical_rest kept cur [] = rooted kept ++ cur.
Proof. done. Qed.

Lemma lexical_rest_char kept cur c tail :
  c ≠ SLASH → lexical_rest kept cur (c :: tail) = lexical_rest kept (cur ++ [c]) tail.
Proof.
  intros Hc. unfold lexical_rest. cbn [segments_from].
  by rewrite bool_decide_eq_false_2.
Qed.

Lemma lexical_rest_slash kept cur tail :
  lexical_rest kept cur (SLASH :: tail) = lexical_rest (keep_segment kept cur) [] tail.
Proof.
  unfold lexical_rest. cbn [segments_from]. rewrite bool_decide_eq_true_2 by done.
  pose proof (segments_from_nonempty [] tail) as Hne.
  destruct (segments_from [] tail) as [|s segs]; [done|]. done.
Qed.

Lemma rooted_snoc kept s : rooted (kept ++ [s]) = rooted kept ++ s ++ [SLASH].
Proof.
  unfold rooted. rewrite map_app, concat_app. simpl.
  rewrite app_nil_r. done.
Qed.

Lemma rooted_split kept : ∃ X, rooted kept = X ++ [SLASH].
Proof.
  destruct kept as [|s kept _] using rev_ind.
  - by exists [].
  - exists (rooted kept ++ s). by rewrite rooted_snoc, <- app_assoc.
Qed.

Lemma char_at_app_r (l1 l2 : cstring) (i : nat) :
  char_at (l1 ++ l2) (length l1 + i) = char_at l2 i.
Proof. unfold char_at. apply app_nth2_plus. Qed.

Lemma char_at_length (l1 l2 : cstring) (c : ascii) :
  char_at (l1 ++ c :: l2) (length l1) = c.
Proof. rewrite <- (Nat.add_0_r (length l1)). by rewrite char_at_app_r. Qed.

(** The nearest slash to the left of a segment is the one before it. *)
Lemma find_prev_slash_segment (X cur rest : cstring) :
  (SLASH ∉ cur) →
  find_prev_slash (X ++ [SLASH] ++ cur ++ rest) (length X + 1 + length cur) = Some (length X).
Proof.
  revert rest. induction cur as [|c cur IH] using rev_ind; intros rest Hcur.
  - simpl. rewrite Nat.add_0_r, Nat.add_1_r. simpl.
    by rewrite char_at_length, bool_decide_eq_true_2.
  - rewrite length_app. simpl.
    replace (length X + 1 + (length cur + 1))%nat with (S (length X + 1 + length cur)) by lia.
    simpl.
    replace (X ++ SLASH :: (cur ++ [c]) ++ rest) with ((X ++ [SLASH] ++ cur) ++ c :: rest)
      by (by rewrite <- !app_assoc).
    replace (length X + 1 + length cur)%nat with (length (X ++ [SLASH] ++ cur))
      by (rewrite !length_app; simpl; lia).
    rewrite char_at_length. rewrite bool_decide_eq_false_2.
    2:{ intros ->. apply Hcur. apply elem_of_app. right. by left. }
    replace (length (X ++ [SLASH] ++ cur)) with (length X + 1 + length cur)%nat
      by (rewrite !length_app; simpl; lia).
    replace ((X ++ [SLASH] ++ cur) ++ c :: rest) with (X ++ [SLASH] ++ cur ++ (c :: rest))
      by (by rewrite <- !app_assoc).
    apply IH. intros Hin. apply Hcur. apply elem_of_app. by left.
Qed.

(** [shift_left] over a removed middle part [A2] and one more character. *)
Lemma shift_left_removes (A1 A2 rest : cstring) (c : ascii) (i n : nat) :
  i = (length A1 + length A2 + 1)%nat → n = (length A2 + 1)%nat →
  shift_left (A1 ++ A2 ++ c :: rest) i n = A1 ++ rest.
Proof.
  intros -> ->. unfold shift_left.
  replace (length A1 + length A2 + 1 - (length A2 + 1))%nat with (length A1) by lia.
  rewrite take_app_length. f_equal.
  replace (A1 ++ A2 ++ c :: rest) with ((A1 ++ A2 ++ [c]) ++ rest)
    by (by rewrite <- !app_assoc).
  apply drop_app_length'. rewrite !length_app. simpl. lia.
Qed.

(** What [collapse] does at the slash that ends the segment [cur]: the
    segment goes through [keep_segment] when it is empty, [.] or [..], and
    control reaches the [readlink] part otherwise. *)
Lemma collapse_segment r kept cur rest :
  (SLASH ∉ cur) → Forall (λ s, SLASH ∉ s) kept →
  fullpath r = rooted kept ++ cur ++ SLASH :: rest →
  pFullpath r = length (rooted kept ++ cur) →
  collapse r =
    if bool_decide (cur = []) || bool_decide (cur = c_str ".")
       || bool_decide (cur = c_str "..")
    then Some (Continue (at_ r (rooted (keep_segment kept cur) ++ rest)
                           (length (rooted (keep_segment kept cur)))))
    else None.
Proof.
  intros Hcur Hkept Hbuf Hp.
  destruct (rooted_split kept) as [X HX].
  assert (Hbuf' : fullpath r = X ++ [SLASH] ++ cur ++ SLASH :: rest).
  { by rewrite Hbuf, HX, <- !app_assoc. }
  assert (Hp' : pFullpath r = (length X + 1 + length cur)%nat).
  { rewrite Hp, HX, !length_app. simpl. lia. }
  assert (Hch : char_at (fullpath r) (pFullpath r) = SLASH).
  { rewrite Hbuf, Hp, app_assoc. apply char_at_length. }
  assert (Hprev : find_prev_slash (fullpath r) (pFullpath r) = Some (length X)).
  { rewrite Hbuf', Hp'. by apply find_prev_slash_segment. }
  unfold collapse. rewrite Hch, (bool_decide_eq_true_2 (SLASH = SLASH)), Hprev by done.
  replace (pFullpath r - length X - 1)%nat with (length cur) by lia.
  destruct cur as [|c1 [|c2 [|c3 cur]]].
  - (* an empty segment *)
    rewrite app_nil_r in Hp. cbn [length].
    rewrite (bool_decide_eq_true_2 (0 = 0)%nat) by done.
    rewrite (bool_decide_eq_true_2 (@nil ascii = [])) by done. cbn [orb].
    unfold keep_segment. rewrite (bool_decide_eq_true_2 (@nil ascii = [])) by done.
    cbn [orb]. do 3 f_equal; [|done].
    rewrite Hbuf. apply (shift_left_removes (rooted kept) [] rest SLASH); cbn [length]; lia.
  - (* one character *)
    assert (Hc1 : char_at (fullpath r) (pFullpath r - 1) = c1).
    { rewrite Hbuf, Hp, length_app. cbn [length app].
      replace (length (rooted kept) + 1 - 1)%nat with (length (rooted kept)) by lia.
      apply char_at_length. }
    rewrite Hc1. cbn [length].
    rewrite (bool_decide_eq_false_2 (1 = 0)%nat), (bool_decide_eq_true_2 (1 = 1)%nat),
      (bool_decide_eq_false_2 (1 = 2)%nat) by lia.
    rewrite (bool_decide_eq_false_2 ([c1] = [])) by done.
    rewrite (bool_decide_eq_false_2 ([c1] = c_str "..")) by done.
    cbn [andb orb].
    destruct (decide (c1 = DOT)) as [->|Hne].
    + rewrite (bool_decide_eq_true_2 (DOT = DOT)) by done.
      rewrite (bool_decide_eq_true_2 ([DOT] = c_str ".")) by done. cbn [orb].
      unfold keep_segment.
      rewrite (bool_decide_eq_true_2 ([DOT] = c_str ".")) by done. rewrite orb_true_r.
      do 3 f_equal.
      * rewrite Hbuf.
        apply (shift_left_removes (rooted kept) [DOT] rest SLASH).
        -- rewrite Hp, length_app. cbn [length]. lia.
        -- done.
      * rewrite Hp, length_app. cbn [length]. lia.
    + rewrite (bool_decide_eq_false_2 (c1 = DOT)) by done.
      rewrite (bool_decide_eq_false_2 ([c1] = c_str ".")); [done|].
      intros [= ->]. done.
  - (* two characters *)
    assert (Hc2 : char_at (fullpath r) (pFullpath r - 1) = c2).
    { rewrite Hbuf, Hp, length_app. cbn [length app].
      replace (rooted kept ++ c1 :: c2 :: SLASH :: rest)
        with ((rooted kept ++ [c1]) ++ c2 :: SLASH :: rest) by (by rewrite <- app_assoc).
      replace (length (rooted kept) + 2 - 1)%nat with (length (rooted kept ++ [c1]))
        by (rewrite length_app; cbn [length]; lia).
      apply char_at_length. }
    assert (Hc1 : char_at (fullpath r) (pFullpath r - 2) = c1).
    { rewrite Hbuf, Hp, length_app. cbn [length app].
      replace (length (rooted kept) + 2 - 2)%nat with (length (rooted kept)) by lia.
      apply char_at_length. }
    rewrite Hc1, Hc2. cbn [length].
    rewrite (bool_decide_eq_false_2 (2 = 0)%nat), (bool_decide_eq_false_2 (2 = 1)%nat),
      (bool_decide_eq_true_2 (2 = 2)%nat) by lia.
    rewrite (bool_decide_eq_false_2 ([c1; c2] = [])) by done.
    rewrite (bool_decide_eq_false_2 ([c1; c2] = c_str ".")) by done.
    cbn [andb orb].
    destruct (decide (c2 = DOT)) as [->|Hne2].
    2:{ rewrite (bool_decide_eq_false_2 (c2 = DOT)) by done. cbn [andb].
        rewrite (bool_decide_eq_false_2 ([c1; c2] = c_str "..")); [done|].
        intros [= -> ->]. done. }
    destruct (decide (c1 = DOT)) as [->|Hne1].
    2:{ rewrite (bool_decide_eq_false_2 (c1 = DOT)) by done. rewrite andb_false_r.
        rewrite (bool_decide_eq_false_2 ([c1; DOT] = c_str "..")); [done|].
        intros [= ->]. done. }
    rewrite (bool_decide_eq_true_2 (DOT = DOT)) by done. cbn [andb].
    rewrite (bool_decide_eq_true_2 ([DOT; DOT] = c_str "..")) by done.
    unfold keep_segment.
    rewrite (bool_decide_eq_false_2 ([DOT; DOT] = [])) by done.
    rewrite (bool_decide_eq_false_2 ([DOT; DOT] = c_str ".")) by done.
    rewrite (bool_decide_eq_true_2 ([DOT; DOT] = c_str "..")) by done. cbn [orb].
    destruct kept as [|s kept _] using rev_ind.
    + (* at the root *)
      assert (X = []) as ->.
      { unfold rooted in HX. simpl in HX. by destruct X as [|? [|? ?]]. }
      cbn [length removelast]. rewrite (bool_decide_eq_false_2 (0 < 0)%nat) by lia.
      do 3 f_equal. rewrite Hbuf.
      apply (shift_left_removes (rooted []) [DOT; DOT] rest SLASH).
      * rewrite Hp. done.
      * rewrite Hp. done.
    + (* below a kept segment *)
      apply Forall_app in Hkept as [Hkept Hs]. rewrite Forall_singleton in Hs.
      rewrite removelast_last.
      assert (X = rooted kept ++ s) as ->.
      { rewrite rooted_snoc, app_assoc in HX. by apply app_inj_tail in HX as [-> _]. }
      destruct (rooted_split kept) as [X0 HX0].
      assert (Hprev' : find_prev_slash (fullpath r) (length (rooted kept ++ s))
                       = Some (length X0)).
      { rewrite Hbuf', HX0, length_app, length_app. cbn [length].
        replace ((X0 ++ [SLASH]) ++ s) with (X0 ++ [SLASH] ++ s) by (by rewrite <- app_assoc).
        rewrite <- !app_assoc. by apply find_prev_slash_segment. }
      rewrite (bool_decide_eq_true_2 (0 < length (rooted kept ++ s))%nat).
      2:{ rewrite HX0, !length_app. cbn [length]. lia. }
      rewrite Hprev'.
      do 3 f_equal.
      * rewrite Hbuf, rooted_snoc.
        replace ((rooted kept ++ s ++ [SLASH]) ++ [DOT; DOT] ++ SLASH :: rest)
          with (rooted kept ++ (s ++ [SLASH] ++ [DOT; DOT]) ++ SLASH :: rest)
          by (by rewrite <- !app_assoc).
        apply shift_left_removes.
        -- rewrite Hp, rooted_snoc, !length_app. cbn [length]. lia.
        -- rewrite Hp, rooted_snoc, HX0, !length_app. cbn [length]. lia.
      * rewrite HX0, length_app. cbn [length]. lia.
  - (* three characters or more *)
    cbn [length].
    rewrite (bool_decide_eq_false_2 (S (S (S (length cur))) = 0)%nat),
      (bool_decide_eq_false_2 (S (S (S (length cur))) = 1)%nat),
      (bool_decide_eq_false_2 (S (S (S (length cur))) = 2)%nat) by lia.
    cbn [andb].
    rewrite (bool_decide_eq_false_2 (c1 :: c2 :: c3 :: cur = [])) by done.
    rewrite (bool_decide_eq_false_2 (c1 :: c2 :: c3 :: cur = c_str ".")) by done.
    by rewrite (bool_decide_eq_false_2 (c1 :: c2 :: c3 :: cur = c_str "..")) by done.
Qed.

Lemma keep_segment_Forall (P : cstring → Prop) kept s :
  Forall P kept → P s → Forall P (keep_segment kept s).
Proof.
  intros Hkept Hs. unfold keep_segment.
  destruct (_ || _); [done|]. case_bool_decide.
  - destruct kept as [|x kept _] using rev_ind; [done|].
    rewrite removelast_last. by apply Forall_app in Hkept as [? _].
  - apply Forall_app. split; [done|]. by apply Forall_singleton.
Qed.

Lemma keep_segment_other kept cur :
  bool_decide (cur = []) || bool_decide (cur = c_str ".") || bool_decide (cur = c_str "..")
  = false →
  keep_segment kept cur = kept ++ [cur].
Proof.
  intros [[H1 H2]%orb_false_iff H3]%orb_false_iff. unfold keep_segment.
  by rewrite H1, H2, H3.
Qed.

Section LinkFreePath.
Context (env : Env) (follow : bool) (buf0 : cstring).
Hypothesis Hnul : NUL ∉ buf0.
Hypothesis Hfree : ∀ k, symlinks env !! lexical_form (take k buf0) = None.

(** One iteration in the segment view: the walk reads one character of
    the input, and at a slash the segment before it goes through
    [keep_segment]; at the end of the input the loop is left with the form
    of the specification in the buffer. *)
Lemma resolve_step_tracked r :
  tracked buf0 r →
  match resolve_step env follow r with
  | Continue r' => tracked buf0 r'
  | Break r' =>
      r' = r ∧ fullpath r = lexical_form buf0 ∧ pFullpath r = length (fullpath r)
      ∧ visited r = ∅ ∧ reported r = []
  | OutOfBounds _ => False
  end.
Proof.
  intros (pre & kept & cur & rest & Hb0 & Hbuf & Hp & Hcur & Hkept & Hspec & Hv & Hr).
  assert (Htest : symlinks env !! take (pFullpath r) (fullpath r) = None).
  { rewrite Hbuf, Hp, app_assoc, take_app_length.
    rewrite <- lexical_rest_nil, Hspec, app_nil_r.
    replace pre with (take (length pre) buf0) by (by rewrite Hb0, take_app_length).
    apply Hfree. }
  assert (Hch : char_at (fullpath r) (pFullpath r) = hd NUL rest).
  { rewrite Hbuf, Hp, app_assoc. destruct rest as [|c rest].
    - unfold char_at. rewrite app_nil_r. by apply nth_overflow.
    - apply char_at_length. }
  unfold resolve_step. destruct rest as [|c rest]; simpl in Hch.
  - (* the end of the input *)
    assert (Hnone : collapse r = None).
    { unfold collapse. rewrite Hch. by rewrite bool_decide_eq_false_2. }
    rewrite Hnone, follow_link_not_a_link, Hch by done.
    rewrite bool_decide_eq_true_2 by done.
    split; [done|]. rewrite app_nil_r in Hb0, Hbuf. subst pre.
    split; [|split; [|done]].
    + by rewrite Hbuf, <- lexical_rest_nil, Hspec, app_nil_r.
    + by rewrite Hp, Hbuf.
  - assert (Hc : c ≠ NUL).
    { intros ->. apply Hnul. rewrite Hb0. apply elem_of_app. right. by left. }
    destruct (decide (c = SLASH)) as [->|Hslash].
    + (* a slash: the segment before it is complete *)
      assert (Hnext : ∃ r', match collapse r with
                            | Some s => s
                            | None => follow_link env follow r
                            end = Continue r'
                ∧ fullpath r' = rooted (keep_segment kept cur) ++ rest
                ∧ pFullpath r' = length (rooted (keep_segment kept cur))
                ∧ visited r' = visited r ∧ reported r' = reported r).
      { rewrite (collapse_segment r kept cur rest) by done.
        destruct (_ || _ || _) eqn:Hk; [by eexists|].
        rewrite follow_link_not_a_link, Hch by done.
        rewrite bool_decide_eq_false_2 by done.
        rewrite (keep_segment_other kept cur Hk), rooted_snoc.
        eexists. split; [done|]. cbn [fullpath pFullpath visited reported at_].
        repeat split.
        - by rewrite Hbuf, <- !app_assoc.
        - rewrite Hp, !length_app. cbn [length]. lia. }
      destruct Hnext as (r' & -> & Hbuf' & Hp' & Hv' & Hr').
      exists (pre ++ [SLASH]), (keep_segment kept cur), [], rest.
      split; [by rewrite Hb0, <- app_assoc|]. split; [done|].
      split; [by rewrite app_nil_r|]. split; [by apply not_elem_of_nil|].
      split; [by apply keep_segment_Forall|].
      split; [|by rewrite Hv', Hr'].
      intros tail. by rewrite <- lexical_rest_slash, Hspec, <- app_assoc.
    + (* another character of the current segment *)
      assert (Hnone : collapse r = None).
      { unfold collapse. rewrite Hch. by rewrite bool_decide_eq_false_2. }
      rewrite Hnone, follow_link_not_a_link, Hch by done.
      rewrite bool_decide_eq_false_2 by done.
      exists (pre ++ [c]), kept, (cur ++ [c]), rest.
      split; [by rewrite Hb0, <- app_assoc|]. simpl.
      split; [by rewrite Hbuf, <- !app_assoc|].
      split; [rewrite Hp, !length_app; simpl; lia|].
      split.
      { intros [?|Hin]%elem_of_app; [done|]. by apply list_elem_of_singleton in Hin. }
      split; [done|]. split; [|done].
      intros tail. by rewrite <- lexical_rest_char, Hspec, <- app_assoc.
Qed.

Lemma resolve_loop_tracked fuel r s :
  tracked buf0 r → resolve_loop env follow fuel r = Some s →
  s = Break {| fullpath := lexical_form buf0; pFullpath := length (lexical_form buf0);
               visited := ∅; reported := [] |}.
Proof.
  revert r. induction fuel as [|fuel IH]; intros r Ht; simpl; [discriminate|].
  pose proof (resolve_step_tracked r Ht) as Hstep.
  destruct (resolve_step env follow r) as [r'|r'|r']; [by apply IH| |done].
  destruct Hstep as (-> & Hbuf & Hp & Hv & Hr). intros [= <-]. f_equal.
  destruct r; simpl in *. by subst.
Qed.
End LinkFreePath.

Lemma tracked_start (buf : cstring) : absolute buf → tracked buf (resolve_start buf).
Proof.
  intros Habs. destruct buf as [|c buf]; [discriminate Habs|].
  unfold absolute, char_at in Habs. simpl in Habs. subst c.
  exists [SLASH], [], [], buf. repeat split; try done.
  - apply not_elem_of_nil.
Qed.

(** The walk over a path none of whose prefixes, in the form of the
    specification, is a link. *)
Lemma resolve_walk_lexical env (buf : cstring) follow :
  absolute buf → (NUL ∉ buf) →
  (∀ k, symlinks env !! lexical_form (take k buf) = None) →
  resolve_walk env buf follow
  = Break {| fullpath := lexical_form buf; pFullpath := length (lexical_form buf);
             visited := ∅; reported := [] |}.
Proof.
  intros Habs Hnul Hfree.
  destruct (resolve_walk_loop env buf follow Habs) as [Hloop _].
  exact (resolve_loop_tracked env follow buf Hnul Hfree _ _ _ (tracked_start buf Habs) Hloop).
Qed.

(** The text after the last slash has no slash. *)
Lemma last_segments_from_no_slash (cur l : cstring) :
  (SLASH ∉ cur) → SLASH ∉ default [] (last (segments_from cur l)).
Proof.
  revert cur. induction l as [|c l IH]; intros cur Hcur; [done|].
  cbn [segments_from]. case_bool_decide as Hc.
  - pose proof (segments_from_nonempty [] l) as Hne.
    specialize (IH [] ltac:(apply not_elem_of_nil)).
    by destruct (segments_from [] l) as [|s segs].
  - apply IH. intros [?|Hin]%elem_of_app; [done|].
    by apply list_elem_of_singleton in Hin.
Qed.

Lemma not_suffix_dot (X s : cstring) :
  (SLASH ∉ s) → s ≠ c_str "." → ¬ c_str "/." `suffix_of` (X ++ [SLASH] ++ s).
Proof.
  intros Hs Hne [k Hk]. change (c_str "/.") with ([SLASH] ++ [DOT]) in Hk.
  destruct s as [|c s _] using rev_ind.
  - rewrite app_nil_r, (app_assoc k) in Hk. by apply app_inj_tail in Hk as [_ [=]].
  - rewrite !app_assoc in Hk. apply app_inj_tail in Hk as [Hk ->].
    destruct s as [|c s _] using rev_ind; [done|].
    rewrite !app_assoc in Hk. apply app_inj_tail in Hk as [_ ->].
    apply Hs. rewrite !elem_of_app, !list_elem_of_singleton. tauto.
Qed.

Lemma not_suffix_dot_dot (X s : cstring) :
  (SLASH ∉ s) → s ≠ c_str ".." → ¬ c_str "/.." `suffix_of` (X ++ [SLASH] ++ s).
Proof.
  intros Hs Hne [k Hk]. change (c_str "/..") with ([SLASH] ++ [DOT] ++ [DOT]) in Hk.
  destruct s as [|c2 s _] using rev_ind.
  - rewrite app_nil_r, !app_assoc in Hk. by apply app_inj_tail in Hk as [_ [=]].
  - rewrite !app_assoc in Hk. apply app_inj_tail in Hk as [Hk ->].
    destruct s as [|c1 s _] using rev_ind.
    + rewrite app_nil_r in Hk. by apply app_inj_tail in Hk as [_ [=]].
    + rewrite !app_assoc in Hk. apply app_inj_tail in Hk as [Hk ->].
      destruct s as [|c0 s _] using rev_ind; [done|].
      rewrite !app_assoc in Hk. apply app_inj_tail in Hk as [_ ->].
      apply Hs. rewrite !elem_of_app, !list_elem_of_singleton. tauto.
Qed.

(** The form of the specification has the shape the walk leaves. *)
Lemma lexical_form_shape (buf : cstring) :
  absolute buf → (NUL ∉ buf) →
  absolute (lexical_form buf) ∧ (NUL ∉ lexical_form buf) ∧ collapsed (lexical_form buf)
  ∧ (collapsed buf → lexical_form buf = buf).
Proof.
  intros Habs Hnul.
  assert (Hfs : symlinks plain_env = ∅) by reflexivity.
  assert (Hfree : ∀ k, symlinks plain_env !! lexical_form (take k buf) = None).
  { intros k. rewrite Hfs. apply lookup_empty. }
  pose proof (resolve_walk_lexical plain_env buf true Habs Hnul Hfree) as Hw.
  destruct (resolve_walk_loop plain_env buf true Habs) as [Hloop _].
  destruct (resolve_loop_scanned plain_env true Hfs buf _ _ _ (scanned_start buf Habs Hnul)
              ltac:(done) Hloop) as (r & Hw' & Hsc & _ & Hcol & Hsame).
  rewrite Hw in Hw'. injection Hw' as <-. simpl in *.
  destruct Hsc as (Habs' & Hnul' & _). done.
Qed.

Lemma lexical_form_canonical (buf : cstring) :
  absolute buf → (NUL ∉ buf) →
  last_segment buf ≠ c_str "." → last_segment buf ≠ c_str ".." →
  canonical (lexical_form buf).
Proof.
  intros Habs Hnul Hd Hdd.
  destruct (lexical_form_shape buf Habs Hnul) as (Habs' & _ & Hcol & _).
  split; [done|]. split; [done|].
  assert (Hs : SLASH ∉ last_segment buf).
  { apply last_segments_from_no_slash, not_elem_of_nil. }
  unfold lexical_form, lexical_rest. fold (last_segment buf).
  destruct (rooted_split (foldl keep_segment [] (removelast (segments_from [] (drop 1 buf)))))
    as [X ->].
  rewrite <- app_assoc. split; [by apply not_suffix_dot | by apply not_suffix_dot_dot].
Qed.




(** ** AccessMediator *)

(** C9, as amended.  When the mode of the descriptor is known (not 0) and
    is neither that of a regular file, nor of a directory, nor of a link,
    [report_access_fd] returns [sNotChecked] and the observer is as before:
    the policy engine, the cache and the descriptor table were not
    reached. *)
Theorem report_access_fd_non_file (env : Env) (syscallName : cstring)
    (eventType : es_event_type_t) (fd : Z) (o : BxlObserver) :
  fd_mode env fd ≠ 0 →
  S_ISREG (fd_mode env fd) = false → S_ISDIR (fd_mode env fd) = false →
  S_ISLNK (fd_mode env fd) = false →
  report_access_fd env syscallName eventType fd o = Returned sNotChecked o.
Proof.
  intros Hmode Hreg Hdir Hlnk. unfold report_access_fd, is_non_file.
  rewrite Hreg, Hdir, Hlnk, bool_decide_eq_false_2 by done. reflexivity.
Qed.

Lemma report_access_fd_non_file_witness :
  report_access_fd mixed_env (c_str "read") ES_EVENT_TYPE_NOTIFY_STAT 5 fresh_observer
  = Returned sNotChecked fresh_observer.
Proof.
  apply (report_access_fd_non_file mixed_env (c_str "read") ES_EVENT_TYPE_NOTIFY_STAT 5
           fresh_observer).
  - vm_compute. discriminate.
  - vm_compute. reflexivity.
  - vm_compute. reflexivity.
  - vm_compute. reflexivity.
Defined.

(** C9 as stated fails for the mode 0 that [get_mode] answers when the
    descriptor cannot be stat'ed (here descriptor 6, which is not open): the
    mode is neither that of a regular file, of a directory nor of a link,
    yet the call goes on to the policy engine, with the empty path that
    [fd_to_path] answers, and returns its verdict. *)
Lemma report_access_fd_unknown_mode :
  S_ISREG (fd_mode mixed_env 6) = false
  ∧ S_ISDIR (fd_mode mixed_env 6) = false
  ∧ S_ISLNK (fd_mode mixed_env 6) = false
  ∧ ∃ o', report_access_fd mixed_env (c_str "fstat") ES_EVENT_TYPE_NOTIFY_STAT 6
            fresh_observer
          = Returned (AccessCheckResult_make RequestedAccess_Write ResultAction_Allow
                        ReportLevel_Report) o'
        ∧ policy_paths (trace_ o') = [[]].
Proof.
  repeat split; try (vm_compute; reflexivity).
  eexists. split; vm_compute; reflexivity.
Qed.

Lemma SendReport_frame env report o :
  let o' := observer_of (SendReport env report o) in
  cache_ o' = cache_ o
  ∧ ∃ added, trace_ o' = trace_ o ++ added ∧ Forall is_channel added.
Proof.
  destruct (decide (operation report = kOpProcessTreeCompleted)) as [Hop|Hop].
  { unfold SendReport. rewrite bool_decide_eq_true_2 by done. simpl.
    split; [done|]. exists []. by rewrite app_nil_r. }
  rewrite SendReport_unfold by done.
  case_bool_decide; simpl.
  { split; [done|]. exists []. by rewrite app_nil_r. }
  unfold Send, reset_fd_table_entry. unfold_M.
  destruct (real_open_found env); simpl.
  2:{ split; [done|]. exists []. by rewrite app_nil_r. }
  case_bool_decide; simpl.
  { split; [done|]. exists []. by rewrite app_nil_r. }
  case_bool_decide; simpl.
  { split; [done|]. eexists. split; [reflexivity|]. by repeat constructor. }
  case_bool_decide; simpl.
  { split; [done|]. eexists. rewrite <- app_assoc. split; [reflexivity|].
    by repeat constructor. }
  destruct (_ && _); simpl; (split; [done|]); eexists; rewrite <- !app_assoc;
    (split; [reflexivity|]); by repeat constructor.
Qed.

(** C2, as amended.  [report_firstAllowWriteCheck] consults neither the
    cache nor its mutex: it hands [SendReport] its report of operation
    [kOpFirstAllowWriteCheckInProcess] in every call, and all it adds to the
    trace are channel effects.  The status of the report is Denied, and the
    decision of the returned result Deny, exactly when the path exists and
    is not a directory (mode not 0 and not [S_ISDIR]); for an absent path
    and for an existing directory they are Allowed and Allow.  The result
    is returned whenever [SendReport] returns, which it does when the
    message fits and the channel takes it whole. *)
Theorem report_firstAllowWriteCheck_decision (env : Env) (fullPath : cstring)
    (o : BxlObserver) :
  let mode := path_mode env fullPath in
  let fileExists := negb (bool_decide (mode = 0)) && negb (S_ISDIR mode) in
  let report := firstAllowWriteCheck_report env fullPath
                  (if fileExists then FileAccessStatus_Denied
                   else FileAccessStatus_Allowed) in
  let result := AccessCheckResult_make RequestedAccess_Write
                  (if fileExists then ResultAction_Deny else ResultAction_Allow)
                  ReportLevel_Report in
  let outcome := report_firstAllowWriteCheck env fullPath o in
  outcome = match SendReport env report o with
            | Returned _ o' => Returned result o'
            | Fatal e o' => Fatal e o'
            | Overrun o' => Overrun o'
            end
  ∧ cache_ (observer_of outcome) = cache_ o
  ∧ (∃ added, trace_ (observer_of outcome) = trace_ o ++ added ∧ Forall is_channel added)
  ∧ (real_open_found env = true → open_result env ≠ -1 →
     Z.of_nat (length (format_report env report)) < PIPE_BUF - 4 →
     write_result env (open_result env) (Z.of_nat (length (format_report env report)) + 4)
       = Z.of_nat (length (format_report env report)) + 4 →
     ∃ o', outcome = Returned result o'
           ∧ trace_ o' = trace_ o ++
               [ChannelOpen (reports_path env) (open_result env);
                ChannelWrite (open_result env) (whole_message env report)
                  (Z.of_nat (length (format_report env report)) + 4);
                ChannelClose (open_result env)]).
Proof.
  intros mode fileExists report result outcome.
  assert (Hout : outcome = match SendReport env report o with
                           | Returned _ o' => Returned result o'
                           | Fatal e o' => Fatal e o'
                           | Overrun o' => Overrun o'
                           end) by reflexivity.
  split; [exact Hout|].
  destruct (SendReport_frame env report o) as (Hcache & Htrace).
  assert (Hobs : observer_of outcome = observer_of (SendReport env report o)).
  { rewrite Hout. by destruct (SendReport env report o). }
  rewrite Hobs. split; [done|]. split; [done|].
  intros Hopen Hfd Hfit Hw.
  destruct (SendReport_sent env report o) as (o' & Hret & Htr); try done.
  exists o'. rewrite Hout, Hret. done.
Qed.

Lemma report_firstAllowWriteCheck_decision_witness :
  ∃ o', report_firstAllowWriteCheck mixed_env (c_str "/d/f") fresh_observer
        = Returned (AccessCheckResult_make RequestedAccess_Write ResultAction_Deny
                      ReportLevel_Report) o'.
Proof.
  destruct (report_firstAllowWriteCheck_decision mixed_env (c_str "/d/f") fresh_observer)
    as (_ & _ & _ & Hsent).
  destruct Hsent as (o' & Hret & _).
  - reflexivity.
  - discriminate.
  - vm_compute. reflexivity.
  - vm_compute. reflexivity.
  - exists o'. exact Hret.
Defined.

(** C2 as stated fails for an existing directory: ["/out"] exists, and the
    decision is Allow (with status Allowed in the report). *)
Lemma report_firstAllowWriteCheck_existing_directory :
  path_mode mixed_env (c_str "/out") ≠ 0
  ∧ ∃ o', report_firstAllowWriteCheck mixed_env (c_str "/out") fresh_observer
          = Returned (AccessCheckResult_make RequestedAccess_Write ResultAction_Allow
                        ReportLevel_Report) o'.
Proof.
  split; [vm_compute; discriminate|]. eexists. vm_compute. reflexivity.
Qed.

(** C3 (evaluation of the code at the failing input).  With working
    directory ["/d"] and ["/d/l"] a link to ["t"], the relative path ["l"]
    and the flag [O_NOFOLLOW]: [normalize_path_at] leaves the final link
    alone and answers ["/d/l"] with no report, but [report_access_at] hands
    ["/d/t"] to the policy engine after reporting the [readlink] of
    ["/d/l"]: the final link was followed.  Its last call passes [flags]
    where the callee expects [mode] and [mode] where it expects [flags], so
    the resolution sees the flags 0 and the event carries [O_NOFOLLOW] as
    its mode. *)
Theorem report_access_at_follows_despite_O_NOFOLLOW :
  Z.land O_NOFOLLOW O_NOFOLLOW ≠ 0
  ∧ normalize_path_at mixed_env AT_FDCWD (Some (c_str "l")) O_NOFOLLOW fresh_observer
    = Returned (c_str "/d/l") fresh_observer
  ∧ ∃ result o',
      report_access_at mixed_env (c_str "fstatat") ES_EVENT_TYPE_NOTIFY_STAT AT_FDCWD
        (c_str "l") O_NOFOLLOW fresh_observer = Returned result o'
      ∧ policy_paths (trace_ o') = [c_str "/d/l"; c_str "/d/t"]
      ∧ last (trace_ o')
        = Some (PolicyHandleEvent
                  {| event_pid := 42; event_cpid := 0; event_ppid := 1;
                     event_type := ES_EVENT_TYPE_NOTIFY_STAT;
                     event_src_path := c_str "/d/t"; event_dst_path := [];
                     event_executable := c_str "/usr/bin/tool";
                     event_mode := O_NOFOLLOW; event_modified := false |}).
Proof.
  split; [vm_compute; discriminate|]. split; [vm_compute; reflexivity|].
  do 2 eexists. repeat split; vm_compute; reflexivity.
Qed.

(** * Further properties *)
(** * Further properties *)

(** ** AccessCache *)

Lemma IsCacheHit_guard event (secondPath : cstring) o :
  disposed_ o || bool_decide (0 < length secondPath)%nat
  || bool_decide (event = ES_EVENT_TYPE_NOTIFY_FORK)
  || bool_decide (event = ES_EVENT_TYPE_NOTIFY_EXEC)
  || bool_decide (event = ES_EVENT_TYPE_NOTIFY_EXIT) = true
  ↔ disposed_ o = true ∨ secondPath ≠ [] ∨ never_cached event.
Proof.
  unfold never_cached. rewrite !orb_true_iff, !bool_decide_eq_true.
  assert ((0 < length secondPath)%nat ↔ secondPath ≠ []).
  { destruct secondPath; simpl; split; try done; lia. }
  tauto.
Qed.

(** The three ways a call of [IsCacheHit] goes. *)
Lemma IsCacheHit_cases event (p secondPath : cstring) o :
  let key := coalesce event in
  let bypass := disposed_ o = true ∨ secondPath ≠ [] ∨ never_cached event in
  (bypass ∧ IsCacheHit event p secondPath o = Returned false o)
  ∨ (¬ bypass ∧ cacheMtx_ o = true
     ∧ IsCacheHit event p secondPath o
       = Returned false (set_trace (trace_ o ++ [MutexTryLock false]) o))
  ∨ (¬ bypass ∧ cacheMtx_ o = false
     ∧ ∃ access,
         (access = CacheInsert key p ∨ access = CacheSetInsert key p)
         ∧ IsCacheHit event p secondPath o
           = Returned (bool_decide (recorded o key p))
               (set_trace (trace_ o ++ [MutexTryLock true; CacheFind key; access; MutexUnlock])
                  (set_cache (<[key := {[p]} ∪ default ∅ (cache_ o !! key)]> (cache_ o)) o))).
Proof.
  intros key bypass. subst bypass.
  pose proof (IsCacheHit_guard event secondPath o) as Hg.
  unfold IsCacheHit.
  destruct (disposed_ o || bool_decide (0 < length secondPath)%nat
            || bool_decide (event = ES_EVENT_TYPE_NOTIFY_FORK)
            || bool_decide (event = ES_EVENT_TYPE_NOTIFY_EXEC)
            || bool_decide (event = ES_EVENT_TYPE_NOTIFY_EXIT)) eqn:Hc.
  { left. split; [by apply Hg|]. unfold_M. by rewrite Hc. }
  assert (Hnb : ¬ (disposed_ o = true ∨ secondPath ≠ [] ∨ never_cached event)).
  { intros Hb. apply Hg in Hb. discriminate. }
  right. unfold try_lock_for, cache_find, cache_insert, cache_set_insert, unlock.
  unfold_M. rewrite Hc. fold key.
  destruct (cacheMtx_ o) eqn:Hm; simpl.
  { left. done. }
  right. split; [done|]. split; [done|].
  remember (bool_decide (recorded o key p)) as b eqn:Hb.
  assert (Hb' : b = true ↔ recorded o key p) by (subst b; apply bool_decide_eq_true).
  clear Hb. unfold recorded in Hb'.
  destruct o as [d m c t pf tr]. simpl in *. subst m.
  destruct (c !! key) as [set|] eqn:Hk; simpl in *.
  - exists (CacheSetInsert key p). split; [by right|].
    unfold set_trace, set_cache. simpl. f_equal.
    + destruct b.
      * rewrite bool_decide_eq_false_2; [done|]. intros Hn. by apply Hn, Hb'.
      * rewrite bool_decide_eq_true_2; [done|]. intros Hin. by apply Hb' in Hin.
    + f_equal. by rewrite <- !app_assoc.
  - exists (CacheInsert key p). split; [by left|].
    unfold set_trace, set_cache. simpl. f_equal.
    + destruct b; [|done]. exfalso.
      apply (not_elem_of_empty (C:=gset cstring) p), Hb'. done.
    + f_equal; [by rewrite union_empty_r_L | by rewrite <- !app_assoc].
Qed.

(** X1.  The kinds of the first case group share one cache entry: after a
    call for one of them on a path, a call for any of them on that path is
    a hit, whatever [IsCacheHit] calls came in between. *)
Theorem IsCacheHit_write_class_shared (event event' : es_event_type_t) (p : cstring)
    (o : BxlObserver) (calls : list (es_event_type_t * cstring * cstring)) :
  event ∈ write_class → event' ∈ write_class →
  disposed_ o = false → cacheMtx_ o = false →
  coalesce event = ES_EVENT_TYPE_NOTIFY_WRITE
  ∧ coalesce event' = ES_EVENT_TYPE_NOTIFY_WRITE
  ∧ ∃ b o1 o2,
      IsCacheHit event p [] o = Returned b o1
      ∧ IsCacheHit event' p [] (IsCacheHit_calls calls o1) = Returned true o2.
Proof.
  intros Hin Hin' Hd Hm.
  assert (Hw : ∀ e, e ∈ write_class →
                    coalesce e = ES_EVENT_TYPE_NOTIFY_WRITE ∧ ¬ never_cached e).
  { intros e He. unfold write_class in He.
    repeat (apply elem_of_cons in He as [-> | He];
            [split; [reflexivity | intros [H|[H|H]]; discriminate H]|]).
    by apply elem_of_nil in He. }
  destruct (Hw event Hin) as [Hk Hnc]. destruct (Hw event' Hin') as [Hk' Hnc'].
  split; [done|]. split; [done|].
  destruct (IsCacheHit_lookup event p o Hd Hm Hnc) as (o1 & Hcall & Hrec & _).
  destruct (IsCacheHit_returns event p [] o) as (b & o1' & Hcall' & Hd1 & Hm1 & _).
  rewrite Hcall in Hcall'. injection Hcall' as _ <-.
  destruct (IsCacheHit_calls_preserve calls o1) as (Hd2 & Hm2 & Hr2).
  destruct (IsCacheHit_lookup event' p (IsCacheHit_calls calls o1)) as (o2 & Hcall2 & _);
    [congruence | congruence | done |].
  exists (bool_decide (recorded o (coalesce event) p)), o1, o2. split; [done|].
  rewrite Hcall2. f_equal. apply bool_decide_eq_true_2.
  rewrite Hk', <- Hk. by apply Hr2.
Qed.

Lemma IsCacheHit_write_class_shared_witness :
  coalesce ES_EVENT_TYPE_NOTIFY_TRUNCATE = ES_EVENT_TYPE_NOTIFY_WRITE
  ∧ coalesce ES_EVENT_TYPE_NOTIFY_SETACL = ES_EVENT_TYPE_NOTIFY_WRITE
  ∧ ∃ b o1 o2,
      IsCacheHit ES_EVENT_TYPE_NOTIFY_TRUNCATE (c_str "/p") [] fresh_observer
        = Returned b o1
      ∧ IsCacheHit ES_EVENT_TYPE_NOTIFY_SETACL (c_str "/p") []
          (IsCacheHit_calls [(ES_EVENT_TYPE_NOTIFY_STAT, c_str "/q", [])] o1)
        = Returned true o2.
Proof.
  apply (IsCacheHit_write_class_shared ES_EVENT_TYPE_NOTIFY_TRUNCATE
           ES_EVENT_TYPE_NOTIFY_SETACL (c_str "/p") fresh_observer
           [(ES_EVENT_TYPE_NOTIFY_STAT, c_str "/q", [])]).
  - unfold write_class. repeat constructor.
  - unfold write_class. repeat constructor.
  - reflexivity.
  - reflexivity.
Defined.

Lemma IsCacheHit_recorded_after event (p secondPath : cstring) o k q :
  recorded (observer_of (IsCacheHit event p secondPath o)) k q →
  recorded o k q
  ∨ (k = coalesce event ∧ q = p ∧ secondPath = [] ∧ ¬ never_cached event
     ∧ disposed_ o = false ∧ cacheMtx_ o = false).
Proof.
  destruct (IsCacheHit_cases event p secondPath o)
    as [[_ ->] | [(_ & _ & ->) | (Hnb & Hm & access & _ & ->)]]; simpl; auto.
  unfold recorded. simpl.
  destruct (decide (k = coalesce event)) as [->|Hne].
  - rewrite lookup_insert_eq. simpl.
    intros [->%elem_of_singleton | Hin]%elem_of_union; [|by left].
    right. repeat split; try done.
    + destruct secondPath; [done|]. exfalso. apply Hnb. right; left. done.
    + tauto.
    + destruct (disposed_ o); [|done]. exfalso. apply Hnb. by left.
  - rewrite lookup_insert_ne by done. by left.
Qed.

(** X2.  [IsCacheHit] never makes up a hit.  It answers [true] only for a
    pair of key and path that is in the cache, on an observer that is not
    disposed, for an empty second path and a kind that is cached; and a
    pair is in the cache after a sequence of calls only if it was there
    before or one of the calls was for that key and path, with an empty
    second path. *)
Theorem IsCacheHit_no_false_hit :
  (∀ event (p secondPath : cstring) o o',
     IsCacheHit event p secondPath o = Returned true o' →
     recorded o (coalesce event) p ∧ secondPath = [] ∧ ¬ never_cached event
     ∧ disposed_ o = false)
  ∧ (∀ calls o k q,
       recorded (IsCacheHit_calls calls o) k q →
       recorded o k q
       ∨ ∃ event, (event, q, []) ∈ calls ∧ coalesce event = k ∧ ¬ never_cached event).
Proof.
  split.
  - intros event p secondPath o o' Hcall.
    destruct (IsCacheHit_cases event p secondPath o)
      as [[_ H] | [(_ & _ & H) | (Hnb & Hm & access & _ & H)]];
      rewrite H in Hcall; try discriminate.
    injection Hcall as Hb _. apply bool_decide_eq_true in Hb.
    split; [done|]. split; [|split].
    + destruct secondPath; [done|]. exfalso. apply Hnb. right; left. done.
    + tauto.
    + destruct (disposed_ o); [|done]. exfalso. apply Hnb. by left.
  - intros calls. induction calls as [|[[event p] secondPath] calls IH] using rev_ind;
      intros o k q; [by left|].
    unfold IsCacheHit_calls in *. rewrite foldl_app. simpl.
    intros [Hrec | (-> & -> & -> & Hnc & _)]%IsCacheHit_recorded_after.
    + destruct (IH o k q Hrec) as [?|(ev & Hin & ? & ?)]; [by left|].
      right. exists ev. split; [|done]. apply elem_of_app. by left.
    + right. exists event. split; [|done]. apply elem_of_app. right.
      by apply list_elem_of_singleton.
Qed.

Lemma IsCacheHit_no_false_hit_witness :
  recorded (observer_of (IsCacheHit ES_EVENT_TYPE_NOTIFY_STAT (c_str "/p") [] fresh_observer))
    (coalesce ES_EVENT_TYPE_NOTIFY_STAT) (c_str "/p")
  ∧ @nil ascii = [] ∧ ¬ never_cached ES_EVENT_TYPE_NOTIFY_STAT
  ∧ disposed_ (observer_of (IsCacheHit ES_EVENT_TYPE_NOTIFY_STAT (c_str "/p") []
                              fresh_observer)) = false.
Proof.
  destruct IsCacheHit_no_false_hit as [Hhit _].
  apply (Hhit ES_EVENT_TYPE_NOTIFY_STAT (c_str "/p") []
           (observer_of (IsCacheHit ES_EVENT_TYPE_NOTIFY_STAT (c_str "/p") [] fresh_observer))
           (observer_of
              (IsCacheHit ES_EVENT_TYPE_NOTIFY_STAT (c_str "/p") []
                 (observer_of (IsCacheHit ES_EVENT_TYPE_NOTIFY_STAT (c_str "/p") []
                                 fresh_observer))))).
  vm_compute. reflexivity.
Defined.

(** X3.  A call of [IsCacheHit] adds to the trace nothing, or the one
    failed [try_lock_for], or a successful [try_lock_for], one [find], one
    insertion and the [unlock]: the mutex it acquired is released before it
    returns.  The call changes no member but [cache_]. *)
Theorem IsCacheHit_releases_mutex (event : es_event_type_t) (p secondPath : cstring)
    (o : BxlObserver) :
  ∃ b o' added,
    IsCacheHit event p secondPath o = Returned b o'
    ∧ trace_ o' = trace_ o ++ added
    ∧ (added = [] ∨ added = [MutexTryLock false]
       ∨ ∃ access, (access = CacheInsert (coalesce event) p
                    ∨ access = CacheSetInsert (coalesce event) p)
                   ∧ added = [MutexTryLock true; CacheFind (coalesce event); access;
                              MutexUnlock])
    ∧ disposed_ o' = disposed_ o ∧ cacheMtx_ o' = cacheMtx_ o
    ∧ fdTable_ o' = fdTable_ o ∧ progFullPath_ o' = progFullPath_ o.
Proof.
  destruct (IsCacheHit_cases event p secondPath o)
    as [[_ ->] | [(_ & _ & ->) | (Hnb & Hm & access & Hacc & ->)]].
  - exists false, o, []. rewrite app_nil_r. repeat split; auto.
  - eexists _, _, _. repeat split; auto.
  - eexists _, _, _. split; [reflexivity|]. simpl. repeat split; eauto 10.
Qed.

(** ** FileDescriptorTable *)

Lemma read_path_live env fd p :
  symlinks env !! proc_fd_path fd = Some p → (length p < PATH_MAX)%nat →
  read_path env fd = mret p.
Proof.
  intros Hl Hlen. unfold read_path, read_path_for_fd, real_readlink.
  fold (proc_fd_path fd). rewrite Hl. simpl.
  rewrite take_ge by lia. by rewrite bool_decide_eq_false_2 by lia.
Qed.

Lemma read_path_dead env fd :
  symlinks env !! proc_fd_path fd = None → read_path env fd = mret [].
Proof.
  intros Hl. unfold read_path, read_path_for_fd, real_readlink.
  fold (proc_fd_path fd). by rewrite Hl.
Qed.

Lemma fd_to_path_in_range env fd o :
  0 ≤ fd < MAX_FD env →
  fd_to_path env fd o =
    if bool_decide (0 < length (fdTable_entry o fd))%nat
    then Returned (fdTable_entry o fd) o
    else (p ← read_path env fd;
          modify (λ o, set_fdTable (<[fd := p]> (fdTable_ o)) o);; mret p) o.
Proof.
  intros Hr. unfold fd_to_path.
  rewrite (bool_decide_eq_false_2 (fd < 0)), (bool_decide_eq_false_2 (MAX_FD env ≤ fd)) by lia.
  simpl. unfold_M. by destruct (bool_decide _).
Qed.

(** X4.  A descriptor inside the table whose entry is empty is resolved
    through procfs and the answer is stored; from then on [fd_to_path]
    answers the stored path and leaves the observer alone, whatever the
    kernel would answer now. *)
Theorem fd_to_path_cached (env : Env) (fd : Z) (p : cstring) (o : BxlObserver) :
  0 ≤ fd < MAX_FD env → fdTable_entry o fd = [] →
  symlinks env !! proc_fd_path fd = Some p → (0 < length p < PATH_MAX)%nat →
  ∃ o1, fd_to_path env fd o = Returned p o1
        ∧ fdTable_entry o1 fd = p
        ∧ (∀ fd', fd' ≠ fd → fdTable_entry o1 fd' = fdTable_entry o fd')
        ∧ cache_ o1 = cache_ o ∧ trace_ o1 = trace_ o
        ∧ ∀ env', 0 ≤ fd < MAX_FD env' → fd_to_path env' fd o1 = Returned p o1.
Proof.
  intros Hr Hempty Hlive Hlen.
  rewrite fd_to_path_in_range by done. rewrite Hempty. simpl.
  rewrite (read_path_live env fd p) by (done || lia). unfold_M. simpl.
  eexists. split; [reflexivity|].
  assert (He : fdTable_entry (set_fdTable (<[fd:=p]> (fdTable_ o)) o) fd = p).
  { unfold fdTable_entry. simpl. by rewrite lookup_insert_eq. }
  split; [done|]. split.
  { intros fd' Hne. unfold fdTable_entry. simpl. by rewrite lookup_insert_ne. }
  split; [done|]. split; [done|].
  intros env' Hr'. rewrite fd_to_path_in_range by done. rewrite He.
  by rewrite bool_decide_eq_true_2 by lia.
Qed.

Lemma fd_to_path_cached_witness :
  ∃ o1, fd_to_path (sample_env [("/proc/self/fd/7", "/d/f")]%string (λ _, 0) (λ _, 0) (λ n, n))
          7 fresh_observer = Returned (c_str "/d/f") o1
        ∧ fd_to_path plain_env 7 o1 = Returned (c_str "/d/f") o1.
Proof.
  destruct (fd_to_path_cached
              (sample_env [("/proc/self/fd/7", "/d/f")]%string (λ _, 0) (λ _, 0) (λ n, n))
              7 (c_str "/d/f") fresh_observer) as (o1 & Hcall & _ & _ & _ & _ & Hlater).
  - vm_compute. split; [discriminate | reflexivity].
  - reflexivity.
  - vm_compute. reflexivity.
  - vm_compute. lia.
  - exists o1. split; [exact Hcall|]. apply Hlater.
    vm_compute. split; [discriminate | reflexivity].
Defined.

(** X5.  A descriptor below 0 or from [MAX_FD] on never touches the table:
    [fd_to_path] is the procfs query and leaves the observer as it was, and
    [reset_fd_table_entry] does nothing. *)
Theorem fd_table_out_of_range (env : Env) (fd : Z) (o : BxlObserver) :
  fd < 0 ∨ MAX_FD env ≤ fd →
  fd_to_path env fd o = read_path env fd o
  ∧ observer_of (fd_to_path env fd o) = o
  ∧ reset_fd_table_entry env fd o = Returned tt o.
Proof.
  intros Hr. unfold fd_to_path, reset_fd_table_entry.
  assert (Hc : bool_decide (fd < 0) || bool_decide (MAX_FD env ≤ fd) = true).
  { apply orb_true_iff. rewrite !bool_decide_eq_true. done. }
  assert (Hc' : bool_decide (0 ≤ fd) && bool_decide (fd < MAX_FD env) = false).
  { apply andb_false_iff. rewrite !bool_decide_eq_false. lia. }
  rewrite Hc, Hc'. split; [done|]. split; [|done].
  clear Hc Hc'. unfold read_path.
  destruct (read_path_for_fd env fd PATH_MAX); [|done]. by case_bool_decide.
Qed.

Lemma fd_table_out_of_range_witness :
  fd_to_path mixed_env 5000 fresh_observer = read_path mixed_env 5000 fresh_observer
  ∧ observer_of (fd_to_path mixed_env 5000 fresh_observer) = fresh_observer
  ∧ reset_fd_table_entry mixed_env 5000 fresh_observer = Returned tt fresh_observer.
Proof.
  apply (fd_table_out_of_range mixed_env 5000 fresh_observer).
  right. vm_compute. discriminate.
Defined.

(** X6.  After [reset_fd_table_entry] on a descriptor inside the table, the
    entry is empty and the others are as before, whatever was stored; the
    next [fd_to_path] asks procfs again and answers what it finds there:
    the link target, or the empty string when [readlink] fails. *)
Theorem reset_fd_table_entry_requeries (env : Env) (fd : Z) (o : BxlObserver) :
  0 ≤ fd < MAX_FD env →
  ∃ o1, reset_fd_table_entry env fd o = Returned tt o1
        ∧ fdTable_entry o1 fd = []
        ∧ (∀ fd', fd' ≠ fd → fdTable_entry o1 fd' = fdTable_entry o fd')
        ∧ (∀ p, symlinks env !! proc_fd_path fd = Some p → (length p < PATH_MAX)%nat →
                ∃ o2, fd_to_path env fd o1 = Returned p o2 ∧ fdTable_entry o2 fd = p)
        ∧ (symlinks env !! proc_fd_path fd = None →
           ∃ o2, fd_to_path env fd o1 = Returned [] o2 ∧ fdTable_entry o2 fd = []).
Proof.
  intros Hr. unfold reset_fd_table_entry.
  rewrite (bool_decide_eq_true_2 (0 ≤ fd)), (bool_decide_eq_true_2 (fd < MAX_FD env)) by lia.
  simpl. unfold_M. eexists. split; [reflexivity|].
  set (o1 := set_fdTable _ o).
  assert (He : fdTable_entry o1 fd = []).
  { unfold fdTable_entry, o1. simpl. by rewrite lookup_insert_eq. }
  split; [done|]. split.
  { intros fd' Hne. unfold fdTable_entry, o1. simpl. by rewrite lookup_insert_ne. }
  split.
  - intros p Hlive Hlen. rewrite fd_to_path_in_range by done. rewrite He. simpl.
    rewrite (read_path_live env fd p) by done. unfold_M. simpl.
    eexists. split; [reflexivity|]. unfold fdTable_entry. simpl.
    by rewrite lookup_insert_eq.
  - intros Hdead. rewrite fd_to_path_in_range by done. rewrite He. simpl.
    rewrite (read_path_dead env fd) by done. unfold_M. simpl.
    eexists. split; [reflexivity|]. unfold fdTable_entry. simpl.
    by rewrite lookup_insert_eq.
Qed.

Lemma reset_fd_table_entry_requeries_witness :
  ∃ o1, reset_fd_table_entry mixed_env 7 fresh_observer = Returned tt o1
        ∧ fdTable_entry o1 7 = [].
Proof.
  destruct (reset_fd_table_entry_requeries mixed_env 7 fresh_observer)
    as (o1 & Hcall & He & _).
  - vm_compute. split; [discriminate | reflexivity].
  - exists o1. split; [exact Hcall | exact He].
Defined.

Lemma reset_all_lookup (t : gmap Z cstring) (l : list Z) (j : Z) :
  foldl (λ t i, <[i := []]> t) t l !! j = if bool_decide (j ∈ l) then Some [] else t !! j.
Proof.
  revert t. induction l as [|i l IH]; intros t; simpl; [done|].
  rewrite IH. destruct (decide (j ∈ l)) as [Hin|Hnin].
  - rewrite !bool_decide_eq_true_2; [done | by right | done].
  - rewrite (bool_decide_eq_false_2 (j ∈ l)) by done.
    destruct (decide (j = i)) as [->|Hne].
    + rewrite lookup_insert_eq. by rewrite bool_decide_eq_true_2 by left.
    + rewrite lookup_insert_ne by done.
      rewrite bool_decide_eq_false_2; [done|].
      intros [->|?]%elem_of_cons; done.
Qed.

(** X7.  After [reset_fd_table] every entry of the table is empty, so for
    every descriptor the next [fd_to_path] is answered by procfs; nothing
    but the table changes. *)
Theorem reset_fd_table_clears (env : Env) (o : BxlObserver) :
  ∃ o1, reset_fd_table env o = Returned tt o1
        ∧ (∀ fd, 0 ≤ fd < MAX_FD env → fdTable_entry o1 fd = [])
        ∧ (∀ fd p, symlinks env !! proc_fd_path fd = Some p → (length p < PATH_MAX)%nat →
                   ∃ o2, fd_to_path env fd o1 = Returned p o2)
        ∧ cache_ o1 = cache_ o ∧ trace_ o1 = trace_ o ∧ disposed_ o1 = disposed_ o.
Proof.
  unfold reset_fd_table. unfold_M. eexists. split; [reflexivity|].
  set (o1 := set_fdTable _ o).
  assert (He : ∀ fd, 0 ≤ fd < MAX_FD env → fdTable_entry o1 fd = []).
  { intros fd Hr. unfold fdTable_entry, o1. simpl. rewrite reset_all_lookup.
    rewrite bool_decide_eq_true_2; [done|]. apply elem_of_seqZ. lia. }
  split; [done|]. split; [|done].
  intros fd p Hlive Hlen.
  destruct (decide (0 ≤ fd < MAX_FD env)) as [Hr|Hr].
  - rewrite fd_to_path_in_range by done. rewrite He by done. simpl.
    rewrite (read_path_live env fd p) by done. unfold_M. simpl. by eexists.
  - unfold fd_to_path.
    assert (Hc : bool_decide (fd < 0) || bool_decide (MAX_FD env ≤ fd) = true).
    { apply orb_true_iff. rewrite !bool_decide_eq_true. lia. }
    rewrite Hc, (read_path_live env fd p) by done. by eexists.
Qed.

(** ** ReportChannel *)

(** When [Send] returns. *)
Lemma Send_returned env buf bufsiz o b o' :
  Send env buf bufsiz o = Returned b o' →
  b = true ∧ real_open_found env = true ∧ bufsiz ≤ PIPE_BUF ∧ open_result env ≠ -1
  ∧ ¬ to_size_t (write_result env (open_result env) bufsiz) < bufsiz
  ∧ o' = set_trace
           (trace_ o ++ [ChannelOpen (reports_path env) (open_result env);
                         ChannelWrite (open_result env) (take (Z.to_nat bufsiz) buf)
                           (write_result env (open_result env) bufsiz);
                         ChannelClose (open_result env)])
           (if bool_decide (0 ≤ open_result env) && bool_decide (open_result env < MAX_FD env)
            then set_fdTable (<[open_result env := []]> (fdTable_ o)) o else o).
Proof.
  unfold Send, reset_fd_table_entry. unfold_M.
  destruct (real_open_found env); simpl; [|discriminate].
  case_bool_decide as Hbig; simpl; [discriminate|].
  case_bool_decide as Hfd; simpl; [discriminate|].
  case_bool_decide as Hshort; simpl; [discriminate|].
  destruct (bool_decide (0 ≤ open_result env) && bool_decide (open_result env < MAX_FD env));
    simpl; intros [= <- <-]; repeat split; try done; try lia;
    unfold set_trace; simpl; by rewrite <- !app_assoc.
Qed.

(** X8.  [Send] returns only [true], and only after one open of the
    reports file, one write of the whole request, of at most [PIPE_BUF]
    bytes, and one close.  The table entry of the descriptor it used is
    empty afterwards (when the descriptor is inside the table); the other
    entries and the cache are as before. *)
Theorem Send_returns_after_one_write (env : Env) (buf : list ascii) (bufsiz : Z)
    (o o' : BxlObserver) (b : bool) :
  Send env buf bufsiz o = Returned b o' →
  b = true ∧ bufsiz ≤ PIPE_BUF
  ∧ trace_ o' = trace_ o ++ [ChannelOpen (reports_path env) (open_result env);
                             ChannelWrite (open_result env) (take (Z.to_nat bufsiz) buf)
                               (write_result env (open_result env) bufsiz);
                             ChannelClose (open_result env)]
  ∧ (0 ≤ open_result env < MAX_FD env → fdTable_entry o' (open_result env) = [])
  ∧ (∀ fd, fd ≠ open_result env → fdTable_entry o' fd = fdTable_entry o fd)
  ∧ cache_ o' = cache_ o.
Proof.
  intros (-> & _ & Hsz & _ & _ & ->)%Send_returned.
  split; [done|]. split; [done|]. split; [done|].
  destruct (bool_decide (0 ≤ open_result env) && bool_decide (open_result env < MAX_FD env))
    eqn:Hr; simpl.
  - split; [|split; [|done]].
    + intros _. unfold fdTable_entry. simpl. by rewrite lookup_insert_eq.
    + intros fd Hne. unfold fdTable_entry. simpl. by rewrite lookup_insert_ne.
  - split; [|done]. intros Hin. exfalso.
    apply andb_false_iff in Hr. rewrite !bool_decide_eq_false in Hr. lia.
Qed.

Lemma Send_returns_after_one_write_witness :
  true = true ∧ 3 ≤ PIPE_BUF
  ∧ trace_ (observer_of (Send plain_env (c_str "abc") 3
                           (set_fdTable {[3 := c_str "/stale"]} fresh_observer)))
    = trace_ (set_fdTable {[3 := c_str "/stale"]} fresh_observer)
      ++ [ChannelOpen (reports_path plain_env) (open_result plain_env);
          ChannelWrite (open_result plain_env) (take (Z.to_nat 3) (c_str "abc"))
            (write_result plain_env (open_result plain_env) 3);
          ChannelClose (open_result plain_env)].
Proof.
  destruct (Send_returns_after_one_write plain_env (c_str "abc") 3
              (set_fdTable {[3 := c_str "/stale"]} fresh_observer)
              (observer_of (Send plain_env (c_str "abc") 3
                              (set_fdTable {[3 := c_str "/stale"]} fresh_observer)))
              true) as (H1 & H2 & H3 & _).
  - vm_compute. reflexivity.
  - split; [exact H1|]. split; [exact H2 | exact H3].
Defined.

(** X9.  The test for a short write compares the [ssize_t] result with the
    [size_t] request as unsigned numbers, so the result [-1] of a failed
    write is not below any request: [Send] goes on to close the descriptor
    and returns [true]. *)
Theorem Send_failed_write_returns_true (env : Env) (buf : list ascii) (bufsiz : Z)
    (o : BxlObserver) :
  real_open_found env = true → 0 ≤ bufsiz ≤ PIPE_BUF → open_result env ≠ -1 →
  write_result env (open_result env) bufsiz = -1 →
  ∃ o', Send env buf bufsiz o = Returned true o'
        ∧ last (trace_ o') = Some (ChannelClose (open_result env)).
Proof.
  intros Hopen Hsz Hfd Hw. unfold Send, reset_fd_table_entry. unfold_M.
  rewrite Hopen. simpl.
  rewrite bool_decide_eq_false_2 by lia.
  rewrite bool_decide_eq_false_2 by done. rewrite Hw.
  rewrite bool_decide_eq_false_2.
  2:{ unfold to_size_t, PIPE_BUF in *. change (-1 mod 2 ^ 64) with 18446744073709551615.
      lia. }
  destruct (_ && _); simpl; eexists; (split; [reflexivity|]); simpl; by rewrite last_snoc.
Qed.

Lemma Send_failed_write_returns_true_witness :
  ∃ o', Send (sample_env [] (λ _, 0) (λ _, 0) (λ _, -1)) (c_str "abc") 3 fresh_observer
          = Returned true o'
        ∧ last (trace_ o') = Some (ChannelClose 3).
Proof.
  apply (Send_failed_write_returns_true (sample_env [] (λ _, 0) (λ _, 0) (λ _, -1))
           (c_str "abc") 3 fresh_observer).
  - reflexivity.
  - vm_compute. split; discriminate.
  - discriminate.
  - reflexivity.
Defined.

Lemma uint_of_bytes_uint_bytes (n : Z) :
  0 ≤ n < 2 ^ 32 → uint_of_bytes (uint_bytes n) = n.
Proof.
  intros Hn. unfold uint_of_bytes, uint_bytes. simpl.
  assert (Hbyte : ∀ x, 0 ≤ x < 256 → Z.of_N (N_of_ascii (ascii_of_N (Z.to_N x))) = x).
  { intros x Hx. rewrite N_ascii_embedding by lia. lia. }
  rewrite !Hbyte by (apply Z.mod_pos_bound; lia).
  change (256 ^ 0) with 1. change (256 ^ 1) with 256.
  change (256 ^ 2) with 65536. change (256 ^ 3) with 16777216.
  change (2 ^ 32) with 4294967296 in Hn.
  Z.div_mod_to_equations. lia.
Qed.

(** X10.  The wire format.  When [SendReport] returns for a report it
    serializes, it made exactly one write; the bytes of that write are at
    most [PIPE_BUF], their first four are the little-endian count of the
    bytes that follow, and those are the text of the report, which ends
    with the newline. *)
Theorem SendReport_wire_format (env : Env) (report : AccessReport) (o o' : BxlObserver)
    (b : bool) :
  operation report ≠ kOpProcessTreeCompleted →
  SendReport env report o = Returned b o' →
  ∃ bytes written,
    trace_ o' = trace_ o ++ [ChannelOpen (reports_path env) (open_result env);
                             ChannelWrite (open_result env) bytes written;
                             ChannelClose (open_result env)]
    ∧ Z.of_nat (length bytes) ≤ PIPE_BUF
    ∧ uint_of_bytes (take 4 bytes) = Z.of_nat (length (drop 4 bytes))
    ∧ drop 4 bytes = format_report env report
    ∧ last bytes = Some "010"%char.
Proof.
  intros Hop Hcall. rewrite SendReport_unfold in Hcall by done.
  case_bool_decide as Hcut; [discriminate|].
  apply Send_returned in Hcall as (_ & _ & Hsz & _ & _ & ->).
  eexists _, _. split; [reflexivity|].
  rewrite SendReport_buffer.
  2:{ rewrite length_replicate. unfold PIPE_BUF. lia. }
  2:{ lia. }
  set (text := format_report env report) in *.
  rewrite take_app_length' by done. rewrite drop_app_length' by done.
  split; [rewrite length_app, length_uint_bytes; lia|].
  split; [apply uint_of_bytes_uint_bytes; unfold PIPE_BUF in *; lia|].
  split; [done|].
  subst text. unfold format_report, NEWLINE. rewrite !app_assoc. by rewrite last_snoc.
Qed.

Lemma SendReport_wire_format_witness :
  ∃ bytes written,
    trace_ (observer_of (SendReport plain_env (sample_report (kOpOther 9) (c_str "/p"))
                           fresh_observer))
    = trace_ fresh_observer ++ [ChannelOpen (reports_path plain_env) (open_result plain_env);
                                ChannelWrite (open_result plain_env) bytes written;
                                ChannelClose (open_result plain_env)]
    ∧ Z.of_nat (length bytes) ≤ PIPE_BUF
    ∧ uint_of_bytes (take 4 bytes) = Z.of_nat (length (drop 4 bytes))
    ∧ drop 4 bytes = format_report plain_env (sample_report (kOpOther 9) (c_str "/p"))
    ∧ last bytes = Some "010"%char.
Proof.
  apply (SendReport_wire_format plain_env (sample_report (kOpOther 9) (c_str "/p"))
           fresh_observer _ true).
  - discriminate.
  - vm_compute. reflexivity.
Defined.

(** ** AccessMediator *)

(** [report_access] in terms of the answer of [IsCacheHit]. *)
Lemma report_access_unfold env syscallName eventType (reportPath secondPath : cstring)
    mode o :
  report_access env syscallName eventType reportPath secondPath mode o =
    match IsCacheHit eventType reportPath secondPath o with
    | Returned true o1 => Returned sNotChecked o1
    | Returned false o1 =>
        let event := access_event env o1 eventType reportPath secondPath mode in
        if is_enabled env
        then Returned (HandleEvent env event)
               (set_trace (trace_ o1 ++ [PolicyHandleEvent event]) o1)
        else Returned sNotChecked o1
    | Fatal e o1 => Fatal e o1
    | Overrun o1 => Overrun o1
    end.
Proof.
  unfold report_access, report_access_event. unfold_M.
  destruct (IsCacheHit eventType reportPath secondPath o) as [[|] o1| |]; try done.
  simpl. unfold access_event. by destruct (is_enabled env).
Qed.

Lemma policy_paths_app t1 t2 : policy_paths (t1 ++ t2) = policy_paths t1 ++ policy_paths t2.
Proof. unfold policy_paths. apply omap_app. Qed.

(** A [report_access] call keeps the disposed flag and the mutex, and
    removes nothing from the cache. *)
Lemma report_access_preserves env syscallName eventType (p secondPath : cstring) mode o :
  let o' := observer_of (report_access env syscallName eventType p secondPath mode o) in
  disposed_ o' = disposed_ o ∧ cacheMtx_ o' = cacheMtx_ o
  ∧ ∀ k q, recorded o k q → recorded o' k q.
Proof.
  rewrite report_access_unfold.
  destruct (IsCacheHit_returns eventType p secondPath o) as (b & o1 & -> & Hd & Hm & Hrec).
  destruct b; [done|]. simpl. by destruct (is_enabled env).
Qed.

Lemma report_access_calls_preserve env calls o :
  disposed_ (report_access_calls env calls o) = disposed_ o
  ∧ cacheMtx_ (report_access_calls env calls o) = cacheMtx_ o
  ∧ ∀ k q, recorded o k q → recorded (report_access_calls env calls o) k q.
Proof.
  revert o. induction calls as [|[[[[syscallName eventType] p] secondPath] mode] calls IH];
    intros o; [done|].
  unfold report_access_calls in *. simpl.
  destruct (report_access_preserves env syscallName eventType p secondPath mode o)
    as (Hd & Hm & Hrec).
  destruct (IH (observer_of (report_access env syscallName eventType p secondPath mode o)))
    as (Hd' & Hm' & Hrec').
  split; [congruence|]. split; [congruence|]. intros k q Hk. by apply Hrec', Hrec.
Qed.

(** X11.  The policy engine sees a pair of key and path at most once: after
    a [report_access] for a kind that is cached, every later [report_access]
    for the same key and path, whatever [report_access] calls came in
    between, returns [sNotChecked] and hands nothing to the policy engine,
    whatever its call name and mode. *)
Theorem report_access_deduplicates (env : Env) (syscallName : cstring)
    (event event' : es_event_type_t) (p : cstring) (mode : Z) (o : BxlObserver) :
  disposed_ o = false → cacheMtx_ o = false → ¬ never_cached event →
  coalesce event' = coalesce event →
  ∃ result o1,
    report_access env syscallName event p [] mode o = Returned result o1
    ∧ ∀ calls syscallName' mode', ∃ o2,
        report_access env syscallName' event' p [] mode' (report_access_calls env calls o1)
        = Returned sNotChecked o2
        ∧ policy_paths (trace_ o2) = policy_paths (trace_ (report_access_calls env calls o1)).
Proof.
  intros Hd Hm Hnc Hkey.
  assert (Hnc' : ¬ never_cached event').
  { intros Hn. by apply Hnc, (coalesce_never_cached event event'). }
  destruct (IsCacheHit_lookup event p o Hd Hm Hnc) as (o0 & Hcall & Hrec & _).
  destruct (IsCacheHit_returns event p [] o) as (b & o0' & Hcall' & Hd0 & Hm0 & _).
  rewrite Hcall in Hcall'. injection Hcall' as _ <-.
  assert (Hfirst : ∃ result o1,
            report_access env syscallName event p [] mode o = Returned result o1
            ∧ disposed_ o1 = false ∧ cacheMtx_ o1 = false
            ∧ recorded o1 (coalesce event) p).
  { rewrite report_access_unfold, Hcall.
    destruct (bool_decide (recorded o (coalesce event) p)).
    - exists sNotChecked, o0. repeat split; congruence.
    - simpl. destruct (is_enabled env); eexists _, _; (split; [reflexivity|]);
        unfold recorded in *; simpl; repeat split; congruence. }
  destruct Hfirst as (result & o1 & Hret & Hd1 & Hm1 & Hrec1).
  exists result, o1. split; [done|]. intros calls syscallName' mode'.
  destruct (report_access_calls_preserve env calls o1) as (Hd2 & Hm2 & Hrec2).
  set (o2 := report_access_calls env calls o1) in *.
  rewrite report_access_unfold.
  destruct (IsCacheHit_cases event' p [] o2)
    as [[Hb _] | [(_ & Hheld & _) | (_ & _ & access & Hacc & ->)]].
  - exfalso. destruct Hb as [?|[?|?]]; [congruence | done | done].
  - congruence.
  - rewrite Hkey, bool_decide_eq_true_2 by (by apply Hrec2).
    eexists. split; [reflexivity|].
    simpl. rewrite policy_paths_app.
    destruct Hacc as [-> | ->]; simpl; by rewrite app_nil_r.
Qed.

Lemma report_access_deduplicates_witness :
  ∃ result o1,
    report_access mixed_env (c_str "stat") ES_EVENT_TYPE_NOTIFY_STAT (c_str "/d/f") [] 0
      fresh_observer = Returned result o1
    ∧ ∀ calls syscallName' mode', ∃ o2,
        report_access mixed_env syscallName' ES_EVENT_TYPE_NOTIFY_STAT (c_str "/d/f") []
          mode' (report_access_calls mixed_env calls o1) = Returned sNotChecked o2
        ∧ policy_paths (trace_ o2)
          = policy_paths (trace_ (report_access_calls mixed_env calls o1)).
Proof.
  apply (report_access_deduplicates mixed_env (c_str "stat") ES_EVENT_TYPE_NOTIFY_STAT
           ES_EVENT_TYPE_NOTIFY_STAT (c_str "/d/f") 0 fresh_observer); try reflexivity.
  unfold never_cached. intros [H|[H|H]]; discriminate H.
Defined.

(** A call the cache is bypassed for, with mediation enabled. *)
Lemma report_access_bypassed env syscallName eventType (reportPath secondPath : cstring)
    mode o :
  secondPath ≠ [] ∨ never_cached eventType → is_enabled env = true →
  report_access env syscallName eventType reportPath secondPath mode o
  = Returned (HandleEvent env (access_event env o eventType reportPath secondPath mode))
      (set_trace (trace_ o ++ [PolicyHandleEvent
                                 (access_event env o eventType reportPath secondPath mode)]) o).
Proof.
  intros Hby Hen. rewrite report_access_unfold.
  destruct (IsCacheHit_cases eventType reportPath secondPath o)
    as [[_ ->] | [(Hnb & _) | (Hnb & _)]]; [|exfalso; apply Hnb; tauto..].
  by rewrite Hen.
Qed.

(** X12.  Fork, exec and exit events, and events with a second path, are
    handed to the policy engine every time (when mediation is enabled), on
    a disposed observer too: [report_access] returns the verdict of
    [HandleEvent] as it is and changes nothing but the trace.  For an exec
    event the executable of the event is the reported path itself, for the
    other kinds the path of the running program. *)
Theorem report_access_never_suppressed (env : Env) (syscallName : cstring)
    (eventType : es_event_type_t) (reportPath secondPath : cstring) (mode : Z)
    (o : BxlObserver) :
  secondPath ≠ [] ∨ never_cached eventType → is_enabled env = true →
  let event := access_event env o eventType reportPath secondPath mode in
  report_access env syscallName eventType reportPath secondPath mode o
  = Returned (HandleEvent env event) (set_trace (trace_ o ++ [PolicyHandleEvent event]) o)
  ∧ (eventType = ES_EVENT_TYPE_NOTIFY_EXEC → event_executable event = reportPath)
  ∧ (eventType ≠ ES_EVENT_TYPE_NOTIFY_EXEC → event_executable event = progFullPath_ o).
Proof.
  intros Hby Hen event. split.
  - by apply report_access_bypassed.
  - subst event. unfold access_event. simpl. split; intros H.
    + by rewrite bool_decide_eq_true_2.
    + by rewrite bool_decide_eq_false_2.
Qed.

Lemma report_access_never_suppressed_witness :
  report_access mixed_env (c_str "execve") ES_EVENT_TYPE_NOTIFY_EXEC (c_str "/d/f") [] 0
    fresh_observer
  = Returned
      (HandleEvent mixed_env
         (access_event mixed_env fresh_observer ES_EVENT_TYPE_NOTIFY_EXEC (c_str "/d/f") [] 0))
      (set_trace
         [PolicyHandleEvent
            (access_event mixed_env fresh_observer ES_EVENT_TYPE_NOTIFY_EXEC (c_str "/d/f") []
               0)]
         fresh_observer).
Proof.
  apply (report_access_never_suppressed mixed_env (c_str "execve") ES_EVENT_TYPE_NOTIFY_EXEC
           (c_str "/d/f") [] 0 fresh_observer).
  - right. right. left. reflexivity.
  - reflexivity.
Defined.

(** X13.  With mediation disabled, [report_access] and the overload that
    takes an event return [sNotChecked] and hand nothing to the policy
    engine; the cache is still consulted and filled. *)
Theorem report_access_disabled (env : Env) (syscallName : cstring)
    (eventType : es_event_type_t) (reportPath secondPath : cstring) (mode : Z)
    (event : IOEvent) (checkCache : bool) (o : BxlObserver) :
  is_enabled env = false →
  (∃ o', report_access env syscallName eventType reportPath secondPath mode o
           = Returned sNotChecked o'
         ∧ policy_paths (trace_ o') = policy_paths (trace_ o)
         ∧ o' = observer_of (IsCacheHit eventType reportPath secondPath o))
  ∧ (∃ o', report_access_event env syscallName event checkCache o = Returned sNotChecked o'
           ∧ policy_paths (trace_ o') = policy_paths (trace_ o)).
Proof.
  intros Hen.
  assert (Hpol : ∀ ev (p sp : cstring) o0,
            policy_paths (trace_ (observer_of (IsCacheHit ev p sp o0)))
            = policy_paths (trace_ o0)).
  { intros ev p sp o0.
    destruct (IsCacheHit_cases ev p sp o0)
      as [[_ ->] | [(_ & _ & ->) | (_ & _ & access & Hacc & ->)]]; simpl; [done|..];
      rewrite policy_paths_app; [by rewrite app_nil_r|].
    destruct Hacc as [-> | ->]; simpl; by rewrite app_nil_r. }
  split.
  - rewrite report_access_unfold. specialize (Hpol eventType reportPath secondPath o).
    destruct (IsCacheHit_returns eventType reportPath secondPath o) as (b & o1 & Hc & _).
    rewrite Hc in *. simpl in Hpol. rewrite Hen.
    exists o1. by destruct b.
  - unfold report_access_event. unfold_M. destruct checkCache.
    + specialize (Hpol (event_type event) (event_src_path event) (event_dst_path event) o).
      destruct (IsCacheHit_returns (event_type event) (event_src_path event)
                  (event_dst_path event) o) as (b & o1 & Hc & _).
      rewrite Hc in *. simpl in Hpol. rewrite Hen. exists o1. by destruct b.
    + rewrite Hen. by exists o.
Qed.

Lemma report_access_disabled_witness :
  (∃ o', report_access (set_is_enabled false mixed_env) (c_str "stat")
           ES_EVENT_TYPE_NOTIFY_STAT (c_str "/d/f") [] 0 fresh_observer
           = Returned sNotChecked o'
         ∧ policy_paths (trace_ o') = policy_paths (trace_ fresh_observer)
         ∧ o' = observer_of (IsCacheHit ES_EVENT_TYPE_NOTIFY_STAT (c_str "/d/f") []
                               fresh_observer))
  ∧ (∃ o', report_access_event (set_is_enabled false mixed_env) (c_str "readlink")
             readlink_x_event true fresh_observer = Returned sNotChecked o'
           ∧ policy_paths (trace_ o') = policy_paths (trace_ fresh_observer)).
Proof.
  apply (report_access_disabled (set_is_enabled false mixed_env) (c_str "stat")
           ES_EVENT_TYPE_NOTIFY_STAT (c_str "/d/f") [] 0 readlink_x_event true
           fresh_observer).
  reflexivity.
Defined.

(** X14.  [report_exec] does nothing when child processes are not
    monitored.  Otherwise, with mediation enabled, it hands two exec events
    to the policy engine, neither of them looked up in the cache: the first
    has the process name as given for its path and its executable, and the
    second, built once [normalize_path] has returned, has the normalised
    path of the file.  When normalisation stops the program, the first
    event has been handed over already. *)
Theorem report_exec_two_events (env : Env) (mode0 mode flags : Z)
    (syscallName procName file : cstring) (o : BxlObserver) :
  is_enabled env = true →
  let first := access_event env o ES_EVENT_TYPE_NOTIFY_EXEC procName [] mode0 in
  let o1 := set_trace (trace_ o ++ [PolicyHandleEvent first]) o in
  report_exec env false mode0 mode flags syscallName procName file o = Returned tt o
  ∧ event_src_path first = procName ∧ event_executable first = procName
  ∧ report_exec env true mode0 mode flags syscallName procName file o
    = match normalize_path env file flags o1 with
      | Returned p o2 =>
          Returned tt
            (set_trace (trace_ o2 ++ [PolicyHandleEvent
                                        (access_event env o2 ES_EVENT_TYPE_NOTIFY_EXEC p [] mode)])
               o2)
      | Fatal e o2 => Fatal e o2
      | Overrun o2 => Overrun o2
      end.
Proof.
  intros Hen first o1. split; [done|]. split; [done|]. split; [done|].
  assert (Hexec : [] ≠ @nil ascii ∨ never_cached ES_EVENT_TYPE_NOTIFY_EXEC).
  { right. right. by left. }
  unfold report_exec, report_access_pathname.
  change (?m ;; ?k) with (mbind (λ _, k) m). unfold mbind, M_bind at 1.
  rewrite (report_access_bypassed env syscallName _ procName [] mode0 o Hexec Hen).
  fold first. fold o1. unfold mbind, M_bind.
  destruct (normalize_path env file flags o1) as [p o2|e o2|o2]; try done.
  by rewrite (report_access_bypassed env syscallName _ p [] mode o2 Hexec Hen).
Qed.

Lemma report_exec_two_events_witness :
  report_exec mixed_env true 0 0 0 (c_str "execve") (c_str "sh") (c_str "/d/f") fresh_observer
  = Returned tt
      (set_trace
         [PolicyHandleEvent
            (access_event mixed_env fresh_observer ES_EVENT_TYPE_NOTIFY_EXEC (c_str "sh") [] 0);
          PolicyHandleEvent
            (access_event mixed_env fresh_observer ES_EVENT_TYPE_NOTIFY_EXEC (c_str "/d/f") []
               0)]
         fresh_observer).
Proof.
  destruct (report_exec_two_events mixed_env 0 0 0 (c_str "execve") (c_str "sh") (c_str "/d/f")
              fresh_observer) as (_ & _ & _ & ->).
  - reflexivity.
  - vm_compute. reflexivity.
Defined.

(** X15.  What [report_access_at] does for a relative path when the
    reference directory cannot be determined.  With the [AT_FDCWD]
    sentinel and a failing [getcwd] it returns [sNotChecked] and leaves the
    observer alone, where [normalize_path_at] on the same arguments stops
    the program.  With a descriptor for which both [fstat] and the procfs
    lookup fail (a closed descriptor, say) and no table entry, it stops the
    program with [Fatal_could_not_get_path_for_fd]: the unknown mode passes
    the non-file screen. *)
Theorem report_access_at_no_reference (env : Env) (syscallName : cstring)
    (eventType : es_event_type_t) (dirfd : Z) (pathname : cstring) (flags : Z)
    (o : BxlObserver) :
  char_at pathname 0 ≠ SLASH →
  (getcwd env PATH_MAX = None →
     report_access_at env syscallName eventType AT_FDCWD pathname flags o
     = Returned sNotChecked o
     ∧ normalize_path_at env AT_FDCWD (Some pathname) flags o
       = Fatal Fatal_could_not_get_cwd o)
  ∧ (dirfd ≠ AT_FDCWD → fd_mode env dirfd = 0 →
     symlinks env !! proc_fd_path dirfd = None → fdTable_entry o dirfd = [] →
     ∃ o', report_access_at env syscallName eventType dirfd pathname flags o
           = Fatal Fatal_could_not_get_path_for_fd o'
           ∧ trace_ o' = trace_ o ∧ cache_ o' = cache_ o).
Proof.
  intros Hrel. split.
  - intros Hcwd. unfold report_access_at, normalize_path_at.
    rewrite (bool_decide_eq_false_2 _ Hrel).
    rewrite (bool_decide_eq_true_2 (AT_FDCWD = AT_FDCWD)) by done.
    rewrite Hcwd. by unfold_M.
  - intros Hfd Hmode Hdead Hentry. unfold report_access_at.
    rewrite (bool_decide_eq_false_2 _ Hrel), (bool_decide_eq_false_2 _ Hfd), Hmode.
    change (is_non_file 0) with false. cbv iota.
    unfold fd_to_path. rewrite (read_path_dead env dirfd Hdead).
    destruct (bool_decide (dirfd < 0) || bool_decide (MAX_FD env ≤ dirfd)).
    + exists o. unfold strcpy_PATH_MAX. unfold_M. by simpl.
    + eexists. unfold strcpy_PATH_MAX. unfold_M. rewrite Hentry. by simpl.
Qed.

Lemma report_access_at_no_reference_witness :
  ∃ o', report_access_at mixed_env (c_str "fstatat") ES_EVENT_TYPE_NOTIFY_STAT 9 (c_str "f") 0
          fresh_observer
        = Fatal Fatal_could_not_get_path_for_fd o'
        ∧ trace_ o' = trace_ fresh_observer ∧ cache_ o' = cache_ fresh_observer.
Proof.
  destruct (report_access_at_no_reference mixed_env (c_str "fstatat") ES_EVENT_TYPE_NOTIFY_STAT
              9 (c_str "f") 0 fresh_observer) as [_ Hfd].
  - vm_compute. discriminate.
  - apply Hfd; vm_compute; (reflexivity || discriminate).
Defined.

(** ** PathResolver, continued *)

Lemma absolute_take (buf : cstring) (k : nat) :
  absolute buf → (1 ≤ k)%nat → absolute (take k buf).
Proof. unfold absolute. intros H Hk. by rewrite char_at_take by lia. Qed.

Lemma absolute_app (l1 l2 : cstring) : absolute l1 → absolute (l1 ++ l2).
Proof.
  unfold absolute. intros H. rewrite char_at_app_l; [done|].
  apply char_at_lt. rewrite H. apply SLASH_not_NUL.
Qed.

Lemma absolute_length (buf : cstring) : absolute buf → (1 ≤ length buf)%nat.
Proof.
  unfold absolute. intros H. apply (char_at_lt buf 0). rewrite H. apply SLASH_not_NUL.
Qed.

(** One iteration on an anchored state: the state stays anchored, and an
    access outside a buffer has the cause [overruns]. *)
Lemma resolve_step_anchored env follow r :
  anchored r →
  anchored (final (resolve_step env follow r))
  ∧ ∀ r', resolve_step env follow r = OutOfBounds r' → overruns env r'.
Proof.
  intros [Habs Hp]. unfold resolve_step.
  destruct (decide (char_at (fullpath r) (pFullpath r) = SLASH)) as [Hch|Hch].
  - assert (Hlt : (pFullpath r < length (fullpath r))%nat).
    { apply char_at_lt. rewrite Hch. apply SLASH_not_NUL. }
    pose proof (collapse_cases r Habs ltac:(lia) Hch) as Hcases.
    destruct (collapse r) as [s|].
    { destruct Hcases as (_ & k & Hk & ->). split; [|discriminate].
      unfold anchored, shift_left. simpl.
      replace (pFullpath r + 1 - (pFullpath r + 1 - k))%nat with k by lia.
      split.
      - apply absolute_app, absolute_take; [done | lia].
      - rewrite length_app, length_take. lia. }
    clear Hcases. unfold follow_link. rewrite Hch.
    rewrite (bool_decide_eq_true_2 (SLASH = SLASH)) by done. simpl.
    try rewrite (bool_decide_eq_false_2 (SLASH = NUL)) by apply SLASH_not_NUL.
    destruct (real_readlink env (take (pFullpath r) (fullpath r)) PATH_MAX)
      as [target|] eqn:Hlink.
    2:{ split; [|discriminate]. unfold anchored. simpl. split; [done | lia]. }
    case_bool_decide as Hbig.
    { split; [done|]. intros r' [= <-]. exists target. split; [done|]. right. simpl. lia. }
    case_bool_decide as Hvis.
    { split; [|discriminate]. unfold anchored. simpl. split.
      - apply absolute_take; [done | lia].
      - rewrite length_take. lia. }
    case_bool_decide as Hempty.
    { split; [done|]. intros r' [= <-]. simpl. exists target. split; [done|]. left.
      by destruct target. }
    match goal with |- context [target ++ ?rest] => set (tail := rest) in * end.
    assert (Htail : (length tail ≤ length (fullpath r) - pFullpath r)%nat).
    { subst tail. destruct (_ && _); rewrite length_drop; lia. }
    case_bool_decide as Hfit.
    { split; [done|]. intros r' [= <-]. simpl. exists target. split; [done|]. right. simpl. lia. }
    case_bool_decide as Htabs.
    { split; [|discriminate]. unfold anchored. simpl. split; [done|].
      pose proof (absolute_length _ Htabs). lia. }
    destruct (find_prev_slash_is_Some (fullpath r) (pFullpath r) Habs) as [q Hq]; [lia|].
    rewrite Hq. apply find_prev_slash_spec in Hq as (Hq & _ & _).
    case_bool_decide as Hfit2.
    { split; [done|]. intros r' [= <-]. simpl. exists target. split; [done|]. right.
      simpl. rewrite length_app in Hfit2. lia. }
    split; [|discriminate]. unfold anchored. simpl. split.
    + apply absolute_app, absolute_take; [done | lia].
    + rewrite length_app, length_take. lia.
  - assert (Hnone : collapse r = None).
    { unfold collapse. by rewrite bool_decide_eq_false_2. }
    rewrite Hnone. unfold follow_link.
    rewrite (bool_decide_eq_false_2 _ Hch). simpl.
    destruct (decide (char_at (fullpath r) (pFullpath r) = NUL)) as [Hnul|Hnul].
    2:{ rewrite (bool_decide_eq_false_2 _ Hnul). simpl.
        split; [|discriminate]. unfold anchored. simpl. split; [done|].
        apply char_at_lt in Hnul. lia. }
    rewrite (bool_decide_eq_true_2 _ Hnul). simpl.
    destruct follow; simpl; [|by split].
    destruct (real_readlink env (take (pFullpath r) (fullpath r)) PATH_MAX)
      as [target|] eqn:Hlink; [|by split].
    case_bool_decide as Hbig.
    { split; [done|]. intros r' [= <-]. exists target. split; [done|]. right. simpl. lia. }
    case_bool_decide as Hvis.
    { split; [|discriminate]. unfold anchored. simpl. split.
      - apply absolute_take; [done | lia].
      - rewrite length_take. lia. }
    case_bool_decide as Hempty.
    { split; [done|]. intros r' [= <-]. simpl. exists target. split; [done|]. left.
      by destruct target. }
    rewrite andb_false_r.
    case_bool_decide as Hfit.
    { split; [done|]. intros r' [= <-]. simpl. exists target. split; [done|]. right.
      simpl. rewrite length_drop in Hfit. lia. }
    case_bool_decide as Htabs.
    { split; [|discriminate]. unfold anchored. simpl. split; [done|].
      pose proof (absolute_length _ Htabs). lia. }
    destruct (find_prev_slash_is_Some (fullpath r) (pFullpath r) Habs) as [q Hq]; [lia|].
    rewrite Hq. apply find_prev_slash_spec in Hq as (Hq & _ & _).
    case_bool_decide as Hfit2.
    { split; [done|]. intros r' [= <-]. simpl. exists target. split; [done|]. right.
      simpl. rewrite length_app, length_drop in Hfit2. lia. }
    split; [|discriminate]. unfold anchored. simpl. split.
    + apply absolute_app, absolute_take; [done | lia].
    + rewrite length_app, length_take. lia.
Qed.

Lemma resolve_loop_anchored env follow fuel r s :
  anchored r → resolve_loop env follow fuel r = Some s →
  anchored (final s) ∧ ∀ r', s = OutOfBounds r' → overruns env r'.
Proof.
  revert r. induction fuel as [|fuel IH]; intros r Hr; simpl; [discriminate|].
  destruct (resolve_step_anchored env follow r Hr) as [Hnext Hcause].
  destruct (resolve_step env follow r) as [r1|r1|r1]; simpl in Hnext.
  - by apply IH.
  - intros [= <-]. by split.
  - intros [= <-]. split; [done|]. intros r' [= <-]. by apply Hcause.
Qed.

(** X16.  On an absolute path the walk of [resolve_path] keeps the buffer
    absolute and the scan pointer inside it, behind the first slash, so
    [find_prev_slash] always finds a slash and never leaves the buffer at
    its start.  The walk is left at an access outside a buffer only in the
    substitution of a link whose target is empty or too long for buffer and
    target to fit into [PATH_MAX] bytes together. *)
Theorem resolve_walk_anchored (env : Env) (buf : cstring) (follow : bool) :
  absolute buf →
  anchored (final (resolve_walk env buf follow))
  ∧ (∀ r, anchored r → is_Some (find_prev_slash (fullpath r) (pFullpath r)))
  ∧ (∀ r, resolve_walk env buf follow = OutOfBounds r → overruns env r).
Proof.
  intros Habs.
  destruct (resolve_walk_loop env buf follow Habs) as [Hloop _].
  assert (Hstart : anchored (resolve_start buf)).
  { split; [done|]. simpl. pose proof (absolute_length buf Habs). lia. }
  destruct (resolve_loop_anchored env follow _ _ _ Hstart Hloop) as [Hend Hcause].
  split; [done|]. split; [|done].
  intros r [Hr Hp]. apply find_prev_slash_is_Some; [done | lia].
Qed.

Lemma resolve_walk_anchored_witness :
  anchored (final (resolve_walk mixed_env (c_str "/d/l/../x") true)).
Proof.
  apply (resolve_walk_anchored mixed_env (c_str "/d/l/../x") true).
  reflexivity.
Defined.

(** What [report_access] adds to the paths the policy engine has seen:
    nothing, or the reported path. *)
Lemma report_access_policy_paths env syscallName eventType (p secondPath : cstring) mode o :
  ∃ result o', report_access env syscallName eventType p secondPath mode o
               = Returned result o'
    ∧ (policy_paths (trace_ o') = policy_paths (trace_ o)
       ∨ policy_paths (trace_ o') = policy_paths (trace_ o) ++ [p]).
Proof.
  rewrite report_access_unfold.
  assert (Hpol : policy_paths (trace_ (observer_of (IsCacheHit eventType p secondPath o)))
                 = policy_paths (trace_ o)).
  { destruct (IsCacheHit_cases eventType p secondPath o)
      as [[_ ->] | [(_ & _ & ->) | (_ & _ & access & Hacc & ->)]]; simpl; [done|..];
      rewrite policy_paths_app; [by rewrite app_nil_r|].
    destruct Hacc as [-> | ->]; simpl; by rewrite app_nil_r. }
  destruct (IsCacheHit_returns eventType p secondPath o) as (b & o1 & Hc & _).
  rewrite Hc in *. simpl in Hpol. destruct b; [by eauto|].
  simpl. destruct (is_enabled env); [|by eauto].
  eexists _, _. split; [reflexivity|]. right. simpl.
  by rewrite policy_paths_app, Hpol.
Qed.

Lemma mapM_report_access_policy_paths env syscallName eventType mode (l : list cstring) o :
  ∃ results o' seen,
    mapM (λ p, report_access env syscallName eventType p [] mode) l o = Returned results o'
    ∧ policy_paths (trace_ o') = policy_paths (trace_ o) ++ seen
    ∧ seen `sublist_of` l.
Proof.
  revert o. induction l as [|p l IH]; intros o.
  - exists [], o, []. simpl. unfold_M. by rewrite app_nil_r.
  - simpl. unfold mbind, M_bind at 1.
    destruct (report_access_policy_paths env syscallName eventType p [] mode o)
      as (result & o1 & -> & Hp).
    unfold mbind, M_bind at 1.
    destruct (IH o1) as (results & o2 & seen & -> & Hseen & Hsub).
    unfold mret, M_ret. destruct Hp as [Hp | Hp]; rewrite Hp in Hseen.
    + exists (result :: results), o2, seen. split; [done|]. split; [done|].
      by apply sublist_cons.
    + exists (result :: results), o2, (p :: seen). split; [done|]. split.
      * by rewrite <- app_assoc in Hseen.
      * by apply sublist_skip.
Qed.

(** One iteration reports only what [readlink] answered for, under an
    absolute name. *)
Lemma resolve_step_links env follow r :
  anchored r ∧ (∀ q, q ∈ reported r → absolute q ∧ is_Some (symlinks env !! q)) →
  anchored (final (resolve_step env follow r))
  ∧ (∀ q, q ∈ reported (final (resolve_step env follow r)) →
          absolute q ∧ is_Some (symlinks env !! q)).
Proof.
  intros [Hanch Hrep].
  split; [by apply resolve_step_anchored|].
  destruct Hanch as [Habs Hp]. unfold resolve_step.
  destruct (collapse r) as [s|] eqn:Hc.
  { apply collapse_keeps in Hc as [_ ->]. done. }
  clear Hc. unfold follow_link.
  destruct (if _ || _ then _ else _) as [target|] eqn:Hlink;
    [|clear Hlink; by case_bool_decide].
  assert (Hnew : ∀ q, q ∈ reported r ++ [take (pFullpath r) (fullpath r)] →
                      absolute q ∧ is_Some (symlinks env !! q)).
  { intros q [Hq | ->%list_elem_of_singleton]%elem_of_app; [by apply Hrep|].
    split; [apply absolute_take; [done | lia]|].
    destruct (_ || _); [|discriminate]. unfold real_readlink in Hlink.
    destruct (symlinks env !! _); [by eexists | discriminate]. }
  clear Hlink.
  repeat (first [ case_bool_decide | case_match ]; simpl; try done).
Qed.

(** X17.  The paths one call of [resolve_path] reports are absolute names
    of links of the file system, so there are at most as many as the file
    system has links; and the call returns or ends at an access outside a
    buffer having handed to the policy engine a subsequence of them and
    nothing else. *)
Theorem resolve_path_reports_links (env : Env) (buf : cstring) (follow : bool)
    (o : BxlObserver) :
  let links := reported (final (resolve_walk env buf follow)) in
  (∀ q, q ∈ links → absolute q ∧ is_Some (symlinks env !! q))
  ∧ (length links ≤ size (symlinks env))%nat
  ∧ ∃ seen, policy_paths (trace_ (observer_of (resolve_path env buf follow o)))
            = policy_paths (trace_ o) ++ seen
            ∧ seen `sublist_of` links.
Proof.
  intros links.
  assert (Hlinks : ∀ q, q ∈ links → absolute q ∧ is_Some (symlinks env !! q)).
  { subst links. destruct (decide (char_at buf 0 = SLASH)) as [Habs|Hrel].
    - destruct (resolve_walk_loop env buf follow Habs) as [Hloop _].
      refine (proj2 (resolve_loop_invariant
                (λ r, anchored r ∧ ∀ q, q ∈ reported r → absolute q ∧ is_Some (symlinks env !! q))
                env follow (resolve_step_links env follow) _ (resolve_start buf) _ _ Hloop)).
      split; [|simpl; set_solver].
      split; [done|]. simpl. pose proof (absolute_length buf Habs). lia.
    - unfold resolve_walk. rewrite bool_decide_eq_false_2 by done. simpl. set_solver. }
  split; [done|]. split.
  - destruct (resolve_walk_reported env buf follow) as [Hnd _]. fold links in Hnd.
    rewrite <- size_dom, <- (size_list_to_set (C := gset cstring) links) by done.
    apply subseteq_size. intros q Hq%elem_of_list_to_set.
    apply elem_of_dom. by apply Hlinks.
  - unfold resolve_path. cbv zeta. fold links.
    destruct (mapM_report_access_policy_paths env (c_str "_readlink")
                ES_EVENT_TYPE_NOTIFY_READLINK 0 links o)
      as (results & o' & seen & Hrun & Hseen & Hsub).
    exists seen. split; [|done].
    change (?m ;; ?k) with (mbind (λ _, k) m). unfold mbind, M_bind at 1. rewrite Hrun.
    by destruct (resolve_walk env buf follow).
Qed.

(** *** Termination, and when the function returns *)

Lemma report_access_returns env syscallName eventType (p secondPath : cstring) mode o :
  ∃ result o', report_access env syscallName eventType p secondPath mode o
               = Returned result o'.
Proof.
  destruct (report_access_policy_paths env syscallName eventType p secondPath mode o)
    as (result & o' & H & _). by exists result, o'.
Qed.

(** [resolve_path] returns when the walk is left by [break]. *)
Lemma resolve_path_returns env buf follow r o :
  resolve_walk env buf follow = Break r →
  ∃ o', resolve_path env buf follow o = Returned (fullpath r) o'.
Proof.
  intros Hw. unfold resolve_path. cbv zeta. rewrite Hw.
  destruct (mapM_report_access_policy_paths env (c_str "_readlink")
              ES_EVENT_TYPE_NOTIFY_READLINK 0 (reported (final (Break r))) o)
    as (results & o' & _ & Hrun & _).
  exists o'. change (?m ;; ?k) with (mbind (λ _, k) m). unfold mbind, M_bind at 1.
  by rewrite Hrun.
Qed.

(** One iteration when everything fits: with link targets of at least
    one and at most [M] characters, and room for the buffer and [M]
    characters for each link not yet visited, the iteration stays inside
    the buffers and keeps that room. *)
Lemma resolve_step_fits env follow (M B : nat) r :
  map_Forall (λ _ t, (0 < length t ≤ M)%nat) (symlinks env) →
  (size (symlinks env) * M ≤ B)%nat → (B < PATH_MAX)%nat →
  anchored r → (length (fullpath r) + unvisited env r * M ≤ B)%nat →
  match resolve_step env follow r with
  | Continue r' | Break r' =>
      anchored r' ∧ (length (fullpath r') + unvisited env r' * M ≤ B)%nat
  | OutOfBounds _ => False
  end.
Proof.
  intros Hall Hsize HB Hanch Hlen.
  destruct (resolve_step_anchored env follow r Hanch) as [Hnext _].
  destruct Hanch as [Habs Hp].
  assert (Hgoal : match resolve_step env follow r with
                  | Continue r' | Break r' =>
                      (length (fullpath r') + unvisited env r' * M ≤ B)%nat
                  | OutOfBounds _ => False
                  end);
    [|by destruct (resolve_step env follow r)].
  clear Hnext. unfold resolve_step.
  destruct (collapse r) as [s|] eqn:Hc.
  { (* a segment is removed: the buffer gets shorter *)
    assert (Hch : char_at (fullpath r) (pFullpath r) = SLASH).
    { unfold collapse in Hc. by case_bool_decide. }
    pose proof (collapse_cases r Habs ltac:(lia) Hch) as Hcases.
    rewrite Hc in Hcases. destruct Hcases as (_ & k & Hk & ->).
    unfold unvisited, at_, shift_left in *. simpl.
    rewrite length_app, length_take, length_drop. lia. }
  clear Hc. unfold follow_link.
  destruct (if _ || _ then _ else _) as [target|] eqn:Hlink.
  2:{ clear Hlink. case_bool_decide; unfold unvisited, at_ in *; simpl; done. }
  assert (Hdom : ∃ t0, symlinks env !! take (pFullpath r) (fullpath r) = Some t0
                       ∧ target = take PATH_MAX t0).
  { destruct (_ || _); [|discriminate]. unfold real_readlink in Hlink.
    destruct (symlinks env !! _) as [t0|]; [|discriminate].
    exists t0. split; [done|]. by injection Hlink as <-. }
  clear Hlink. destruct Hdom as (t0 & Hlook & ->).
  pose proof (Hall _ _ Hlook) as Ht0. simpl in Ht0.
  assert (Hone : (1 ≤ size (symlinks env))%nat).
  { destruct (decide (size (symlinks env) = 0%nat)) as [Hz|]; [|lia].
    apply map_size_empty_inv in Hz. rewrite Hz in Hlook. by rewrite lookup_empty in Hlook. }
  assert (HM : (M < PATH_MAX)%nat) by nia.
  rewrite take_ge by lia.
  rewrite (bool_decide_eq_false_2 (PATH_MAX ≤ length t0)%nat) by lia.
  set (cur := take (pFullpath r) (fullpath r)) in *.
  case_bool_decide as Hvis.
  { (* a link that was visited: the loop is left, with a shorter buffer *)
    unfold unvisited in *. simpl. subst cur. rewrite length_take. lia. }
  assert (Hsz : (unvisited env {| fullpath := fullpath r; pFullpath := pFullpath r;
                                  visited := {[cur]} ∪ visited r;
                                  reported := reported r ++ [cur] |} * M + M
                 ≤ unvisited env r * M)%nat).
  { unfold unvisited. simpl.
    assert (size (dom (symlinks env) ∖ ({[cur]} ∪ visited r))
            < size (dom (symlinks env) ∖ visited r))%nat; [|nia].
    apply subset_size.
    assert (cur ∈ dom (symlinks env)) by (apply elem_of_dom; by eexists).
    set_solver. }
  rewrite (bool_decide_eq_false_2 (length t0 = 0)%nat) by lia.
  match goal with |- context [t0 ++ ?rest] => set (tail := rest) in * end.
  assert (Htail : (length tail ≤ length (fullpath r) - pFullpath r)%nat).
  { subst tail. destruct (_ && _); rewrite length_drop; lia. }
  rewrite (bool_decide_eq_false_2 (PATH_MAX < length t0 + length tail + 1)%nat) by lia.
  case_bool_decide as Htabs.
  { unfold unvisited in *. simpl in *. rewrite length_app. lia. }
  destruct (find_prev_slash_is_Some (fullpath r) (pFullpath r) Habs) as [q Hq]; [lia|].
  rewrite Hq. apply find_prev_slash_spec in Hq as (Hq & _ & _).
  rewrite bool_decide_eq_false_2 by (rewrite length_app; lia).
  unfold unvisited in *. simpl in *. rewrite !length_app, length_take. lia.
Qed.

Lemma resolve_loop_fits env follow (M B : nat) fuel r s :
  map_Forall (λ _ t, (0 < length t ≤ M)%nat) (symlinks env) →
  (size (symlinks env) * M ≤ B)%nat → (B < PATH_MAX)%nat →
  anchored r → (length (fullpath r) + unvisited env r * M ≤ B)%nat →
  resolve_loop env follow fuel r = Some s →
  ∃ r', s = Break r' ∧ anchored r' ∧ (length (fullpath r') ≤ B)%nat.
Proof.
  intros Hall Hsize HB. revert r.
  induction fuel as [|fuel IH]; intros r Hanch Hlen; simpl; [discriminate|].
  pose proof (resolve_step_fits env follow M B r Hall Hsize HB Hanch Hlen) as Hstep.
  destruct (resolve_step env follow r) as [r1|r1|r1]; [|  |done].
  - destruct Hstep. by apply IH.
  - destruct Hstep as [? ?]. intros [= <-]. exists r1.
    split; [done|]. split; [done | lia].
Qed.

(** C7, as amended.  [resolve_path] cannot loop for ever, and it returns
    when every substitution fits its buffer.  (1) For an absolute path on a
    file system whose link targets have at least one and at most [M]
    characters, with room in [PATH_MAX] for the path and [M] characters for
    every link, the walk is left by [break] and [resolve_path] returns,
    cycles of links included.  (2) For a path that is not absolute it
    returns at once, with the buffer as it was.  (3) On an absolute path
    the only other way out of the loop is a write outside a buffer, in the
    substitution of a link whose target is empty or too long for buffer and
    target to fit into [PATH_MAX] bytes.  (4) From every state whose scan
    pointer is inside the string the loop is left after finitely many
    iterations, in one of these two ways, and [resolve_walk] is the state
    at that point: for an absolute path, [resolve_fuel] iterations or any
    larger number give it.  (5) When [readlink] succeeds on a path that is
    already in the visited set, the iteration ends in [break] and reports
    nothing.  (6) No path is reported twice in one call, and only visited
    links are reported.  (7) For the link ["/x"] pointing to ["/x"],
    resolving ["/x"] with [followFinalSymlink] returns with the buffer
    ["/x"] after one [report_access] call, for ["/x"]; on a fresh observer
    that call reaches the policy engine once. *)
Theorem resolve_path_terminates :
  (∀ env buf follow o M,
     absolute buf →
     map_Forall (λ _ t, (0 < length t ≤ M)%nat) (symlinks env) →
     (length buf + size (symlinks env) * M < PATH_MAX)%nat →
     ∃ r o', resolve_walk env buf follow = Break r
             ∧ resolve_path env buf follow o = Returned (fullpath r) o'
             ∧ (length (fullpath r) ≤ length buf + size (symlinks env) * M)%nat)
  ∧ (∀ env buf follow o,
       ¬ absolute buf → resolve_path env buf follow o = Returned buf o)
  ∧ (∀ env buf follow r,
       absolute buf → resolve_walk env buf follow = OutOfBounds r → overruns env r)
  ∧ (∀ env follow r,
     (pFullpath r ≤ length (fullpath r))%nat →
     ∃ fuel s, resolve_loop env follow fuel r = Some s ∧ is_continue s = false)
  ∧ (∀ env buf follow,
       is_continue (resolve_walk env buf follow) = false
       ∧ (char_at buf 0 = SLASH → ∀ extra,
            resolve_loop env follow (resolve_fuel env buf + extra) (resolve_start buf)
            = Some (resolve_walk env buf follow)))
  ∧ (∀ env follow r target,
       collapse r = None →
       char_at (fullpath r) (pFullpath r) = SLASH
       ∨ (char_at (fullpath r) (pFullpath r) = NUL ∧ follow = true) →
       real_readlink env (take (pFullpath r) (fullpath r)) PATH_MAX = Some target →
       (length target < PATH_MAX)%nat →
       take (pFullpath r) (fullpath r) ∈ visited r →
       resolve_step env follow r
       = Break {| fullpath := take (pFullpath r) (fullpath r); pFullpath := pFullpath r;
                  visited := visited r; reported := reported r |})
  ∧ (∀ env buf follow,
       NoDup (reported (final (resolve_walk env buf follow)))
       ∧ ∀ q, q ∈ reported (final (resolve_walk env buf follow)) →
              q ∈ visited (final (resolve_walk env buf follow)))
  ∧ resolve_walk self_link_env (c_str "/x") true
    = Break {| fullpath := c_str "/x"; pFullpath := 2;
               visited := {[c_str "/x"]}; reported := [c_str "/x"] |}
  ∧ ∃ o', resolve_path self_link_env (c_str "/x") true fresh_observer
            = Returned (c_str "/x") o'
          ∧ trace_ o' = [MutexTryLock true;
                         CacheFind ES_EVENT_TYPE_NOTIFY_READLINK;
                         CacheInsert ES_EVENT_TYPE_NOTIFY_READLINK (c_str "/x");
                         MutexUnlock;
                         PolicyHandleEvent readlink_x_event].
Proof.
  split; [|split; [|split; [|split; [|split; [|split; [|split; [|split]]]]]]].
  - intros env buf follow o M Habs Hall Hroom.
    destruct (resolve_walk_loop env buf follow Habs) as [Hloop _].
    assert (Hstart : anchored (resolve_start buf)).
    { split; [done|]. simpl. pose proof (absolute_length buf Habs). lia. }
    assert (Hlen0 : (length (fullpath (resolve_start buf))
                     + unvisited env (resolve_start buf) * M
                     ≤ length buf + size (symlinks env) * M)%nat).
    { unfold unvisited. simpl. rewrite difference_empty_L, size_dom. lia. }
    destruct (resolve_loop_fits env follow M (length buf + size (symlinks env) * M)
                _ _ _ Hall ltac:(lia) Hroom Hstart Hlen0 Hloop) as (r & Hw & _ & Hlen).
    destruct (resolve_path_returns env buf follow r o Hw) as [o' Ho'].
    by exists r, o'.
  - intros env buf follow o Hrel.
    apply (resolve_path_plain env buf follow (resolve_start buf)); [|done].
    unfold resolve_walk. by rewrite bool_decide_eq_false_2.
  - intros env buf follow r Habs Hw.
    destruct (resolve_walk_loop env buf follow Habs) as [Hloop _].
    assert (Hstart : anchored (resolve_start buf)).
    { split; [done|]. simpl. pose proof (absolute_length buf Habs). lia. }
    destruct (resolve_loop_anchored env follow _ _ _ Hstart Hloop) as [_ Hcause].
    by apply Hcause.
  - intros env follow r Hp. exists (S (potential env r)).
    apply resolve_loop_enough; [done | lia].
  - intros env buf follow. split.
    + destruct (decide (char_at buf 0 = SLASH)) as [Habs|Hrel].
      * by apply resolve_walk_loop.
      * unfold resolve_walk. by rewrite bool_decide_eq_false_2.
    + intros Habs extra. apply resolve_loop_more. by apply resolve_walk_loop.
  - intros env follow r target Hnone Hch Hlink Hlen Hvis.
    unfold resolve_step, follow_link. rewrite Hnone.
    assert (Hq : bool_decide (char_at (fullpath r) (pFullpath r) = SLASH)
                 || bool_decide (char_at (fullpath r) (pFullpath r) = NUL) && follow
                 = true).
    { destruct Hch as [Hch|[Hch ->]]; rewrite Hch; [done|].
      rewrite (bool_decide_eq_true_2 (NUL = NUL)) by done. apply orb_true_r. }
    rewrite Hq, Hlink.
    rewrite bool_decide_eq_false_2 by lia. by rewrite bool_decide_eq_true_2.
  - intros env buf follow. apply resolve_walk_reported.
  - vm_compute. reflexivity.
  - eexists. split; vm_compute; reflexivity.
Qed.

Lemma resolve_path_terminates_witness :
  ∃ r o', resolve_walk self_link_env (c_str "/x") true = Break r
          ∧ resolve_path self_link_env (c_str "/x") true fresh_observer
            = Returned (fullpath r) o'
          ∧ (length (fullpath r)
             ≤ length (c_str "/x") + size (symlinks self_link_env) * 2)%nat.
Proof.
  destruct resolve_path_terminates as (Hreturns & _).
  apply (Hreturns self_link_env (c_str "/x") true fresh_observer 2%nat).
  - reflexivity.
  - apply map_Forall_insert_2; [simpl; lia | apply map_Forall_empty].
  - vm_compute. lia.
Defined.

(** C7 as stated fails: [resolve_path] does not return on every input.
    For the path [long_path] of [PATH_MAX - 1] characters, whose first
    directory ["/x"] is a link to ["/yy"], the path with the target in the
    place of the link needs more than [PATH_MAX] bytes: the walk is left at
    the [strcpy] that appends the rest of the path to the target, after the
    one report for ["/x"]. *)
Lemma resolve_path_overruns_long_path :
  absolute long_path ∧ (length long_path < PATH_MAX)%nat
  ∧ resolve_walk long_link_env long_path true
    = OutOfBounds {| fullpath := long_path; pFullpath := 2;
                     visited := {[c_str "/x"]}; reported := [c_str "/x"] |}
  ∧ ∃ o', resolve_path long_link_env long_path true fresh_observer = Overrun o'.
Proof.
  split; [reflexivity|]. split; [vm_compute; lia|]. split; [vm_compute; reflexivity|].
  assert (H : match resolve_path long_link_env long_path true fresh_observer with
              | Overrun _ => True
              | _ => False
              end) by (vm_compute; exact I).
  destruct (resolve_path long_link_env long_path true fresh_observer); [done | done|].
  by eexists.
Qed.

(** The reports of a walk only grow, at the end. *)
Lemma resolve_step_reported_prefix env follow r :
  reported r `prefix_of` reported (final (resolve_step env follow r)).
Proof.
  unfold resolve_step. destruct (collapse r) as [s|] eqn:Hc.
  { apply collapse_keeps in Hc as [_ ->]. done. }
  clear Hc. unfold follow_link.
  destruct (if _ || _ then _ else _) as [target|]; [|by case_bool_decide].
  repeat (first [ case_bool_decide | case_match ]; simpl; try done;
          try by apply prefix_app_r).
Qed.

Lemma resolve_loop_reported_prefix env follow fuel r s :
  resolve_loop env follow fuel r = Some s → reported r `prefix_of` reported (final s).
Proof.
  revert r. induction fuel as [|fuel IH]; intros r; simpl; [discriminate|].
  pose proof (resolve_step_reported_prefix env follow r) as Hstep.
  destruct (resolve_step env follow r) as [r1|r1|r1]; simpl in Hstep.
  - intros Hs. etrans; [exact Hstep | by apply IH].
  - by intros [= <-].
  - by intros [= <-].
Qed.

Section FinalComponent.
Context (env : Env) (follow : bool) (buf : cstring).
Hypothesis Habs : absolute buf.
Hypothesis Hnul : NUL ∉ buf.
Hypothesis Hcol : collapsed buf.
Hypothesis Hprefix : ∀ k, (k < length buf)%nat → symlinks env !! take k buf = None.

Lemma collapse_on_collapsed r :
  fullpath r = buf → (1 ≤ pFullpath r ≤ length buf)%nat → collapse r = None.
Proof.
  intros Hbuf Hp.
  destruct (decide (char_at (fullpath r) (pFullpath r) = SLASH)) as [Hch|Hch].
  - pose proof (collapse_cases r) as Hcases. rewrite Hbuf in *.
    specialize (Hcases Habs ltac:(lia) Hch).
    destruct (collapse r); [|done]. destruct Hcases as [Hb _]. exfalso.
    apply (Before_not_collapsed buf (pFullpath r)); try done.
    apply char_at_lt. rewrite Hch. apply SLASH_not_NUL.
  - unfold collapse. by rewrite bool_decide_eq_false_2.
Qed.

(** The walk reaches the end of the string with the buffer as it was. *)
Lemma resolve_loop_to_end n fuel r :
  fullpath r = buf → (1 ≤ pFullpath r)%nat → (pFullpath r + n = length buf)%nat →
  resolve_loop env follow (n + fuel) r
  = resolve_loop env follow fuel (at_ r buf (length buf)).
Proof.
  revert r. induction n as [|n IH]; intros r Hbuf Hp Hn.
  - simpl. f_equal. destruct r; unfold at_; simpl in *. f_equal; [done | lia].
  - simpl. unfold resolve_step.
    rewrite collapse_on_collapsed by (done || lia).
    rewrite follow_link_not_a_link by (rewrite Hbuf; apply Hprefix; lia).
    rewrite Hbuf. rewrite bool_decide_eq_false_2.
    2:{ intros Hend. apply char_at_NUL in Hend; [lia | done]. }
    rewrite IH; simpl; [done | done | lia | lia].
Qed.

Lemma char_at_end : char_at buf (length buf) = NUL.
Proof. unfold char_at. by apply nth_overflow. Qed.
End FinalComponent.

(** X18.  The last component of a path and [O_NOFOLLOW].  For an absolute
    path without [//], [/./] and [/../] none of whose proper prefixes is a
    link: without [followFinalSymlink], [resolve_path] returns the path as
    it is and reports nothing, whether or not the path itself is a link;
    with [followFinalSymlink] and the path a link (with a target that fits
    the buffer of [readlink]), the path itself is the first one
    reported. *)
Theorem resolve_path_final_link (env : Env) (buf : cstring) (o : BxlObserver) :
  absolute buf → (NUL ∉ buf) → collapsed buf →
  (∀ k, (k < length buf)%nat → symlinks env !! take k buf = None) →
  resolve_path env buf false o = Returned buf o
  ∧ (∀ target, symlinks env !! buf = Some target → (length target < PATH_MAX)%nat →
       ∃ rest, reported (final (resolve_walk env buf true)) = buf :: rest).
Proof.
  intros Habs Hnul Hcol Hprefix.
  pose proof (absolute_length buf Habs) as Hlen.
  assert (Hfuel : ∀ follow, ∃ fuel,
            resolve_loop env follow (S fuel) (at_ (resolve_start buf) buf (length buf))
            = Some (resolve_walk env buf follow)).
  { intros follow. destruct (resolve_walk_loop env buf follow Habs) as [Hloop _].
    exists (resolve_fuel env buf - length buf)%nat.
    rewrite <- (resolve_loop_to_end env follow buf Habs Hnul Hcol Hprefix
                  (length buf - 1)) by (simpl; first [done | lia]).
    rewrite <- Hloop. f_equal. unfold resolve_fuel. lia. }
  assert (Hnone : collapse (at_ (resolve_start buf) buf (length buf)) = None).
  { apply (collapse_on_collapsed buf Habs Hcol); simpl; [done | lia]. }
  split.
  - destruct (Hfuel false) as [fuel Hloop]. simpl in Hloop.
    unfold resolve_step in Hloop. rewrite Hnone in Hloop.
    unfold follow_link in Hloop. simpl in Hloop.
    rewrite (char_at_end buf) in Hloop.
    rewrite (bool_decide_eq_false_2 (NUL = SLASH)) in Hloop by done.
    rewrite (bool_decide_eq_true_2 (NUL = NUL)) in Hloop by done. simpl in Hloop.
    injection Hloop as Hw.
    by rewrite (resolve_path_plain env buf false _ o (eq_sym Hw)).
  - intros target Hlink Hfit. destruct (Hfuel true) as [fuel Hloop].
    set (r_end := at_ (resolve_start buf) buf (length buf)) in *.
    assert (Hstep : reported (final (resolve_step env true r_end)) = [buf]).
    { unfold resolve_step. rewrite Hnone. unfold follow_link. subst r_end. simpl.
      rewrite (char_at_end buf).
      rewrite (bool_decide_eq_false_2 (NUL = SLASH)) by done.
      rewrite (bool_decide_eq_true_2 (NUL = NUL)) by done. simpl.
      unfold real_readlink. rewrite firstn_all, Hlink. simpl.
      rewrite take_ge by lia.
      rewrite (bool_decide_eq_false_2 (PATH_MAX ≤ length target)%nat) by lia.
      rewrite (bool_decide_eq_false_2 (buf ∈ (∅ : gset cstring))) by set_solver.
      repeat (first [ case_bool_decide | case_match ]; simpl; try done). }
    simpl in Hloop.
    assert (Hpre : [buf] `prefix_of` reported (final (resolve_walk env buf true))).
    { rewrite <- Hstep.
      destruct (resolve_step env true r_end) as [r1|r1|r1].
      - by apply (resolve_loop_reported_prefix env true fuel).
      - by injection Hloop as <-.
      - by injection Hloop as <-. }
    destruct Hpre as [rest ->]. by exists rest.
Qed.

Lemma resolve_path_final_link_witness :
  resolve_path mixed_env (c_str "/d/l") false fresh_observer
  = Returned (c_str "/d/l") fresh_observer
  ∧ ∃ rest, reported (final (resolve_walk mixed_env (c_str "/d/l") true))
            = c_str "/d/l" :: rest.
Proof.
  destruct (resolve_path_final_link mixed_env (c_str "/d/l") fresh_observer)
    as [Hno Hyes].
  - reflexivity.
  - refine (proj1 (bool_decide_eq_false (NUL ∈ c_str "/d/l")) _). vm_compute. reflexivity.
  - repeat split; vm_compute; reflexivity.
  - intros k Hk. destruct k as [|[|[|[|k]]]]; [vm_compute; reflexivity..|].
    simpl in Hk. lia.
  - split; [exact Hno|]. apply (Hyes (c_str "t")); [vm_compute; reflexivity|].
    vm_compute. lia.
Defined.

(** X19.  [find_prev_slash] returns the nearest slash to the left of the
    pointer, and it leaves the buffer at its start exactly when there is no
    slash to the left. *)
Theorem find_prev_slash_nearest (buf : cstring) (i : nat) :
  match find_prev_slash buf i with
  | Some j => (j < i)%nat ∧ char_at buf j = SLASH
              ∧ ∀ k, (j < k < i)%nat → char_at buf k ≠ SLASH
  | None => ∀ k, (k < i)%nat → char_at buf k ≠ SLASH
  end.
Proof.
  induction i as [|i IH]; simpl; [intros k Hk; lia|].
  case_bool_decide as Hc.
  - repeat split; [lia | done | intros k Hk; lia].
  - destruct (find_prev_slash buf i) as [j|].
    + destruct IH as (Hlt & Hj & Hbetween). repeat split; [lia | done |].
      intros k Hk. destruct (decide (k = i)) as [->|]; [done|]. apply Hbetween. lia.
    + intros k Hk. destruct (decide (k = i)) as [->|]; [done|]. apply IH. lia.
Qed.

(** X20.  The copy loop of [shift_left] on an array that holds the C
    string [buf], started at index [i] with shift [n]: it stops at the
    terminator, the array then holds the characters before index [i - n]
    followed by those from [i] on, the array has the length it had, and the
    last [n] bytes of the old string stay behind the new terminator. *)
Theorem shift_left_loop_moves_tail (buf rest : cstring) (i n fuel : nat) :
  (NUL ∉ buf) → (1 ≤ n ≤ i)%nat → (i ≤ length buf)%nat → (length buf - i < fuel)%nat →
  let a := buf ++ NUL :: rest in
  shift_left_loop a i n fuel
  = take (i - n) buf ++ drop i buf ++ NUL :: drop (S (length buf) - n) a
  ∧ length (shift_left_loop a i n fuel) = length a.
Proof.
  intros Hnul Hn Hi Hfuel a.
  assert (Hlen : length a = S (length buf + length rest)).
  { subst a. rewrite length_app. simpl. lia. }
  assert (Hstart : shifted a i n i = a).
  { unfold shifted. rewrite drop_ge by (rewrite length_take; lia).
    by rewrite app_nil_l, take_drop. }
  pose proof (shift_left_loop_shifted a i n (length buf) fuel i) as Hloop.
  rewrite Hstart in Hloop. rewrite Hloop; try lia.
  - unfold shifted.
    assert (Ht : take (S (length buf)) a = buf ++ [NUL]).
    { subst a. replace (buf ++ NUL :: rest) with ((buf ++ [NUL]) ++ rest)
        by (by rewrite <- app_assoc).
      apply take_app_length'. rewrite length_app. simpl. lia. }
    rewrite Ht. replace (take (i - n) a) with (take (i - n) buf)
      by (subst a; by rewrite take_app_le by lia).
    rewrite drop_app_le by lia. rewrite <- !app_assoc. split; [done|].
    rewrite !length_app, length_take, !length_drop. simpl. lia.
  - subst a. unfold char_at. rewrite app_nth2 by lia. by rewrite Nat.sub_diag.
  - intros k Hk Hc. apply Hnul. rewrite <- Hc. subst a. unfold char_at.
    rewrite app_nth1 by lia. apply list_elem_of_In, nth_In. lia.
Qed.

Lemma shift_left_loop_moves_tail_witness :
  shift_left_loop (c_str "/a//b" ++ NUL :: c_str "xy") 4 1 2
  = c_str "/a/b" ++ NUL :: NUL :: c_str "xy".
Proof.
  destruct (shift_left_loop_moves_tail (c_str "/a//b") (c_str "xy") 4 1 2) as [H _].
  - refine (proj1 (bool_decide_eq_false (NUL ∈ c_str "/a//b")) _). vm_compute. reflexivity.
  - lia.
  - vm_compute. lia.
  - vm_compute. lia.
  - exact H.
Defined.

(** ** EnumerateDirectory *)

Lemma listed_children_cons cur ent entries :
  listed_children cur (ent :: entries)
  = if bool_decide (d_name ent = c_str ".") || bool_decide (d_name ent = c_str "..")
    then listed_children cur entries
    else (cur ++ c_str "/" ++ d_name ent) :: listed_children cur entries.
Proof.
  unfold listed_children. rewrite filter_cons.
  case_decide as H; repeat case_bool_decide; simpl; try done; exfalso; tauto.
Qed.

Lemma pushed_children_cons recursive cur ent entries :
  pushed_children recursive cur (ent :: entries)
  = if bool_decide (d_name ent = c_str ".") || bool_decide (d_name ent = c_str "..")
    then pushed_children recursive cur entries
    else if is_DT_DIR ent && recursive
         then (cur ++ c_str "/" ++ d_name ent) :: pushed_children recursive cur entries
         else pushed_children recursive cur entries.
Proof.
  unfold pushed_children. destruct recursive.
  - rewrite filter_cons. case_decide as Hdir.
    + rewrite listed_children_cons, Hdir. done.
    + destruct (is_DT_DIR ent); [done|]. simpl. by destruct (_ || _).
  - rewrite andb_false_r. by destruct (_ || _).
Qed.

(** The inner loop over the entries of one directory. *)
Lemma foldl_enumerate_entry recursive cur entries e :
  foldl (enumerate_entry recursive cur) e entries
  = {| directoriesToEnumerate :=
         reverse (pushed_children recursive cur entries) ++ directoriesToEnumerate e;
       filesAndDirectories := filesAndDirectories e ++ listed_children cur entries |}.
Proof.
  revert e. induction entries as [|ent entries IH]; intros e; simpl.
  { unfold pushed_children, listed_children. destruct recursive; simpl;
      rewrite app_nil_r; by destruct e. }
  rewrite IH, pushed_children_cons, listed_children_cons. unfold enumerate_entry.
  destruct (_ || _); [done|]. simpl.
  destruct (is_DT_DIR ent && recursive); simpl.
  - by rewrite reverse_cons, <- !app_assoc.
  - by rewrite <- !app_assoc.
Qed.

(** One iteration of the outer loop. *)
Lemma enumerate_loop_step ls recursive fuel cur stack acc :
  enumerate_loop ls recursive (S fuel)
    {| directoriesToEnumerate := cur :: stack; filesAndDirectories := acc |}
  = match ls cur with
    | Some entries =>
        enumerate_loop ls recursive fuel
          {| directoriesToEnumerate := reverse (pushed_children recursive cur entries) ++ stack;
             filesAndDirectories := acc ++ listed_children cur entries |}
    | None => Some (false, acc)
    end.
Proof. simpl. destruct (ls cur); [|done]. by rewrite foldl_enumerate_entry. Qed.

Lemma enumerate_loop_more ls recursive fuel extra e res :
  enumerate_loop ls recursive fuel e = Some res →
  enumerate_loop ls recursive (fuel + extra) e = Some res.
Proof.
  revert e. induction fuel as [|fuel IH]; intros e; simpl; [discriminate|].
  destruct (directoriesToEnumerate e) as [|cur stack]; [done|].
  destruct (ls cur); [apply IH | done].
Qed.

Lemma pushed_children_elem recursive cur entries q :
  q ∈ pushed_children recursive cur entries →
  ∃ ent, ent ∈ entries ∧ is_DT_DIR ent = true ∧ d_name ent ≠ c_str "."
         ∧ d_name ent ≠ c_str ".." ∧ q = cur ++ c_str "/" ++ d_name ent.
Proof.
  unfold pushed_children, listed_children. destruct recursive; [|by intros ?%elem_of_nil].
  intros (ent & -> & Hin)%list_elem_of_fmap.
  apply list_elem_of_filter in Hin as [[? ?] Hin].
  apply list_elem_of_filter in Hin as [? Hin]. by exists ent.
Qed.

Lemma listed_children_elem cur entries q :
  q ∈ listed_children cur entries ↔
  ∃ ent, ent ∈ entries ∧ d_name ent ≠ c_str "." ∧ d_name ent ≠ c_str ".."
         ∧ q = cur ++ c_str "/" ++ d_name ent.
Proof.
  unfold listed_children. rewrite list_elem_of_fmap. split.
  - intros (ent & -> & Hin). apply list_elem_of_filter in Hin as [[? ?] Hin]. by exists ent.
  - intros (ent & Hin & ? & ? & ->). exists ent. split; [done|].
    by apply list_elem_of_filter.
Qed.

(** Termination of the loop on a stack: for every output vector so far
    there is an amount of fuel that brings the loop to its end. *)
Lemma enumerate_loop_ends_stack ls recursive (ds stack : list cstring) :
  (∀ d, d ∈ ds → ∀ stack,
     (∀ acc, ∃ fuel res,
        enumerate_loop ls recursive fuel
          {| directoriesToEnumerate := stack; filesAndDirectories := acc |} = Some res) →
     ∀ acc, ∃ fuel res,
       enumerate_loop ls recursive fuel
         {| directoriesToEnumerate := d :: stack; filesAndDirectories := acc |} = Some res) →
  (∀ acc, ∃ fuel res,
     enumerate_loop ls recursive fuel
       {| directoriesToEnumerate := stack; filesAndDirectories := acc |} = Some res) →
  ∀ acc, ∃ fuel res,
    enumerate_loop ls recursive fuel
      {| directoriesToEnumerate := ds ++ stack; filesAndDirectories := acc |} = Some res.
Proof.
  induction ds as [|d ds IH]; intros Hds Hstack; [done|].
  simpl. apply Hds; [by left|]. apply IH; [|done].
  intros d' Hd'. apply Hds. by right.
Qed.

Lemma enumerate_loop_ends ls recursive p :
  well_founded_below ls p → ∀ stack,
  (∀ acc, ∃ fuel res,
     enumerate_loop ls recursive fuel
       {| directoriesToEnumerate := stack; filesAndDirectories := acc |} = Some res) →
  ∀ acc, ∃ fuel res,
    enumerate_loop ls recursive fuel
      {| directoriesToEnumerate := p :: stack; filesAndDirectories := acc |} = Some res.
Proof.
  induction 1 as [p Hnone | p entries Hsome _ IH]; intros stack Hstack acc.
  - exists 1%nat, (false, acc). by rewrite enumerate_loop_step, Hnone.
  - destruct (enumerate_loop_ends_stack ls recursive
                (reverse (pushed_children recursive p entries)) stack) with
      (acc := acc ++ listed_children p entries) as (fuel & res & Hres); [|done|].
    + intros d Hd. rewrite elem_of_reverse in Hd.
      apply pushed_children_elem in Hd as (ent & Hin & Hdir & Hd1 & Hd2 & ->).
      by apply (IH ent).
    + exists (S fuel), res. by rewrite enumerate_loop_step, Hsome.
Qed.

(** X21.  [EnumerateDirectory] returns on every directory tree without an
    infinite descent, recursive or not: some number of iterations of the
    outer loop, and every larger one, ends it. *)
Theorem EnumerateDirectory_terminates (ls : Listing) (rootDirectory : cstring)
    (recursive : bool) :
  well_founded_below ls rootDirectory →
  ∃ fuel res, ∀ extra,
    EnumerateDirectory ls rootDirectory recursive (fuel + extra) = Some res.
Proof.
  intros Hwf.
  destruct (enumerate_loop_ends ls recursive rootDirectory Hwf [])
    with (acc := [rootDirectory]) as (fuel & res & Hres).
  - intros acc. by exists 1%nat, (true, acc).
  - exists fuel, res. intros extra. by apply enumerate_loop_more.
Qed.

Lemma EnumerateDirectory_terminates_witness :
  ∃ fuel res, ∀ extra,
    EnumerateDirectory sample_listing (c_str "/r") true (fuel + extra) = Some res.
Proof.
  apply (EnumerateDirectory_terminates sample_listing (c_str "/r") true).
  eapply wf_dir; [vm_compute; reflexivity|].
  intros ent Hin Hdir Hd1 Hd2.
  repeat (apply elem_of_cons in Hin as [-> | Hin]); try done;
    [|by apply elem_of_nil in Hin].
  eapply wf_dir; [vm_compute; reflexivity|].
  clear. intros ent Hin Hdir Hd1 Hd2.
  repeat (apply elem_of_cons in Hin as [-> | Hin]); try done.
  by apply elem_of_nil in Hin.
Defined.

Lemma entry_of_mono ls root recursive (out out' : list cstring) q :
  (∀ d, d ∈ out → d ∈ out') → entry_of ls root recursive out q →
  entry_of ls root recursive out' q.
Proof.
  intros Hsub [->|(dir & entries & ent & Hdir & H)]; [by left|].
  right. exists dir, entries, ent. split; [by apply Hsub | done].
Qed.

(** What the outer loop keeps true: the stack holds listed directories
    (the root only, when not recursive), and the vector holds the root and
    entries of opened directories. *)
Lemma enumerate_loop_sound ls root recursive fuel e b out :
  (∀ d, d ∈ directoriesToEnumerate e →
        d ∈ filesAndDirectories e ∧ (recursive = false → d = root)) →
  (∀ q, q ∈ filesAndDirectories e →
        entry_of ls root recursive (filesAndDirectories e) q) →
  enumerate_loop ls recursive fuel e = Some (b, out) →
  filesAndDirectories e `prefix_of` out
  ∧ (∀ q, q ∈ out → entry_of ls root recursive out q)
  ∧ (b = false → ∃ dir, dir ∈ out ∧ ls dir = None).
Proof.
  revert e. induction fuel as [|fuel IH]; intros [stack acc] Hstack Hacc;
    [discriminate|]. simpl in Hstack, Hacc.
  destruct stack as [|cur stack]; [by intros [= <- <-]|].
  rewrite enumerate_loop_step.
  destruct (Hstack cur ltac:(by left)) as [Hcur Hroot].
  destruct (ls cur) as [entries|] eqn:Hls.
  2:{ intros [= <- <-]. split; [done|]. split; [done|]. intros _. by exists cur. }
  intros Hloop. apply IH in Hloop as (Hpre & Hout & Hfail); simpl.
  - split; [|done]. etrans; [|exact Hpre]. by apply prefix_app_r.
  - intros d [Hd | Hd]%elem_of_app.
    + rewrite elem_of_reverse in Hd. split.
      * apply elem_of_app. right.
        apply pushed_children_elem in Hd as (ent & ? & ? & ? & ? & ->).
        apply listed_children_elem. by exists ent.
      * intros ->. by apply elem_of_nil in Hd.
    + destruct (Hstack d ltac:(by right)) as [? ?]. split; [|done].
      apply elem_of_app. by left.
  - intros q [Hq | Hq]%elem_of_app.
    + eapply entry_of_mono; [|by apply Hacc]. intros d ?. apply elem_of_app. by left.
    + apply listed_children_elem in Hq as (ent & ? & ? & ? & ->).
      right. exists cur, entries, ent. repeat split; try done.
      apply elem_of_app. by left.
Qed.

(** X22.  What [EnumerateDirectory] leaves in the vector, whether it
    returns [true] or [false]: the root first, and otherwise only paths
    [dir/name] of entries other than [.] and [..] of directories that are
    themselves in the vector and were opened, the root being the only such
    directory when the enumeration is not recursive.  It returns [false]
    only when [opendir] failed on a path of the vector, and then the vector
    keeps what was listed before; it returns [true] only when the root was
    opened. *)
Theorem EnumerateDirectory_lists_entries (ls : Listing) (rootDirectory : cstring)
    (recursive : bool) (fuel : nat) (b : bool) (out : list cstring) :
  EnumerateDirectory ls rootDirectory recursive fuel = Some (b, out) →
  (∃ rest, out = rootDirectory :: rest)
  ∧ (∀ q, q ∈ out → entry_of ls rootDirectory recursive out q)
  ∧ (b = false → ∃ dir, dir ∈ out ∧ ls dir = None)
  ∧ (b = true → is_Some (ls rootDirectory)).
Proof.
  unfold EnumerateDirectory. intros Hrun.
  pose proof Hrun as Hfirst.
  apply (enumerate_loop_sound ls rootDirectory) in Hrun as (Hpre & Hout & Hfail); simpl.
  - split; [|split; [done|split; [done|]]].
    + destruct Hpre as [rest ->]. by exists rest.
    + intros ->. destruct fuel as [|fuel]; [discriminate|].
      rewrite enumerate_loop_step in Hfirst.
      destruct (ls rootDirectory); [by eexists | discriminate].
  - intros d ->%list_elem_of_singleton. split; [by left | done].
  - intros q ->%list_elem_of_singleton. by left.
Qed.

Lemma EnumerateDirectory_lists_entries_witness :
  (∃ rest, [c_str "/r"; c_str "/r/a"; c_str "/r/d"; c_str "/r/d/b"] = c_str "/r" :: rest)
  ∧ (∀ q, q ∈ [c_str "/r"; c_str "/r/a"; c_str "/r/d"; c_str "/r/d/b"] →
          entry_of sample_listing (c_str "/r") true
            [c_str "/r"; c_str "/r/a"; c_str "/r/d"; c_str "/r/d/b"] q)
  ∧ (true = false →
     ∃ dir, dir ∈ [c_str "/r"; c_str "/r/a"; c_str "/r/d"; c_str "/r/d/b"]
            ∧ sample_listing dir = None)
  ∧ (true = true → is_Some (sample_listing (c_str "/r"))).
Proof.
  apply (EnumerateDirectory_lists_entries sample_listing (c_str "/r") true 3 true).
  vm_compute. reflexivity.
Defined.

(** X23.  Without recursion [EnumerateDirectory] opens the root and
    nothing else: it lists the root followed by its entries in [readdir]
    order, [.] and [..] left out, directories like files, and returns
    [true]; when the root cannot be opened it returns [false] and the
    vector holds the root alone. *)
Theorem EnumerateDirectory_flat (ls : Listing) (rootDirectory : cstring) (extra : nat) :
  EnumerateDirectory ls rootDirectory false (2 + extra)
  = match ls rootDirectory with
    | Some entries => Some (true, rootDirectory :: listed_children rootDirectory entries)
    | None => Some (false, [rootDirectory])
    end.
Proof.
  unfold EnumerateDirectory. change (2 + extra)%nat with (S (S extra)).
  rewrite enumerate_loop_step. by destruct (ls rootDirectory).
Qed.

(** ** Normalisation on a file system without links *)

Lemma resolve_path_plain_collapsed env (buf : cstring) follow o :
  symlinks env = ∅ → absolute buf → (NUL ∉ buf) →
  ∃ out, resolve_path env buf follow o = Returned out o
         ∧ absolute out ∧ collapsed out ∧ (collapsed buf → out = buf).
Proof.
  intros Hfs Habs Hnul.
  destruct (resolve_walk_loop env buf follow Habs) as [Hloop _].
  destruct (resolve_loop_scanned env follow Hfs buf _ _ _ (scanned_start buf Habs Hnul)
              ltac:(done) Hloop) as (r & Hw & Hsc & Hend & Hcol & Hsame).
  destruct Hsc as (Habs' & _ & _ & _ & _ & Hr).
  exists (fullpath r). split; [by apply (resolve_path_plain env buf follow r)|].
  split; [done|]. split; done.
Qed.

(** X24.  On a file system without links [normalize_path_at] returns, for
    a path that fits the buffer, an absolute path without [//], [/./] and
    [/../], and changes nothing in the observer: for an absolute path,
    whatever the descriptor, the path itself when it has that form already;
    for a relative path and the [AT_FDCWD] sentinel, what [resolve_path]
    makes of the working directory, a slash and the path. *)
Theorem normalize_path_at_plain (env : Env) (dirfd : Z) (pathname d : cstring)
    (oflags : Z) (o : BxlObserver) :
  symlinks env = ∅ → (NUL ∉ pathname) →
  (absolute pathname → (length pathname < PATH_MAX)%nat →
     ∃ out, normalize_path_at env dirfd (Some pathname) oflags o = Returned out o
            ∧ absolute out ∧ collapsed out ∧ (collapsed pathname → out = pathname))
  ∧ (¬ absolute pathname → cwd env = Some d → absolute d → (NUL ∉ d) →
     (length d + length pathname + 2 ≤ PATH_MAX)%nat →
     ∃ out, normalize_path_at env AT_FDCWD (Some pathname) oflags o = Returned out o
            ∧ absolute out ∧ collapsed out
            ∧ resolve_path env (d ++ [SLASH] ++ pathname)
                (bool_decide (Z.land oflags O_NOFOLLOW = 0)) o = Returned out o).
Proof.
  intros Hfs Hnul. split.
  - intros Habs Hlen.
    destruct (resolve_path_plain_collapsed env pathname
                (bool_decide (Z.land oflags O_NOFOLLOW = 0)) o Hfs Habs Hnul)
      as (out & Hres & Hout).
    exists out. split; [|done].
    unfold normalize_path_at, strcpy_PATH_MAX.
    rewrite (bool_decide_eq_true_2 (char_at pathname 0 = SLASH)) by done. cbn [negb].
    rewrite (bool_decide_eq_false_2 (PATH_MAX < 0 + length pathname + 1)%nat) by lia.
    unfold_M. done.
  - intros Hrel Hcwd Hdabs Hdnul Hlen.
    assert (Hbabs : absolute (d ++ [SLASH] ++ pathname)) by by apply absolute_app.
    assert (Hbnul : NUL ∉ d ++ [SLASH] ++ pathname).
    { rewrite !elem_of_app, list_elem_of_singleton.
      intros [?|[?|?]]; [done | by apply SLASH_not_NUL | done]. }
    destruct (resolve_path_plain_collapsed env (d ++ [SLASH] ++ pathname)
                (bool_decide (Z.land oflags O_NOFOLLOW = 0)) o Hfs Hbabs Hbnul)
      as (out & Hres & Hoabs & Hocol & _).
    exists out. split; [|done].
    pose proof (absolute_length d Hdabs) as Hdlen.
    unfold normalize_path_at, strcpy_PATH_MAX, getcwd.
    rewrite (bool_decide_eq_false_2 (char_at pathname 0 = SLASH)) by done.
    rewrite (bool_decide_eq_true_2 (AT_FDCWD = AT_FDCWD)) by done.
    rewrite Hcwd. cbn [negb].
    rewrite (bool_decide_eq_true_2 (length d < PATH_MAX)%nat) by lia.
    unfold_M.
    rewrite (bool_decide_eq_false_2 (length d ≤ 0)%nat) by lia.
    rewrite (bool_decide_eq_false_2 (PATH_MAX < length d + 1 + length pathname + 1)%nat)
      by lia.
    done.
Qed.

Lemma normalize_path_at_plain_witness :
  ∃ out, normalize_path_at plain_env AT_FDCWD (Some (c_str "../x/./y")) 0 fresh_observer
         = Returned out fresh_observer
         ∧ absolute out ∧ collapsed out
         ∧ resolve_path plain_env (c_str "/d" ++ [SLASH] ++ c_str "../x/./y")
             (bool_decide (Z.land 0 O_NOFOLLOW = 0)) fresh_observer
           = Returned out fresh_observer.
Proof.
  destruct (normalize_path_at_plain plain_env AT_FDCWD (c_str "../x/./y") (c_str "/d") 0
              fresh_observer) as [_ Hrel].
  - reflexivity.
  - refine (proj1 (bool_decide_eq_false (NUL ∈ c_str "../x/./y")) _). vm_compute. reflexivity.
  - apply Hrel.
    + vm_compute. discriminate.
    + reflexivity.
    + reflexivity.
    + refine (proj1 (bool_decide_eq_false (NUL ∈ c_str "/d")) _). vm_compute. reflexivity.
    + vm_compute. lia.
Defined.
